(** * quantdev.analysis: factor combination, rolling weight estimators and
      the return resampler

    A shallow embedding of [src/quantdev/analysis.py]:
    [resample_returns], [calc_max_ir_weights], [calc_max_ic_weights] and
    [combine_factors] with its inner [calc_weighted_factors]; and of the
    conditions of [calc_factor_quantiles_return] and
    [calc_factor_longshort_return], the per-trade columns of [calc_maemfe],
    the drawdown and win rate of [calc_metrics], the pairing of buys and
    sells in [calc_liquidity_metrics], and [calc_relative_return].

    Numbers.  A pandas/numpy float cell is modelled by an exact rational
    ([Q]) when it is finite; overflow is not modelled, and rounding only
    where two different float expressions are compared ([round_binary64]).
    The non-finite values a cell can take ([NaN], [+inf], [-inf]) are
    explicit constructors of [fl].  A table of returns, whose cells are
    finite or missing, uses [option Q] with [None] for NaN.

    Tables.  A DataFrame with a date index is a list of rows, each row a
    label and its cells; dates are ordinals in [Z].  Positional operations
    ([iloc], [shift], [rolling]) work on the list of rows. *)

From Stdlib Require Import String Ascii.
From Stdlib Require Import List ZArith QArith Qminmax Qabs Bool Lia Lqa.
From Stdlib Require Import Sorting.Sorted.
Import ListNotations.

Local Open Scope Q_scope.

(** ** Float cells *)

Inductive fl : Type :=
| Fin (q : Q)
| PInf
| NInf
| NaN.

Definition fl_isna (x : fl) : bool :=
  match x with NaN => true | _ => false end.

Definition Qsgn (q : Q) : Z := Z.sgn (Qnum q).

Definition fl_neg_inf_of (x : fl) : fl :=
  match x with PInf => NInf | NInf => PInf | _ => x end.

(** Signed infinity scaled by the sign of a finite factor; [0 * inf] is NaN. *)
Definition fl_scale_inf (q : Q) (i : fl) : fl :=
  match Qsgn q with
  | Z0 => NaN
  | Zpos _ => i
  | Zneg _ => fl_neg_inf_of i
  end.

Definition fl_add (x y : fl) : fl :=
  match x, y with
  | NaN, _ | _, NaN => NaN
  | Fin a, Fin b => Fin (a + b)
  | PInf, NInf | NInf, PInf => NaN
  | PInf, _ | _, PInf => PInf
  | NInf, _ | _, NInf => NInf
  end.

Definition fl_mul (x y : fl) : fl :=
  match x, y with
  | NaN, _ | _, NaN => NaN
  | Fin a, Fin b => Fin (a * b)
  | Fin a, i => fl_scale_inf a i
  | i, Fin b => fl_scale_inf b i
  | PInf, PInf | NInf, NInf => PInf
  | PInf, NInf | NInf, PInf => NInf
  end.

(** Float division as numpy does it on arrays: a finite value over zero is a
    signed infinity, [0 / 0] is NaN; nothing is raised. *)
Definition fl_div (x y : fl) : fl :=
  match x, y with
  | NaN, _ | _, NaN => NaN
  | Fin a, Fin b =>
      if Qeq_bool b 0
      then match Qsgn a with
           | Z0 => NaN
           | Zpos _ => PInf
           | Zneg _ => NInf
           end
      else Fin (a / b)
  | Fin _, _ => Fin 0
  | i, Fin b => if Qeq_bool b 0 then i else fl_scale_inf b i
  | _, _ => NaN
  end.

Definition fl_opp (x : fl) : fl :=
  match x with Fin a => Fin (- a) | _ => fl_neg_inf_of x end.

(** Python's builtin [sum] over a list of Series: [0 + s1 + s2 + ...]. *)
Definition fl_sum (xs : list fl) : fl := fold_left fl_add xs (Fin 0).

(** Equality of cells up to the representation of a rational. *)
Definition fl_eq (x y : fl) : Prop :=
  match x, y with
  | Fin a, Fin b => a == b
  | PInf, PInf | NInf, NInf | NaN, NaN => True
  | _, _ => False
  end.

Definition fl_red (x : fl) : fl :=
  match x with Fin q => Fin (Qred q) | _ => x end.

(** ** Vectors and matrices of rationals *)

Definition Qsum (xs : list Q) : Q := fold_right Qplus 0 xs.

Definition dot (u v : list Q) : Q :=
  Qsum (map (fun p => fst p * snd p) (combine u v)).

Definition matvec (M : list (list Q)) (v : list Q) : list Q :=
  map (fun row => dot row v) M.

Definition column (j : nat) (rows : list (list Q)) : list Q :=
  map (fun r => nth j r 0) rows.

Definition Qlen {A} (xs : list A) : Q := inject_Z (Z.of_nat (length xs)).

(** [Series.mean()]: NaN on an empty series. *)
Definition mean (xs : list Q) : option Q :=
  match xs with
  | [] => None
  | _ => Some (Qsum xs / Qlen xs)
  end.

(** Sample covariance with [ddof = 1], as [DataFrame.cov()]: NaN with fewer
    than two observations. *)
Definition cov_pair (xs ys : list Q) : option Q :=
  match mean xs, mean ys with
  | Some mx, Some my =>
      if (length xs <=? 1)%nat then None
      else Some (Qsum (map (fun p => (fst p - mx) * (snd p - my)) (combine xs ys))
                 / (Qlen xs - 1))
  | _, _ => None
  end.

Fixpoint sequence {A} (xs : list (option A)) : option (list A) :=
  match xs with
  | [] => Some []
  | None :: _ => None
  | Some x :: r => match sequence r with Some r' => Some (x :: r') | None => None end
  end.

(** [window_df.mean().values]: one mean per factor column. *)
Definition col_means (N : nat) (window_df : list (list Q)) : option (list Q) :=
  sequence (map (fun j => mean (column j window_df)) (seq 0 N)).

(** [window_df.cov().values]: [None] stands for the all-NaN matrix pandas
    returns when the window holds fewer than two rows. *)
Definition cov_matrix (N : nat) (window_df : list (list Q)) : option (list (list Q)) :=
  sequence (map (fun j =>
    sequence (map (fun k => cov_pair (column j window_df) (column k window_df))
                  (seq 0 N))) (seq 0 N)).

(** [ic_df.iloc[i - window:i]] for [window <= i]. *)
Definition iloc_window {A} (rows : list A) (i window : nat) : list A :=
  firstn window (skipn (i - window) rows).

(** ** An exact Moore-Penrose pseudo-inverse (Greville's column recursion)

    [np.linalg.pinv] is a library routine; the estimator below takes it as a
    parameter.  [pinv_exact] is the exact pseudo-inverse over the rationals,
    used to run the estimator on concrete matrices; it keeps its fractions
    in lowest terms. *)

Definition vscale (c : Q) (v : list Q) : list Q := map (Qmult c) v.
Definition vadd (u v : list Q) : list Q :=
  map (fun p => fst p + snd p) (combine u v).
Definition vsub (u v : list Q) : list Q :=
  map (fun p => fst p - snd p) (combine u v).
Definition vzero (m : nat) : list Q := repeat 0 m.
Definition is_zero_vec (v : list Q) : bool := forallb (fun x => Qeq_bool x 0) v.

(** Linear combination [sum_i d_i * vs_i] of vectors of length [m]. *)
Definition lincomb (m : nat) (d : list Q) (vs : list (list Q)) : list Q :=
  fold_left (fun acc p => vadd acc (vscale (fst p) (snd p))) (combine d vs) (vzero m).

(** One step: [cols] are the columns seen so far, [P] the rows of their
    pseudo-inverse, [a] the next column. *)
Definition greville_step (m : nat) (st : list (list Q) * list (list Q)) (a : list Q)
  : list (list Q) * list (list Q) :=
  let '(cols, P) := st in
  let d := matvec P a in
  let c := vsub a (lincomb m d cols) in
  let b := if is_zero_vec c
           then vscale (/ (1 + dot d d)) (lincomb m d P)
           else vscale (/ dot c c) c in
  (cols ++ [a],
   map (map Qred)
       (map (fun p => vsub (snd p) (vscale (fst p) b)) (combine d P) ++ [b])).

Definition transpose (m : nat) (M : list (list Q)) : list (list Q) :=
  map (fun j => column j M) (seq 0 m).

Definition pinv_exact (V : list (list Q)) : option (list (list Q)) :=
  let ncol := match V with [] => O | r :: _ => length r end in
  Some (snd (fold_left (greville_step (length V))
                        (transpose ncol (map (map Qred) V)) ([], []))).

Definition matmul (A B : list (list Q)) : list (list Q) :=
  let ncol := match B with [] => O | r :: _ => length r end in
  map (fun row => map (fun j => dot row (column j B)) (seq 0 ncol)) A.

Definition mat_eqb (A B : list (list Q)) : bool :=
  (length A =? length B)%nat &&
  forallb (fun p => (length (fst p) =? length (snd p))%nat &&
                    forallb (fun q => Qeq_bool (fst q) (snd q)) (combine (fst p) (snd p)))
          (combine A B).

(** The four Penrose equations, decided on concrete matrices. *)
Definition is_pinv_of (A P : list (list Q)) : bool :=
  let n := length A in
  mat_eqb (matmul (matmul A P) A) A &&
  mat_eqb (matmul (matmul P A) P) P &&
  mat_eqb (transpose n (matmul A P)) (matmul A P) &&
  mat_eqb (transpose (length P) (matmul P A)) (matmul P A).

(** ** Tables *)

(** A DataFrame indexed by date: the rows in index order, each with its label. *)
Definition frame (A : Type) : Type := list (Z * list A).

Definition vals {A} (df : frame A) : list (list A) := map snd df.

(** Number of columns, read off the first row; a frame without rows is only
    ever mapped over, so its width is never consulted. *)
Definition ncols {A} (df : frame A) : nat :=
  match df with [] => O | r :: _ => length (snd r) end.

(** The same index with new rows. *)
Definition with_rows {A B} (df : frame A) (rows : list (list B)) : frame B :=
  combine (map fst df) rows.

Definition nan_row (N : nat) : list fl := repeat NaN N.

(** [df.shift(1)]: every row of values moves one position down, the first
    row becomes all-NaN, the index stays. *)
Definition shift1 (df : frame fl) : frame fl :=
  with_rows df (match df with
                | [] => []
                | _ => nan_row (ncols df) :: removelast (vals df)
                end).

Definition of_mean (m : option Q) : fl :=
  match m with Some q => Fin q | None => NaN end.

(** [df.rolling(window).apply(f)] on a frame without NaN: column by column,
    NaN until [window] observations are there ([min_periods = window]). *)
Definition rolling_apply (f : list Q -> fl) (window : nat) (df : frame Q) : frame fl :=
  let rows := vals df in
  with_rows df
    (map (fun i =>
            if (S i <? window)%nat then nan_row (ncols df)
            else map (fun j => f (column j (iloc_window rows (S i) window)))
                     (seq 0 (ncols df)))
         (seq 0 (length rows))).

Definition rolling_mean (window : nat) (df : frame Q) : frame fl :=
  rolling_apply (fun xs => of_mean (mean xs)) window df.

(** ** Rolling weight optimizers *)

(** [scipy.optimize.OptimizeResult], the two fields the code reads. *)
Record OptimizeResult : Type := mkResult {
  success : bool;
  x : list fl
}.

(** One entry of [bounds]: [(lower, upper)], [None] for an open side. *)
Definition bound : Type := (option Q * option Q)%type.

Definition within_bound (b : bound) (v : fl) : Prop :=
  match v with
  | Fin q =>
      match fst b with Some lo => lo <= q | None => True end /\
      match snd b with Some hi => q <= hi | None => True end
  | _ => False
  end.

Definition Qclip0 (q : Q) : Q := Qmax q 0.

Section Optimizers.

(** [np.linalg.pinv]; [None] is [np.linalg.LinAlgError]. *)
Variable pinv : list (list Q) -> option (list (list Q)).

(** [np.sqrt] on a finite value: NaN below zero. *)
Variable np_sqrt : Q -> fl.

(** [scipy.optimize.minimize objective x0 bounds constraints]; the
    constraints are the functions of the ['eq'] entries. *)
Variable minimize :
  (list Q -> fl) -> list Q -> list bound -> list (list Q -> Q) -> OptimizeResult.

(** *** Analytical maximum-IC weights *)

(** The [try] block of [calc_max_ic_weights].  With fewer than two rows in
    the window the covariance is all-NaN and the decomposition inside
    [pinv] does not converge, which is the [LinAlgError] branch. *)
Definition max_ic_raw_w (N : nat) (window_df : list (list Q)) : list Q :=
  match col_means N window_df, cov_matrix N window_df with
  | Some bar_ic, Some V =>
      match pinv V with
      | Some V_inv => matvec V_inv bar_ic
      | None => repeat 1 (length bar_ic)
      end
  | _, _ => repeat 1 N
  end.

Definition max_ic_norm_w (neg_weight : bool) (raw_w0 : list Q) : list Q :=
  let raw_w := if negb neg_weight then map Qclip0 raw_w0 else raw_w0 in
  if Qlt_le_dec 0 (Qsum raw_w)
  then map (fun w => w / Qsum raw_w) raw_w
  else map (fun _ => 1 / Qlen raw_w) raw_w.

Definition max_ic_row (N : nat) (neg_weight : bool) (window_df : list (list Q))
  : list fl :=
  map Fin (max_ic_norm_w neg_weight (max_ic_raw_w N window_df)).

Definition calc_max_ic_weights (ic_df : frame Q) (window : nat) (neg_weight : bool)
  : frame fl :=
  let rows := vals ic_df in
  with_rows ic_df
    (map (fun i =>
            if (i <? window)%nat then nan_row (ncols ic_df)
            else max_ic_row (ncols ic_df) neg_weight (iloc_window rows i window))
         (seq 0 (length rows))).

(** *** Numerical maximum-IR weights *)

Definition large_constant : Q := 1000000.

(** [np.dot(w.T, sigma @ w)]; NaN when [sigma] is. *)
Definition quad_form (sigma : option (list (list Q))) (w : list Q) : option Q :=
  match sigma with
  | Some Sg => Some (dot w (matvec Sg w))
  | None => None
  end.

Definition ir_denominator (sigma : option (list (list Q))) (w : list Q) : fl :=
  match quad_form sigma w with
  | Some q => np_sqrt q
  | None => NaN
  end.

(** [denominator if denominator != 0 else 1e6]; [NaN != 0] holds. *)
Definition ir_divisor (sigma : option (list (list Q))) (w : list Q) : fl :=
  match ir_denominator sigma w with
  | Fin d => if Qeq_bool d 0 then Fin large_constant else Fin d
  | other => other
  end.

Definition ir_numerator (bar_ic : option (list Q)) (w : list Q) : fl :=
  match bar_ic with
  | Some b => Fin (dot w b)
  | None => NaN
  end.

Definition neg_ic_ir (bar_ic : option (list Q)) (sigma : option (list (list Q)))
           (w : list Q) : fl :=
  fl_div (fl_opp (ir_numerator bar_ic w)) (ir_divisor sigma w).

Definition ir_bounds (N : nat) (neg_weight : bool) : list bound :=
  repeat (if neg_weight then (None, None) else (Some 0, None)) N.

Definition sum_to_one (w : list Q) : Q := Qsum w - 1.

Definition optimize_window (N : nat) (window_df : list (list Q)) (neg_weight : bool)
  : list fl :=
  let bar_ic := col_means N window_df in
  let sigma := cov_matrix N window_df in
  let x0 := repeat (1 / inject_Z (Z.of_nat N)) N in
  let result := minimize (neg_ic_ir bar_ic sigma) x0 (ir_bounds N neg_weight)
                         [sum_to_one] in
  if success result then x result else nan_row N.

(** The loop calls [optimize_window(ic_df.iloc[i-window:i])] with one
    argument, so the inner [neg_weight] keeps its default [False] whatever
    the outer [neg_weight] is. *)
Definition calc_max_ir_weights (ic_df : frame Q) (window : nat) (neg_weight : bool)
  : frame fl :=
  let rows := vals ic_df in
  with_rows ic_df
    (map (fun i =>
            if (i <? window)%nat then nan_row (ncols ic_df)
            else optimize_window (ncols ic_df) (iloc_window rows i window) false)
         (seq 0 (length rows))).

End Optimizers.

(** ** Return resampler *)

Definition isna (c : option Q) : bool :=
  match c with None => true | Some _ => false end.

Definition ocolumn (j : nat) (rows : list (list (option Q))) : list (option Q) :=
  map (fun r => nth j r None) rows.

Definition Qprod (xs : list Q) : Q := fold_right Qmult 1 xs.

(** The non-missing cells of a column: what a [skipna] reduction sees. *)
Fixpoint present (xs : list (option Q)) : list Q :=
  match xs with
  | [] => []
  | Some v :: r => v :: present r
  | None :: r => present r
  end.

(** [cum_rtns] on one column of a group:
    [(group + 1).prod() - 1], then NaN where the whole column is NaN. *)
Definition cum_rtns_col (xs : list (option Q)) : option Q :=
  if forallb isna xs then None
  else Some (Qprod (map (fun r => r + 1) (present xs)) - 1).

Definition cum_rtns (N : nat) (group : list (list (option Q))) : list (option Q) :=
  map (fun j => cum_rtns_col (ocolumn j group)) (seq 0 N).

(** [dates.searchsorted(v)] (side ['left']): the first position whose date is
    not before [v].  Every [v] looked up is at most the last entry of
    [dates], so on a sorted schedule the binary search returns this. *)
Fixpoint searchsorted (dates : list Z) (v : Z) : nat :=
  match dates with
  | [] => O
  | d :: r => if (d <? v)%Z then S (searchsorted r v) else O
  end.

Fixpoint insert_key (k : Z) (ks : list Z) : list Z :=
  match ks with
  | [] => [k]
  | k' :: r =>
      if (k <? k')%Z then k :: ks
      else if (k =? k')%Z then ks
      else k' :: insert_key k r
  end.

Definition sorted_keys (ks : list Z) : list Z := fold_right insert_key [] ks.

Definition rows_with_key {A} (k : Z) (keyed : list (Z * A)) : list A :=
  map snd (filter (fun p => (fst p =? k)%Z) keyed).

(** [groupby(keys)]: one group per distinct key, keys ascending, the rows of
    a group in their original order. *)
Definition groupby {A} (keyed : list (Z * A)) : list (Z * list A) :=
  map (fun k => (k, rows_with_key k keyed)) (sorted_keys (map fst keyed)).

(** [df.shift(-1)]: every row of values moves one position up, the last row
    becomes all-NaN, the index stays. *)
Definition shift_rows_up (N : nat) (rows : list (list (option Q)))
  : list (list (option Q)) :=
  match rows with
  | [] => []
  | _ :: rest => rest ++ [repeat None N]
  end.

Definition shift_m1 (N : nat) (df : frame (option Q)) : frame (option Q) :=
  with_rows df (shift_rows_up N (vals df)).

(** [df.dropna(how='all')]. *)
Definition dropna_all (df : frame (option Q)) : frame (option Q) :=
  filter (fun r => negb (forallb isna (snd r))) df.

Definition index_max {A} (df : frame A) : Z :=
  match df with
  | [] => 0%Z
  | r :: rest => fold_left Z.max (map fst rest) (fst r)
  end.

Section Resample.

(** [quantdev.backtest._get_rebalance_date]: the scheduler, a sorted list
    of dates per schedule code. *)
Variable get_rebalance_date : string -> list Z.

Definition resample_dates (returns : frame (option Q)) (t : string) : list Z :=
  get_rebalance_date t ++ [index_max returns].

(** [dates[dates.searchsorted(returns.index)]]: for each day the schedule
    date that closes its interval. *)
Definition interval_key (dates : list Z) (day : Z) : Z :=
  nth (searchsorted dates day) dates day.

Definition interval_groups (returns : frame (option Q)) (t : string)
  : list (Z * list (list (option Q))) :=
  let dates := resample_dates returns t in
  groupby (map (fun r => (interval_key dates (fst r), snd r)) returns).

(** [groupby(...).apply(cum_rtns)]. *)
Definition period_returns (returns : frame (option Q)) (t : string)
  : frame (option Q) :=
  map (fun g => (fst g, cum_rtns (ncols returns) (snd g)))
      (interval_groups returns t).

(** The [try] branch of [resample_returns]. *)
Definition resample_returns (returns : frame (option Q)) (t : string)
  : frame (option Q) :=
  dropna_all (shift_m1 (ncols returns) (period_returns returns t)).

End Resample.

(** ** Factor combiner *)

(** [params]: the two keys the code reads. *)
Record Params : Type := mkParams {
  param_window : nat;
  param_neg_weight : bool
}.

Inductive exn : Type :=
| ValueError (msg : string)
| ZeroDivisionError.

(** How a call of a Python function ends: a value, an exception, or falling
    off the end of the body, which hands [None] to the caller. *)
Inductive outcome (A : Type) : Type :=
| Returned (v : A)
| Raised (e : exn)
| ReturnedNone.

Arguments Returned {A} v.
Arguments Raised {A} e.
Arguments ReturnedNone {A}.

(** Factor values stacked on (date, asset), complete rows only. *)
Definition stacked : Type := list ((Z * string) * list Q).

(** What is handed to [get_factor]: the plain average of the EW branch, or
    the weighted ['factor'] column, kept here in its stacked form (the final
    [unstack] only reshapes it to date x asset). *)
Inductive combined : Type :=
| Averaged (f : frame fl)
| Weighted (l : list ((Z * string) * fl)).

Definition startswith (s p : string) : bool := String.prefix p s.

Definition endswith (s suffix : string) : bool :=
  let n := String.length s in
  let m := String.length suffix in
  (m <=? n)%nat && String.eqb (String.substring (n - m) m s) suffix.

(** [s.split('-')]. *)
Fixpoint split_dash (s : string) : list string :=
  match s with
  | EmptyString => [EmptyString]
  | String c r =>
      if Ascii.eqb c "-"%char then EmptyString :: split_dash r
      else match split_dash r with
           | h :: t => String c h :: t
           | [] => [String c EmptyString]
           end
  end.

Definition lookup_row {A} (d : Z) (df : frame A) : option (list A) :=
  option_map snd (find (fun r => (fst r =? d)%Z) df).

(** [calc_weighted_factors]: inner join of the stacked factors with the
    weight rows on the date, then
    [sum(x[col] * x[col_w]) / sum(x[col_w])] with Python's [sum] and the
    elementwise float operators. *)
Definition weighted_cell (fs : list Q) (ws : list fl) : fl :=
  fl_div (fl_sum (map (fun p => fl_mul (Fin (fst p)) (snd p)) (combine fs ws)))
         (fl_sum ws).

Fixpoint calc_weighted_factors (factors_df : stacked) (weights : frame fl)
  : list ((Z * string) * fl) :=
  match factors_df with
  | [] => []
  | (key, fs) :: rest =>
      match lookup_row (fst key) weights with
      | Some ws => (key, weighted_cell fs ws) :: calc_weighted_factors rest weights
      | None => calc_weighted_factors rest weights
      end
  end.

Definition frame_zip (op : fl -> fl -> fl) (a b : frame fl) : frame fl :=
  map (fun p => (fst (fst p), map (fun c => op (fst c) (snd c))
                                  (combine (snd (fst p)) (snd (snd p)))))
      (combine a b).

Definition frame_map {A B} (f : A -> B) (df : frame A) : frame B :=
  map (fun r => (fst r, map f (snd r))) df.

(** [sum(factors) / len(factors)] on factor frames that share index and
    columns. *)
Definition equal_weight (factors : list (frame fl)) : frame fl :=
  match factors with
  | [] => []
  | f0 :: rest =>
      frame_map (fun c => fl_div c (Fin (Qlen factors)))
                (fold_left (frame_zip fl_add) rest (frame_map (fl_add (Fin 0)) f0))
  end.

(** [x.ewm(halflife=h, adjust=False).mean().iloc[-1]] for the smoothing
    factor [alpha] that belongs to [h]. *)
Definition ewm_last (alpha : Q) (xs : list Q) : fl :=
  match xs with
  | [] => NaN
  | x0 :: rest => Fin (fold_left (fun y xt => (1 - alpha) * y + alpha * xt) rest x0)
  end.

Section Combine.

Variable pinv : list (list Q) -> option (list (list Q)).
Variable np_sqrt : Q -> fl.
Variable minimize :
  (list Q -> fl) -> list Q -> list bound -> list (list Q -> Q) -> OptimizeResult.

(** pandas' smoothing factor of a half-life, [1 - exp(-ln 2 / h)]. *)
Variable halflife_alpha : Q -> Q.

(** The factors restricted to the rebalance dates, stacked, joined and
    [dropna]-ed: the table [pd.concat] builds from a list of factors that
    is not empty (on an empty list [pd.concat] raises [ValueError]). *)
Variable stack_factors : list (frame fl) -> string -> stacked.

(** [calc_reg_returns factors_df rebalance]: the per-date regression
    coefficients. *)
Variable calc_reg_returns : stacked -> string -> frame Q.

(** The [calc_info_coef] columns of all factors, joined and [dropna]-ed,
    again for a list of factors that is not empty. *)
Variable info_coef_table : list (frame fl) -> string -> frame Q.

Variables (Universe FactorOut : Type).
Variable get_factor : combined -> Universe -> FactorOut.

(** [rolling(window).std()]: the square root of the sample variance. *)
Definition rolling_std (window : nat) (df : frame Q) : frame fl :=
  rolling_apply (fun xs => match cov_pair xs xs with
                           | Some v => np_sqrt v
                           | None => NaN
                           end) window df.

(** The weight table of the ['HR...'] branch. *)
Definition hr_weights (method : string) (params : Params) (reg : frame Q)
  : frame fl :=
  let parts := split_dash method in
  if (length parts =? 1)%nat then
    shift1 (rolling_mean (param_window params) reg)
  else if (length parts =? 2)%nat && String.eqb (nth 1 parts EmptyString) "decay" then
    rolling_apply
      (ewm_last (halflife_alpha (inject_Z (Z.of_nat (param_window params)) / 2)))
      (param_window params) reg
  else frame_map Fin reg.

(** The weight table of the ['...IC'] / ['...IR'] branch; [None] is the
    final [else]. *)
Definition ic_weights (method : string) (params : Params) (ic_df : frame Q)
  : option (frame fl) :=
  if String.eqb method "IC" then
    Some (shift1 (rolling_mean (param_window params) ic_df))
  else if String.eqb method "IR" then
    Some (shift1 (frame_zip fl_div (rolling_mean (param_window params) ic_df)
                                   (rolling_std (param_window params) ic_df)))
  else if String.eqb method "MAX_IC" then
    Some (shift1 (calc_max_ic_weights pinv ic_df (param_window params)
                                      (param_neg_weight params)))
  else if String.eqb method "MAX_IR" then
    Some (shift1 (calc_max_ir_weights np_sqrt minimize ic_df (param_window params)
                                      (param_neg_weight params)))
  else None.

Definition combine_factors (factors : list (frame fl)) (method : string)
           (rebalance : string) (params : Params) (universe : Universe)
  : outcome FactorOut :=
  if String.eqb method "EW" then
    match factors with
    | [] => Raised ZeroDivisionError
    | _ => Returned (get_factor (Averaged (equal_weight factors)) universe)
    end
  else if startswith method "HR" then
    let factors_df := stack_factors factors rebalance in
    let weights := hr_weights method params (calc_reg_returns factors_df rebalance) in
    Returned (get_factor (Weighted (calc_weighted_factors factors_df weights)) universe)
  else if endswith method "IC" || endswith method "IR" then
    let factors_df := stack_factors factors rebalance in
    match ic_weights method params (info_coef_table factors rebalance) with
    | Some weights =>
        Returned (get_factor (Weighted (calc_weighted_factors factors_df weights))
                             universe)
    | None => Raised (ValueError ("Invalid method: " ++ method))
    end
  else ReturnedNone.

End Combine.

(** ** Predicates on weight tables *)

(** A row all of whose entries are defined. *)
Definition row_defined (row : list fl) : bool :=
  forallb (fun c => negb (fl_isna c)) row.

(** The row sums to 1 within [tol]. *)
Definition sums_to_one_within (tol : Q) (row : list fl) : Prop :=
  exists s, fl_sum row = Fin s /\ Qabs (s - 1) <= tol.

(** A cell that is not a negative number. *)
Definition nonneg_cell (c : fl) : Prop :=
  match c with
  | Fin q => 0 <= q
  | PInf => True
  | NInf => False
  | NaN => True
  end.

(** The part of the solver's contract the sign of the weights rests on: a
    result reported as a success lies within the bounds it was given. *)
Definition respects_bounds
    (minimize : (list Q -> fl) -> list Q -> list bound -> list (list Q -> Q)
                -> OptimizeResult) : Prop :=
  forall f x0 bnds cons,
    success (minimize f x0 bnds cons) = true ->
    Forall2 within_bound bnds (x (minimize f x0 bnds cons)).

(** The part of the solver's contract the row sum rests on: a result
    reported as a success is a vector of numbers at which every equality
    constraint holds within [tol]. *)
Definition meets_constraints
    (tol : Q)
    (minimize : (list Q -> fl) -> list Q -> list bound -> list (list Q -> Q)
                -> OptimizeResult) : Prop :=
  forall f x0 bnds cons,
    success (minimize f x0 bnds cons) = true ->
    exists xs, x (minimize f x0 bnds cons) = map Fin xs /\
               Forall (fun c => Qabs (c xs) <= tol) cons.

(** ** Stand-ins for the numerical routines, to run the model *)

(** Square root rounded down to twelve decimals; exact on squares. *)
Definition sqrt_approx (q : Q) : fl :=
  if Qlt_le_dec q 0 then NaN
  else Fin (Z.sqrt (Qnum q * Zpos (Qden q) * 10 ^ 24) # (Qden q * 10 ^ 12)).

(** A solver that never converges. *)
Definition failing_solver
    (f : list Q -> fl) (x0 : list Q) (bnds : list bound) (cons : list (list Q -> Q))
  : OptimizeResult :=
  mkResult false (map Fin x0).

Fixpoint boundsb (bnds : list bound) (xs : list fl) : bool :=
  match bnds, xs with
  | [], [] => true
  | b :: bs, Fin q :: r =>
      match fst b with Some lo => Qle_bool lo q | None => true end &&
      match snd b with Some hi => Qle_bool q hi | None => true end &&
      boundsb bs r
  | _, _ => false
  end.

(** A solver that stops at its starting point: a success when that point is
    within the bounds, a failure otherwise. *)
Definition start_point_solver
    (f : list Q -> fl) (x0 : list Q) (bnds : list bound) (cons : list (list Q -> Q))
  : OptimizeResult :=
  mkResult (boundsb bnds (map Fin x0)) (map Fin x0).

(** A solver that stops at its starting point and reports a success when
    that point is within the bounds and meets every constraint within
    [tol]. *)
Definition feasible_start_solver
    (tol : Q)
    (f : list Q -> fl) (x0 : list Q) (bnds : list bound) (cons : list (list Q -> Q))
  : OptimizeResult :=
  mkResult (boundsb bnds (map Fin x0) &&
            forallb (fun c => Qle_bool (Qabs (c x0)) tol) cons)
           (map Fin x0).

(** ** Example tables *)

(** Two factors, the second one twice the first at every date. *)
Definition collinear_ic : frame Q :=
  [ (1%Z, [1 # 10; 2 # 10]);
    (2%Z, [2 # 10; 4 # 10]);
    (3%Z, [4 # 10; 8 # 10]);
    (4%Z, [3 # 10; 6 # 10]);
    (5%Z, [1 # 10; 2 # 10]) ].

(** Two factors, the first with a negative information coefficient. *)
Definition mixed_sign_ic : frame Q :=
  [ (1%Z, [-1 # 10; 1 # 20]);
    (2%Z, [-2 # 10; 1 # 10]);
    (3%Z, [-1 # 10; 3 # 20]) ].

(** [collinear_ic] with other values at the first and at the last two dates. *)
Definition collinear_ic_alt : frame Q :=
  [ (1%Z, [9 # 10; -3 # 10]);
    (2%Z, [2 # 10; 4 # 10]);
    (3%Z, [4 # 10; 8 # 10]);
    (4%Z, [-5 # 10; 7 # 10]);
    (5%Z, [0; 1 # 10]) ].

(** The weighted average as the specification words it: the factors whose
    weight is undefined at the date are left out of numerator and
    denominator. *)
Definition weighted_cell_excluding_undefined (fs : list Q) (ws : list fl) : fl :=
  let kept := filter (fun p => negb (fl_isna (snd p))) (combine fs ws) in
  fl_div (fl_sum (map (fun p => fl_mul (Fin (fst p)) (snd p)) kept))
         (fl_sum (map snd kept)).

(** Regression coefficients of two factors at three rebalance dates. *)
Definition reg_example : frame Q :=
  [ (1%Z, [1 # 100; 2 # 100]);
    (2%Z, [3 # 100; -1 # 100]);
    (3%Z, [2 # 100; 2 # 100]) ].

(** Two factors scored for one asset at the three dates. *)
Definition stacked_example : stacked :=
  [ ((1%Z, "2330"%string), [10; 20]);
    ((2%Z, "2330"%string), [12; 18]);
    ((3%Z, "2330"%string), [14; 16]) ].

(** ** Predicates and examples for the resampler *)

(** Equality of return cells up to the representation of a rational. *)
Definition cell_eq (a b : option Q) : Prop :=
  match a, b with
  | Some u, Some v => u == v
  | None, None => True
  | _, _ => False
  end.

(** Two tables with the same dates and, date by date, equal cells. *)
Definition frame_eq (a b : frame (option Q)) : Prop :=
  Forall2 (fun r s => fst r = fst s /\ Forall2 cell_eq (snd r) (snd s)) a b.


(** A schedule with three dates, whatever the code. *)
Definition three_dates (t : string) : list Z := [10; 20; 30]%Z.

(** Daily returns of one asset: the day on the first schedule date, then an
    interval of four days, the third one missing. *)
Definition daily_with_gap : frame (option Q) :=
  [ (10%Z, [Some (5 # 100)]);
    (11%Z, [Some (1 # 100)]);
    (12%Z, [Some (2 # 100)]);
    (13%Z, [None]);
    (14%Z, [Some (1 # 100)]) ].

(** Daily returns of one asset over the three schedule dates. *)
Definition daily_example : frame (option Q) :=
  [ (10%Z, [Some (5 # 100)]);
    (15%Z, [Some (1 # 100)]);
    (20%Z, [Some (2 # 100)]);
    (25%Z, [Some (10 # 100)]);
    (30%Z, [Some (20 # 100)]) ].

(** Period returns on the first two schedule dates. *)
Definition period_example : frame (option Q) :=
  [ (10%Z, [Some (151 # 5000)]);
    (20%Z, [Some (8 # 25)]) ].

(** The value [cum_rtns] gives a group of one day. *)
Definition one_day (c : option Q) : option Q := cum_rtns_col [c].

Definition one_day_frame (df : frame (option Q)) : frame (option Q) :=
  map (fun r => (fst r, map one_day (snd r))) df.


(** Three rows of information coefficients, both factors negative. *)
Definition negative_ic_window : list (list Q) :=
  [ [-1 # 10; -1 # 20];
    [-2 # 10; -1 # 20];
    [-1 # 10; -3 # 20] ].

(** Four rows of two factors with negative information coefficients, the
    second one twice the first. *)
Definition falling_collinear_window : list (list Q) :=
  map (fun v => [v; 2 * v]) [-1 # 10; -2 # 10; -4 # 10; -3 # 10].

(** Three rows where the first factor is negative and falling, the second
    constant. *)
Definition falling_ic_window : list (list Q) :=
  [ [-1 # 10; 1 # 20];
    [-2 # 10; 1 # 20];
    [-3 # 10; 1 # 20] ].


(** The cell at row position [i] and column position [j] of a table. *)
Definition cell_at {A} (i j : nat) (df : frame A) : option A :=
  match nth_error df i with
  | Some r => nth_error (snd r) j
  | None => None
  end.

(** Whether the weight table has a row for the date of a stacked key. *)
Definition has_weight_row (weights : frame fl) (key : Z * string) : bool :=
  match lookup_row (fst key) weights with
  | Some _ => true
  | None => false
  end.

(** Two factor tables over the same two dates and two assets. *)
Definition factor_a : frame fl :=
  [ (1%Z, [Fin 1; Fin 2]); (2%Z, [Fin 3; NaN]) ].

Definition factor_b : frame fl :=
  [ (1%Z, [Fin 5; Fin 6]); (2%Z, [Fin 7; Fin 8]) ].


(** Four days inside one interval of [three_dates], nothing before them. *)
Definition one_interval_only : frame (option Q) :=
  [ (11%Z, [Some (1 # 100)]);
    (12%Z, [Some (2 # 100)]);
    (13%Z, [None]);
    (14%Z, [Some (1 # 100)]) ].


(** ** Binary64 rounding

    Where the code compares numbers that two different expressions compute,
    the rounding of each operation decides the outcome.  A Python float
    operation returns the real result rounded to the nearest binary64
    number, ties to the even significand; [round_binary64] is that rounding
    for numbers in the normal range. *)

Definition round_half_even (n d : Z) : Z :=
  let q := (n / d)%Z in
  match (2 * (n mod d) ?= d)%Z with
  | Lt => q
  | Gt => (q + 1)%Z
  | Eq => if Z.even q then q else (q + 1)%Z
  end.

Definition pow2 (e : Z) : Q :=
  if (0 <=? e)%Z then inject_Z (2 ^ e) else 1 # Z.to_pos (2 ^ (- e)).

(** [a / d / 2^e] as a fraction of integers. *)
Definition scaled (a d e : Z) : Z * Z :=
  if (0 <=? e)%Z then (a, (d * 2 ^ e)%Z) else ((a * 2 ^ (- e))%Z, d).

(** The exponent [e] with [2^52 <= a / d / 2^e < 2^53]. *)
Definition binary64_exponent (a d : Z) : Z :=
  let e0 := (Z.log2 a - Z.log2 d - 52)%Z in
  if (fst (scaled a d e0) / snd (scaled a d e0) <? 2 ^ 52)%Z then (e0 - 1)%Z else e0.

Definition round_binary64 (q : Q) : Q :=
  let n := Qnum (Qred q) in
  let d := Zpos (Qden (Qred q)) in
  if (n =? 0)%Z then 0
  else
    let a := Z.abs n in
    let e := binary64_exponent a d in
    let m := round_half_even (fst (scaled a d e)) (snd (scaled a d e)) in
    Qred (inject_Z (Z.sgn n * m) * pow2 e).

(** Float division, subtraction and addition. *)
Definition float_div (a b : Q) : Q := round_binary64 (a / b).
Definition float_sub (a b : Q) : Q := round_binary64 (a - b).
Definition float_add (a b : Q) : Q := round_binary64 (a + b).

(** The normalisation of [calc_max_ic_weights] with the rounding of every
    operation: [raw_w.sum()] accumulated from the left, as numpy does on a
    vector of fewer than eight entries, and each quotient rounded. *)
Definition max_ic_norm_w_binary64 (neg_weight : bool) (raw_w0 : list Q) : list Q :=
  let raw_w := if negb neg_weight then map Qclip0 raw_w0 else raw_w0 in
  let total := fold_left float_add raw_w 0 in
  if Qlt_le_dec 0 total
  then map (fun w => float_div w total) raw_w
  else map (fun _ => float_div 1 (Qlen raw_w)) raw_w.

(** Two binary64 numbers next to 12 and -12: [12.000000000000002] and
    [-11.999999999999996]. *)
Definition cancelling_raw_weights : list Q :=
  [ 12 + (1 # 2 ^ 49); - (12 - (1 # 2 ^ 48)) ].

(** ** Quantile and long-short portfolios *)

(** A table of truth values, the [condition] handed to the backtest. *)
Definition in_range_cond (lo hi : Q) (c : option Q) : bool :=
  match c with
  | Some v => Qle_bool lo v && negb (Qle_bool hi v)
  | None => false
  end.

(** [[(i/group, (i+1)/group) for i in range(group)]]; [range] is empty for
    [group <= 0], so nothing is divided by zero. *)
Definition quantile_bounds (group : Z) : list (Q * Q) :=
  map (fun i => (inject_Z (Z.of_nat i) / inject_Z group,
                 inject_Z (Z.of_nat i + 1) / inject_Z group))
      (seq 0 (Z.to_nat group)).

(** [(q_start <= factor) & (factor < q_end)]; a comparison with NaN is
    false. *)
Definition quantile_condition (b : Q * Q) (factor : frame (option Q)) : frame bool :=
  frame_map (in_range_cond (fst b) (snd b)) factor.

(** The bounds of the quantiles as the binary64 numbers the list
    comprehension holds. *)
Definition quantile_bounds_binary64 (group : Z) : list (Q * Q) :=
  map (fun i => (float_div (inject_Z (Z.of_nat i)) (inject_Z group),
                 float_div (inject_Z (Z.of_nat i + 1)) (inject_Z group)))
      (seq 0 (Z.to_nat group)).

(** [1 - 1/group] and [1/group] as floats: the quotient is rounded, then
    the difference. *)
Definition long_threshold (group : Z) : Q :=
  float_sub 1 (float_div 1 (inject_Z group)).

Definition short_threshold (group : Z) : Q := float_div 1 (inject_Z group).

(** [factor >= (1 - 1/group)]. *)
Definition long_cond (group : Z) (c : option Q) : bool :=
  match c with
  | Some v => Qle_bool (long_threshold group) v
  | None => false
  end.

(** [factor < (1/group)]. *)
Definition short_cond (group : Z) (c : option Q) : bool :=
  match c with
  | Some v => negb (Qle_bool (short_threshold group) v)
  | None => false
  end.

Section FactorPortfolios.

(** [quantdev.backtest.fast_backtesting condition rebalance exp_returns] and
    what it returns. *)
Variables (Returns Series : Type).
Variable fast_backtesting : frame bool -> string -> Returns -> Series.

(** [(long - short).dropna()] on two backtest results. *)
Variable sub_dropna : Series -> Series -> Series.

(** The dictionary of [calc_factor_quantiles_return], its entries in the
    order they are written; the keys [q_start * group] differ from entry to
    entry. *)
Definition calc_factor_quantiles_return
    (factor : frame (option Q)) (rebalance : string) (group : Z)
    (exp_returns : Returns) : list (Q * Series) :=
  map (fun b => (fst b * inject_Z group,
                 fast_backtesting (quantile_condition b factor) rebalance exp_returns))
      (quantile_bounds group).

(** [1/group] is evaluated first and raises for [group = 0]. *)
Definition calc_factor_longshort_return
    (factor : frame (option Q)) (rebalance : string) (group : Z)
    (exp_returns : Returns) : outcome Series :=
  if (group =? 0)%Z then Raised ZeroDivisionError
  else
    let long := fast_backtesting (frame_map (long_cond group) factor)
                                 rebalance exp_returns in
    let short := fast_backtesting (frame_map (short_cond group) factor)
                                  rebalance exp_returns in
    Returned (sub_dropna long short).

End FactorPortfolios.

(** How many of the quantile conditions hold at a cell. *)
Definition quantiles_holding (group : Z) (c : option Q) : nat :=
  length (filter (fun b => in_range_cond (fst b) (snd b) c) (quantile_bounds group)).


(** ** Series reductions with [skipna] *)

(** [Series.cumprod()]: the running product of the values met so far; a NaN
    stays NaN at its place and is left out of the product. *)
Fixpoint cumprod_from (acc : Q) (xs : list (option Q)) : list (option Q) :=
  match xs with
  | [] => []
  | None :: r => None :: cumprod_from acc r
  | Some v :: r => Some (acc * v) :: cumprod_from (acc * v) r
  end.

Definition cumprod (xs : list (option Q)) : list (option Q) := cumprod_from 1 xs.

(** [Series.cummax()], NaN handled as in [cumprod]. *)
Fixpoint cummax_from (acc : option Q) (xs : list (option Q)) : list (option Q) :=
  match xs with
  | [] => []
  | None :: r => None :: cummax_from acc r
  | Some v :: r =>
      let m := match acc with Some a => Qmax a v | None => v end in
      Some m :: cummax_from (Some m) r
  end.

Definition cummax (xs : list (option Q)) : list (option Q) := cummax_from None xs.

(** [Series.max()] and [Series.min()]: over the values that are there, NaN
    when there is none. *)
Definition max_skipna (xs : list (option Q)) : option Q :=
  match present xs with
  | [] => None
  | v :: r => Some (fold_left Qmax r v)
  end.

Definition min_skipna (xs : list (option Q)) : option Q :=
  match present xs with
  | [] => None
  | v :: r => Some (fold_left Qmin r v)
  end.

(** [x.dropna().iloc[-1] if not x.dropna().empty else np.nan]. *)
Definition last_value (xs : list (option Q)) : option Q :=
  match present xs with
  | [] => None
  | v :: r => Some (last r v)
  end.

(** The position of the first cell equal to [m]. *)
Fixpoint position_of (m : Q) (xs : list (option Q)) : option nat :=
  match xs with
  | [] => None
  | Some v :: r => if Qeq_bool v m then Some O else option_map S (position_of m r)
  | None :: r => option_map S (position_of m r)
  end.

(** [Series.idxmin()] on a column labelled 0, 1, 2, ...: the first position
    of the minimum. *)
Definition idxmin (xs : list (option Q)) : option nat :=
  match min_skipna xs with
  | Some m => position_of m xs
  | None => None
  end.

(** ** Trade excursions ([calc_maemfe])

    One column of [trades] is one trade: its daily returns from the first
    day on, NaN below its last day. *)

(** [(1 + trades).cumprod(axis=0) - 1]. *)
Definition c_returns (trade : list (option Q)) : list (option Q) :=
  map (option_map (fun w => w - 1)) (cumprod (map (option_map (fun r => 1 + r)) trade)).

Definition trade_return (trade : list (option Q)) : option Q :=
  last_value (c_returns trade).

Definition gmfe (trade : list (option Q)) : option Q :=
  max_skipna (c_returns trade).

(** [x.iloc[:x.idxmin()+1].max()]; every column of [trades] holds a value,
    so [idxmin] has a position to give. *)
Definition bmfe (trade : list (option Q)) : option Q :=
  match idxmin (c_returns trade) with
  | Some k => max_skipna (firstn (S k) (c_returns trade))
  | None => None
  end.

(** [c_returns.min(axis=0).where(lambda x: x <= 0, 0)]: where the condition
    fails, NaN included, the value is 0. *)
Definition mae (trade : list (option Q)) : Q :=
  match min_skipna (c_returns trade) with
  | Some m => if Qle_bool m 0 then m else 0
  | None => 0
  end.

(** ** Drawdown and win rate ([calc_metrics]) *)

Definition fl_of (c : option Q) : fl :=
  match c with Some v => Fin v | None => NaN end.

(** The smaller of two cells, a NaN giving way to the other. *)
Definition fl_min2 (a b : fl) : fl :=
  match a, b with
  | NaN, _ => b
  | _, NaN => a
  | NInf, _ | _, NInf => NInf
  | PInf, _ => b
  | _, PInf => a
  | Fin u, Fin v => Fin (Qmin u v)
  end.

(** [.min()] on floats. *)
Definition fl_min_skipna (xs : list fl) : fl := fold_left fl_min2 xs NaN.

(** [mdd]: [((cum_rtns) / (cum_rtns).cummax() - 1).min()]. *)
Definition mdd (cum_rtns : list (option Q)) : fl :=
  fl_min_skipna
    (map (fun p => fl_add (fl_div (fl_of (fst p)) (fl_of (snd p))) (Fin (-1)))
         (combine cum_rtns (cummax cum_rtns))).

(** The ['MDD(%)'] entry: [mdd((1 + daily_returns).cumprod()) * 100]. *)
Definition mdd_pct (daily_returns : list (option Q)) : fl :=
  fl_mul (mdd (cumprod (map (option_map (fun r => 1 + r)) daily_returns))) (Fin 100).

(** The [mdd] column of [calc_maemfe]:
    [((1 + c_returns) / (1 + c_returns).cummax(axis=0) - 1).min(axis=0)]. *)
Definition trade_mdd (trade : list (option Q)) : fl :=
  mdd (map (option_map (fun c => 1 + c)) (c_returns trade)).

Definition count_if (p : Q -> bool) (xs : list Q) : nat := length (filter p xs).

Definition Qpositive (v : Q) : bool := negb (Qle_bool v 0).

(** The ['Win Rate(%)'] entry:
    [((x.dropna() > 0).sum() / x.dropna().shape[0]) * 100]. *)
Definition win_rate_pct (x : list (option Q)) : fl :=
  fl_mul (fl_div (Fin (inject_Z (Z.of_nat (count_if Qpositive (present x)))))
                 (Fin (Qlen (present x))))
         (Fin 100).

(** The ['Sample Size'] entry: [x.dropna().count()]. *)
Definition sample_size (x : list (option Q)) : nat := length (present x).

(** A trade of four days that first falls, then recovers, padded to six
    rows. *)
Definition trade_example : list (option Q) :=
  [ Some (-2 # 100); Some (-3 # 100); Some (4 # 100); Some (5 # 100); None; None ].


(** A drawdown cell: NaN, or a number in [[-1, 0]]. *)
Definition drawdown_like (c : fl) : Prop :=
  c = NaN \/ exists q, c = Fin q /\ -1 <= q /\ q <= 0.

(** The first value of a column is positive. *)
Definition starts_positive (xs : list (option Q)) : Prop :=
  match present xs with
  | v :: _ => 0 < v
  | [] => False
  end.

(** Three days: a gain, a day that loses everything, a gain. *)
Definition wipeout_example : list (option Q) :=
  [ Some (1 # 10); Some (-1); Some (1 # 2) ].


(** ** Buys and sells of a holding ([calc_liquidity_metrics])

    One column of [portfolio_df]: the weights of one stock, date by date. *)

Inductive action : Type := Buy | Sell.

(** [portfolio_df.shift(1).fillna(0)] at one cell. *)
Definition fillna0 (c : option Q) : Q :=
  match c with Some v => v | None => 0 end.

(** [(last_portfolio == 0) & (portfolio_df != 0)]; [NaN != 0] holds. *)
Definition is_buy (last : Q) (cur : option Q) : bool :=
  Qeq_bool last 0 &&
  match cur with Some v => negb (Qeq_bool v 0) | None => true end.

(** [(last_portfolio != 0) & (portfolio_df == 0)]; [NaN == 0] fails. *)
Definition is_sell (last : Q) (cur : option Q) : bool :=
  negb (Qeq_bool last 0) &&
  match cur with Some v => Qeq_bool v 0 | None => false end.

(** The rows of [buy_sells] of one stock, sorted by date, before the
    pairing; [last] is the weight of the row above. *)
Fixpoint buy_sell_events (last : Q) (col : list (Z * option Q)) : list (Z * action) :=
  match col with
  | [] => []
  | (d, cur) :: rest =>
      (if is_buy last cur then [(d, Buy)]
       else if is_sell last cur then [(d, Sell)]
       else [])
      ++ buy_sell_events (fillna0 cur) rest
  end.

(** [sell_date = groupby('stock_id')['buy_date'].shift(-1)], then the rows
    with [action == 'b'] and a [sell_date]: every buy with the date of the
    event that follows it. *)
Fixpoint pair_trades (events : list (Z * action)) : list (Z * Z) :=
  match events with
  | [] => []
  | (d, a) :: rest =>
      match a, rest with
      | Buy, (d', _) :: _ => (d, d') :: pair_trades rest
      | _, _ => pair_trades rest
      end
  end.

(** [buy_date] and [sell_date] of the trades of one stock; the shifted
    frame starts with 0. *)
Definition stock_trades (col : list (Z * option Q)) : list (Z * Z) :=
  pair_trades (buy_sell_events 0 col).

(** A stock held on dates 2 to 3 and again from date 5 on. *)
Definition holding_example : list (Z * option Q) :=
  [ (1%Z, Some 0); (2%Z, Some (1 # 10)); (3%Z, Some (2 # 10)); (4%Z, Some 0);
    (5%Z, Some (1 # 10)); (6%Z, Some (1 # 10)) ].

(** The same with the weight of date 3 missing. *)
Definition holding_with_gap : list (Z * option Q) :=
  [ (1%Z, Some 0); (2%Z, Some (1 # 10)); (3%Z, None); (4%Z, Some 0);
    (5%Z, Some (1 # 10)); (6%Z, Some (1 # 10)) ].


(** ** Relative return and its downtrends ([calc_relative_return])

    The two daily series share their dates; a row is the pair of the day's
    return and the benchmark's. *)

(** [1 + daily_return - bmk_daily_return]. *)
Definition excess (p : option Q * option Q) : option Q :=
  match p with
  | (Some r, Some b) => Some (1 + r - b)
  | _ => None
  end.

Definition relative_return (rows : list (option Q * option Q)) : list (option Q) :=
  map (option_map (fun w => w - 1)) (cumprod (map excess rows)).

(** [Series.diff()]: NaN on the first row and next to a NaN. *)
Fixpoint diff_from (prev : option Q) (xs : list (option Q)) : list (option Q) :=
  match xs with
  | [] => []
  | x :: r =>
      match x, prev with
      | Some a, Some p => Some (a - p)
      | _, _ => None
      end :: diff_from x r
  end.

Definition diff (xs : list (option Q)) : list (option Q) := diff_from None xs.

(** [relative_return_diff < 0]; false on NaN. *)
Definition downward_mask (xs : list (option Q)) : list bool :=
  map (fun d => match d with Some v => negb (Qle_bool 0 v) | None => false end)
      (diff xs).

(** [downward != downward.shift()] on one row; the first row differs from
    the NaN above it. *)
Definition changed (prev : option bool) (d : bool) : bool :=
  match prev with
  | Some p => negb (Bool.eqb p d)
  | None => true
  end.

(** [(downward != downward.shift()).cumsum()]. *)
Fixpoint group_ids (prev : option bool) (acc : nat) (ds : list bool) : list nat :=
  match ds with
  | [] => []
  | d :: r =>
      let acc' := if changed prev d then S acc else acc in
      acc' :: group_ids (Some d) acc' r
  end.

(** [groupby('group')['downward'].transform('sum')] at a row of group [g]. *)
Definition group_sum (ids : list nat) (ds : list bool) (g : nat) : nat :=
  length (filter (fun p => (fst p =? g)%nat && snd p) (combine ids ds)).

(** The condition of [np.where]. *)
Definition downtrend_cond (window : Z) (ds : list bool) : list bool :=
  let ids := group_ids None 0 ds in
  map (fun p => snd p && (window <=? Z.of_nat (group_sum ids ds (fst p)))%Z)
      (combine ids ds).

(** [np.where(cond, alpha, nan)]. *)
Definition downtrend_return (window : Z) (alpha : list (option Q)) : list (option Q) :=
  map (fun p : bool * option Q => if fst p then snd p else None)
      (combine (downtrend_cond window (downward_mask alpha)) alpha).

Definition calc_relative_return (rows : list (option Q * option Q)) (downtrend_window : Z)
  : list (option Q) * list (option Q) :=
  (relative_return rows, downtrend_return downtrend_window (relative_return rows)).

(** A strategy against a flat benchmark: up, three days down, up, one day
    down. *)
Definition relative_example : list (option Q * option Q) :=
  [ (Some (1 # 100), Some 0); (Some (-1 # 100), Some 0); (Some (-2 # 100), Some 0);
    (Some (-1 # 100), Some 0); (Some (3 # 100), Some 0); (Some (-1 # 100), Some 0) ].

(** * Properties *)

(** ** Lists and tables *)

Lemma vals_with_rows {A B} (df : frame A) (rows : list (list B)) :
  length rows = length df -> vals (with_rows df rows) = rows.
Proof.
  unfold vals, with_rows. revert rows.
  induction df as [|r df IH]; intros [|row rows] Hlen; simpl in *;
    try reflexivity; try discriminate.
  f_equal. apply IH. lia.
Qed.

Lemma nth_error_map_seq {A} (f : nat -> A) (n i : nat) :
  (i < n)%nat -> nth_error (map f (seq 0 n)) i = Some (f i).
Proof.
  intros Hi. rewrite nth_error_map.
  rewrite nth_error_nth' with (d := O) by (rewrite length_seq; exact Hi).
  rewrite seq_nth by exact Hi. reflexivity.
Qed.

Lemma length_vals {A} (df : frame A) : length (vals df) = length df.
Proof. apply length_map. Qed.

Lemma in_with_rows {A B} (df : frame A) (rows : list (list B)) d row :
  In (d, row) (with_rows df rows) -> In row rows.
Proof. unfold with_rows. intros H. apply in_combine_r in H. exact H. Qed.

(** ** The rolling optimizers *)

Section OptimizerFacts.

Variable pinv : list (list Q) -> option (list (list Q)).
Variable np_sqrt : Q -> fl.
Variable minimize :
  (list Q -> fl) -> list Q -> list bound -> list (list Q -> Q) -> OptimizeResult.

Lemma max_ic_rows (ic_df : frame Q) (window : nat) (neg_weight : bool) :
  vals (calc_max_ic_weights pinv ic_df window neg_weight) =
  map (fun i =>
         if (i <? window)%nat then nan_row (ncols ic_df)
         else max_ic_row pinv (ncols ic_df) neg_weight
                         (iloc_window (vals ic_df) i window))
      (seq 0 (length ic_df)).
Proof.
  unfold calc_max_ic_weights. rewrite vals_with_rows.
  - rewrite length_vals. reflexivity.
  - rewrite length_map, length_seq. apply length_vals.
Qed.

Lemma max_ir_rows (ic_df : frame Q) (window : nat) (neg_weight : bool) :
  vals (calc_max_ir_weights np_sqrt minimize ic_df window neg_weight) =
  map (fun i =>
         if (i <? window)%nat then nan_row (ncols ic_df)
         else optimize_window np_sqrt minimize (ncols ic_df)
                              (iloc_window (vals ic_df) i window) false)
      (seq 0 (length ic_df)).
Proof.
  unfold calc_max_ir_weights. rewrite vals_with_rows.
  - rewrite length_vals. reflexivity.
  - rewrite length_map, length_seq. apply length_vals.
Qed.

(** C7.  Both estimators leave every row at an index below [window]
    all-NaN, and the row at an index [i >= window] is a function of the
    rows [i - window, i) alone: two IC tables of the same width that agree
    on that window, whatever they hold at [i] and after, get the same row
    [i]. *)
Theorem max_weights_warmup_and_locality
    (ic_df ic_df' : frame Q) (window : nat) (neg_weight : bool) (i : nat) :
  (i < length ic_df)%nat ->
  ((i < window)%nat ->
     nth_error (vals (calc_max_ic_weights pinv ic_df window neg_weight)) i
       = Some (nan_row (ncols ic_df)) /\
     nth_error (vals (calc_max_ir_weights np_sqrt minimize ic_df window neg_weight)) i
       = Some (nan_row (ncols ic_df))) /\
  ((window <= i)%nat ->
   (i < length ic_df')%nat ->
   ncols ic_df = ncols ic_df' ->
   iloc_window (vals ic_df) i window = iloc_window (vals ic_df') i window ->
     nth_error (vals (calc_max_ic_weights pinv ic_df window neg_weight)) i
       = nth_error (vals (calc_max_ic_weights pinv ic_df' window neg_weight)) i /\
     nth_error (vals (calc_max_ir_weights np_sqrt minimize ic_df window neg_weight)) i
       = nth_error (vals (calc_max_ir_weights np_sqrt minimize ic_df' window neg_weight)) i).
Proof.
  intros Hi. split.
  - intros Hw. apply Nat.ltb_lt in Hw.
    rewrite max_ic_rows, max_ir_rows.
    rewrite !nth_error_map_seq by exact Hi.
    rewrite Hw. split; reflexivity.
  - intros Hw Hi' Hn Hwin.
    assert (Hf : (i <? window)%nat = false) by (apply Nat.ltb_ge; exact Hw).
    rewrite !max_ic_rows, !max_ir_rows.
    rewrite !nth_error_map_seq by assumption.
    rewrite Hf, Hn, Hwin. split; reflexivity.
Qed.

(** The divisor of the objective is never zero. *)
Lemma ir_divisor_nonzero sigma w d :
  ir_divisor np_sqrt sigma w = Fin d -> ~ d == 0.
Proof.
  unfold ir_divisor. destruct (ir_denominator np_sqrt sigma w) as [q| | |];
    try discriminate.
  destruct (Qeq_bool q 0) eqn:E; intros H; injection H as <-.
  - unfold large_constant. intros Hz. discriminate Hz.
  - intros Hz. apply Qeq_bool_neq in E. contradiction.
Qed.

(** C8.  At an index [i >= window] where the solver call of that window
    reports failure, the row is all-NaN; and the objective divides by
    [1e6] whenever the volatility term is exactly zero, so its divisor is
    never zero. *)
Theorem max_ir_failure_row_and_guard
    (ic_df : frame Q) (window : nat) (neg_weight : bool) (i : nat) :
  let N := ncols ic_df in
  let window_df := iloc_window (vals ic_df) i window in
  (window <= i)%nat ->
  (i < length ic_df)%nat ->
  success (minimize (neg_ic_ir np_sqrt (col_means N window_df) (cov_matrix N window_df))
                    (repeat (1 / inject_Z (Z.of_nat N)) N)
                    (ir_bounds N false) [sum_to_one]) = false ->
  nth_error (vals (calc_max_ir_weights np_sqrt minimize ic_df window neg_weight)) i
    = Some (nan_row N) /\
  (forall bar_ic sigma w d,
      ir_denominator np_sqrt sigma w = Fin d -> d == 0 ->
      neg_ic_ir np_sqrt bar_ic sigma w
        = fl_div (fl_opp (ir_numerator bar_ic w)) (Fin large_constant)) /\
  (forall sigma w d, ir_divisor np_sqrt sigma w = Fin d -> ~ d == 0).
Proof.
  intros N window_df Hw Hi Hfail. split; [|split].
  - rewrite max_ir_rows, nth_error_map_seq by exact Hi.
    assert (Hf : (i <? window)%nat = false) by (apply Nat.ltb_ge; exact Hw).
    rewrite Hf. unfold optimize_window. fold N. fold window_df.
    rewrite Hfail. reflexivity.
  - intros bar_ic sigma w d Hd Hz. unfold neg_ic_ir, ir_divisor.
    rewrite Hd. apply Qeq_bool_iff in Hz. rewrite Hz. reflexivity.
  - apply ir_divisor_nonzero.
Qed.

End OptimizerFacts.

(** ** Sums of rationals and of cells *)

Lemma fold_left_fl_add_Fin (l : list Q) (a : Q) :
  fold_left fl_add (map Fin l) (Fin a) = Fin (fold_left Qplus l a).
Proof.
  revert a. induction l as [|q l IH]; intros a; simpl.
  - reflexivity.
  - apply IH.
Qed.

Lemma fold_left_Qplus (l : list Q) (a : Q) :
  fold_left Qplus l a == a + Qsum l.
Proof.
  revert a. induction l as [|q l IH]; intros a; simpl.
  - ring.
  - rewrite IH. ring.
Qed.

Lemma fl_sum_Fin (l : list Q) : fl_eq (fl_sum (map Fin l)) (Fin (Qsum l)).
Proof.
  unfold fl_sum. rewrite fold_left_fl_add_Fin. simpl.
  rewrite fold_left_Qplus. ring.
Qed.

Lemma Qsum_div (l : list Q) (s : Q) :
  Qsum (map (fun w => w / s) l) == Qsum l / s.
Proof.
  induction l as [|q l IH]; simpl.
  - unfold Qdiv. ring.
  - rewrite IH. unfold Qdiv. ring.
Qed.

Lemma Qlen_cons {A} (a : A) (l : list A) : Qlen (a :: l) == 1 + Qlen l.
Proof.
  unfold Qlen. simpl length. rewrite Nat2Z.inj_succ, <- Z.add_1_l.
  rewrite inject_Z_plus. reflexivity.
Qed.

Lemma Qlen_nonneg {A} (l : list A) : 0 <= Qlen l.
Proof.
  unfold Qlen. change 0 with (inject_Z 0). rewrite <- Zle_Qle. lia.
Qed.

Lemma Qlen_pos {A} (l : list A) : l <> [] -> 0 < Qlen l.
Proof.
  destruct l as [|a l]; [congruence|]. intros _.
  rewrite Qlen_cons. pose proof (Qlen_nonneg l). lra.
Qed.

Lemma Qsum_const {A} (c : Q) (l : list A) :
  Qsum (map (fun _ => c) l) == Qlen l * c.
Proof.
  induction l as [|a l IH].
  - simpl. unfold Qlen. simpl. ring.
  - simpl map. simpl Qsum. rewrite IH, Qlen_cons. ring.
Qed.

(** ** The analytical estimator: normalisation and sign *)

Lemma max_ic_norm_w_sum (neg_weight : bool) (raw : list Q) :
  raw <> [] -> Qsum (max_ic_norm_w neg_weight raw) == 1.
Proof.
  intros Hne. unfold max_ic_norm_w.
  set (raw_w := if negb neg_weight then map Qclip0 raw else raw).
  assert (Hne' : raw_w <> []).
  { subst raw_w. destruct (negb neg_weight); [|exact Hne].
    destruct raw; [exfalso; apply Hne; reflexivity|simpl; discriminate]. }
  destruct (Qlt_le_dec 0 (Qsum raw_w)) as [Hpos|Hnpos].
  - rewrite Qsum_div. field. lra.
  - rewrite Qsum_const. pose proof (Qlen_pos raw_w Hne'). field. lra.
Qed.

Lemma Qclip0_nonneg (q : Q) : 0 <= Qclip0 q.
Proof. unfold Qclip0. apply Q.le_max_r. Qed.

Lemma max_ic_norm_w_nonneg (raw : list Q) :
  Forall (fun q => 0 <= q) (max_ic_norm_w false raw).
Proof.
  unfold max_ic_norm_w. simpl negb. cbv iota.
  assert (Hc : Forall (fun q => 0 <= q) (map Qclip0 raw)).
  { apply Forall_forall. intros q Hq. apply in_map_iff in Hq.
    destruct Hq as [q0 [<- _]]. apply Qclip0_nonneg. }
  destruct (Qlt_le_dec 0 (Qsum (map Qclip0 raw))) as [Hpos|Hnpos].
  - apply Forall_forall. intros q Hq. apply in_map_iff in Hq.
    destruct Hq as [w [<- Hw]].
    rewrite Forall_forall in Hc. specialize (Hc w Hw).
    apply Qle_shift_div_l; [exact Hpos|]. lra.
  - apply Forall_forall. intros q Hq. apply in_map_iff in Hq.
    destruct Hq as [w [<- Hw]].
    unfold Qdiv. rewrite Qmult_1_l. apply Qinv_le_0_compat. apply Qlen_nonneg.
Qed.

Lemma nan_row_not_defined (N : nat) :
  nan_row N <> [] -> row_defined (nan_row N) = false.
Proof. destruct N; simpl; [intros H; contradiction H; reflexivity|reflexivity]. Qed.

Lemma in_removelast {A} (a : A) (l : list A) : In a (removelast l) -> In a l.
Proof.
  induction l as [|b l IH]; simpl; [tauto|].
  destruct l as [|c l]; simpl in *; [tauto|].
  intros [H|H]; [left; exact H|right; apply IH; exact H].
Qed.

(** A row of a shifted table is the all-NaN first row or a row of the
    table before the shift. *)
Lemma in_shift1 (df : frame fl) d row :
  In (d, row) (shift1 df) -> row = nan_row (ncols df) \/ In row (vals df).
Proof.
  unfold shift1. intros H. apply in_with_rows in H.
  destruct df as [|r df]; [destruct H|].
  destruct H as [H|H]; [left; symmetry; exact H|right].
  apply in_removelast. exact H.
Qed.

Section MaxIcFacts.

Variable pinv : list (list Q) -> option (list (list Q)).

Lemma max_ic_row_sum N neg_weight window_df :
  max_ic_row pinv N neg_weight window_df <> [] ->
  fl_eq (fl_sum (max_ic_row pinv N neg_weight window_df)) (Fin 1).
Proof.
  unfold max_ic_row. intros Hne.
  pose proof (fl_sum_Fin (max_ic_norm_w neg_weight (max_ic_raw_w pinv N window_df))) as Hs.
  destruct (fl_sum (map Fin (max_ic_norm_w neg_weight (max_ic_raw_w pinv N window_df))))
    as [s| | |]; simpl in *; try contradiction.
  rewrite Hs. apply max_ic_norm_w_sum.
  intros Hraw. apply Hne. unfold max_ic_norm_w. rewrite Hraw.
  destruct (negb neg_weight); simpl;
    destruct (Qlt_le_dec 0 (Qsum [])); reflexivity.
Qed.

End MaxIcFacts.

Lemma sequence_length {A} (l : list (option A)) (r : list A) :
  sequence l = Some r -> length r = length l.
Proof.
  revert r. induction l as [|o l IH]; intros r H; simpl in H.
  - injection H as <-. reflexivity.
  - destruct o as [a|]; [|discriminate].
    destruct (sequence l) as [r'|]; [|discriminate].
    injection H as <-. simpl. f_equal. apply IH. reflexivity.
Qed.

Lemma col_means_length N window_df bar_ic :
  col_means N window_df = Some bar_ic -> length bar_ic = N.
Proof.
  unfold col_means. intros H. apply sequence_length in H.
  rewrite length_map, length_seq in H. exact H.
Qed.

Lemma Qsum_repeat1 (N : nat) : Qsum (repeat 1 N) == inject_Z (Z.of_nat N).
Proof.
  induction N as [|N IH].
  - reflexivity.
  - simpl repeat. simpl Qsum. rewrite IH.
    rewrite Nat2Z.inj_succ, <- Z.add_1_l, inject_Z_plus. reflexivity.
Qed.

Lemma clip_ones (N : nat) : map Qclip0 (repeat 1 N) = repeat 1 N.
Proof. induction N as [|N IH]; simpl; [reflexivity|]. f_equal. exact IH. Qed.

Lemma boundsb_sound (bnds : list bound) (xs : list fl) :
  boundsb bnds xs = true -> Forall2 within_bound bnds xs.
Proof.
  revert xs. induction bnds as [|b bs IH]; intros [|c r] H; simpl in H;
    try discriminate.
  - constructor.
  - destruct c as [q| | |]; try discriminate.
    apply andb_true_iff in H. destruct H as [H Hr].
    apply andb_true_iff in H. destruct H as [Hlo Hhi].
    constructor; [|apply IH; exact Hr].
    unfold within_bound. split.
    + destruct (fst b); [apply Qle_bool_iff; exact Hlo|exact I].
    + destruct (snd b); [apply Qle_bool_iff; exact Hhi|exact I].
Qed.

Lemma start_point_solver_respects_bounds : respects_bounds start_point_solver.
Proof. intros f x0 bnds cons H. apply boundsb_sound. exact H. Qed.

Lemma ir_bounds_nonneg (N : nat) (xs : list fl) (c : fl) :
  Forall2 within_bound (ir_bounds N false) xs -> In c xs ->
  exists q, c = Fin q /\ 0 <= q.
Proof.
  unfold ir_bounds. revert xs. induction N as [|N IH]; intros xs HF Hc; simpl in HF.
  - inversion HF; subst. destruct Hc.
  - inversion HF as [|b y bs ys Hb Hrest]; subst.
    destruct Hc as [<-|Hc]; [|eapply IH; eassumption].
    destruct y as [q| | |]; simpl in Hb; try contradiction.
    exists q. split; [reflexivity|]. apply Hb.
Qed.

Lemma exact_sum_within (tol : Q) (row : list fl) :
  0 <= tol -> fl_eq (fl_sum row) (Fin 1) -> sums_to_one_within tol row.
Proof.
  intros Htol H. unfold sums_to_one_within.
  destruct (fl_sum row) as [s| | |]; simpl in H; try contradiction.
  exists s. split; [reflexivity|].
  assert (E : s - 1 == 0) by (rewrite H; ring).
  rewrite E. exact Htol.
Qed.

Lemma feasible_start_solver_meets_constraints (tol : Q) :
  meets_constraints tol (feasible_start_solver tol).
Proof.
  intros f x0 bnds cons H. simpl in H.
  apply andb_true_iff in H. destruct H as [_ H].
  exists x0. split; [reflexivity|].
  apply Forall_forall. intros c Hc. rewrite forallb_forall in H.
  apply Qle_bool_iff. apply H. exact Hc.
Qed.

Section WeightFacts.

Variable pinv : list (list Q) -> option (list (list Q)).
Variable np_sqrt : Q -> fl.
Variable minimize :
  (list Q -> fl) -> list Q -> list bound -> list (list Q -> Q) -> OptimizeResult.

Lemma ic_weights_MAX_IC params ic_df :
  ic_weights pinv np_sqrt minimize "MAX_IC" params ic_df =
  Some (shift1 (calc_max_ic_weights pinv ic_df (param_window params)
                                    (param_neg_weight params))).
Proof. reflexivity. Qed.

Lemma ic_weights_MAX_IR params ic_df :
  ic_weights pinv np_sqrt minimize "MAX_IR" params ic_df =
  Some (shift1 (calc_max_ir_weights np_sqrt minimize ic_df (param_window params)
                                    (param_neg_weight params))).
Proof. reflexivity. Qed.

(** C2, as amended.  In the weight table that [combine_factors] builds
    for ['MAX_IC'] with [neg_weight = False], and in the table for
    ['MAX_IR'] when a successful solver result meets its constraint within
    [tol], every non-empty row without NaN sums to 1 within [tol]. *)
Theorem max_weight_rows_sum_to_one
    (tol : Q) (method : string) (params : Params) (ic_df : frame Q) (w : frame fl)
    (d : Z) (row : list fl) :
  0 <= tol ->
  meets_constraints tol minimize ->
  (method = "MAX_IC"%string /\ param_neg_weight params = false) \/
  method = "MAX_IR"%string ->
  ic_weights pinv np_sqrt minimize method params ic_df = Some w ->
  In (d, row) w ->
  row <> [] ->
  row_defined row = true ->
  sums_to_one_within tol row.
Proof.
  intros Htol Hsolver Hm Hw Hin Hne Hdef.
  destruct Hm as [[-> _]| ->];
    [rewrite ic_weights_MAX_IC in Hw|rewrite ic_weights_MAX_IR in Hw];
    injection Hw as <-; apply in_shift1 in Hin;
    (destruct Hin as [->|Hin];
     [rewrite nan_row_not_defined in Hdef by exact Hne; discriminate|]).
  - rewrite max_ic_rows in Hin.
    apply in_map_iff in Hin. destruct Hin as [i [<- _]].
    destruct (i <? param_window params)%nat.
    + rewrite nan_row_not_defined in Hdef by exact Hne. discriminate.
    + apply exact_sum_within; [exact Htol|]. apply max_ic_row_sum. exact Hne.
  - rewrite max_ir_rows in Hin.
    apply in_map_iff in Hin. destruct Hin as [i [<- _]].
    destruct (i <? param_window params)%nat.
    + rewrite nan_row_not_defined in Hdef by exact Hne. discriminate.
    + unfold optimize_window in *.
      match type of Hdef with
      | context [success ?r] => destruct (success r) eqn:Hs
      end.
      * apply Hsolver in Hs. destruct Hs as [xs [Hx Hc]].
        rewrite Hx. unfold sums_to_one_within, fl_sum.
        rewrite fold_left_fl_add_Fin. eexists. split; [reflexivity|].
        inversion Hc as [|c cs Hc0 _]; subst. unfold sum_to_one in Hc0.
        rewrite fold_left_Qplus.
        assert (E : 0 + Qsum xs - 1 == Qsum xs - 1) by ring.
        rewrite E. exact Hc0.
      * rewrite nan_row_not_defined in Hdef by exact Hne. discriminate.
Qed.

Lemma max_ic_row_nonneg N window_df c :
  In c (max_ic_row pinv N false window_df) -> exists q, c = Fin q /\ 0 <= q.
Proof.
  unfold max_ic_row. intros H. apply in_map_iff in H.
  destruct H as [q [<- Hq]]. exists q. split; [reflexivity|].
  pose proof (max_ic_norm_w_nonneg (max_ic_raw_w pinv N window_df)) as HF.
  rewrite Forall_forall in HF. apply HF. exact Hq.
Qed.

Lemma in_nan_row N c : In c (nan_row N) -> c = NaN.
Proof. unfold nan_row. apply repeat_spec. Qed.

(** C4, as amended.  With [neg_weight = False], every entry of the weight
    table that [combine_factors] builds for ['MAX_IC'] is NaN or a
    non-negative number, and so is every entry of the table for
    ['MAX_IR'] when a successful solver result lies within its bounds. *)
Theorem max_weights_nonneg
    (method : string) (params : Params) (ic_df : frame Q) (w : frame fl)
    (d : Z) (row : list fl) (c : fl) :
  respects_bounds minimize ->
  param_neg_weight params = false ->
  method = "MAX_IC"%string \/ method = "MAX_IR"%string ->
  ic_weights pinv np_sqrt minimize method params ic_df = Some w ->
  In (d, row) w ->
  In c row ->
  c = NaN \/ exists q, c = Fin q /\ 0 <= q.
Proof.
  intros Hsolver Hneg Hm Hw Hin Hc.
  destruct Hm as [->| ->];
    [rewrite ic_weights_MAX_IC in Hw|rewrite ic_weights_MAX_IR in Hw];
    injection Hw as <-; apply in_shift1 in Hin;
    (destruct Hin as [->|Hin]; [left; eapply in_nan_row; exact Hc|]).
  - rewrite max_ic_rows in Hin. apply in_map_iff in Hin.
    destruct Hin as [i [<- _]]. destruct (i <? param_window params)%nat.
    + left. eapply in_nan_row; exact Hc.
    + right. rewrite Hneg in Hc. eapply max_ic_row_nonneg. exact Hc.
  - rewrite max_ir_rows in Hin. apply in_map_iff in Hin.
    destruct Hin as [i [<- _]]. destruct (i <? param_window params)%nat.
    + left. eapply in_nan_row; exact Hc.
    + unfold optimize_window in Hc.
      match type of Hc with
      | context [success ?r] => destruct (success r) eqn:Hs
      end.
      * right. apply Hsolver in Hs. eapply ir_bounds_nonneg; eassumption.
      * left. eapply in_nan_row; exact Hc.
Qed.

End WeightFacts.

(** ** Concrete runs of the estimators *)

Lemma max_weights_warmup_and_locality_witness :
  (nth_error (vals (calc_max_ic_weights pinv_exact collinear_ic 2 false)) 1
     = Some (nan_row 2) /\
   nth_error (vals (calc_max_ir_weights sqrt_approx start_point_solver collinear_ic 2 false)) 1
     = Some (nan_row 2)) /\
  (iloc_window (vals collinear_ic) 3 2 = iloc_window (vals collinear_ic_alt) 3 2 /\
   nth_error (vals (calc_max_ic_weights pinv_exact collinear_ic 2 false)) 3
     = nth_error (vals (calc_max_ic_weights pinv_exact collinear_ic_alt 2 false)) 3 /\
   nth_error (vals (calc_max_ir_weights sqrt_approx start_point_solver collinear_ic 2 false)) 3
     = nth_error (vals (calc_max_ir_weights sqrt_approx start_point_solver collinear_ic_alt 2 false)) 3).
Proof.
  assert (H1 : (1 < length collinear_ic)%nat) by (unfold collinear_ic; simpl; lia).
  assert (H3 : (3 < length collinear_ic)%nat) by (unfold collinear_ic; simpl; lia).
  assert (H3' : (3 < length collinear_ic_alt)%nat)
    by (unfold collinear_ic_alt; simpl; lia).
  split.
  - apply (proj1 (max_weights_warmup_and_locality pinv_exact sqrt_approx
                    start_point_solver collinear_ic collinear_ic_alt 2 false 1 H1)).
    lia.
  - split; [reflexivity|].
    apply (proj2 (max_weights_warmup_and_locality pinv_exact sqrt_approx
                    start_point_solver collinear_ic collinear_ic_alt 2 false 3 H3)).
    + lia.
    + exact H3'.
    + reflexivity.
    + reflexivity.
Defined.

Lemma max_ir_failure_row_and_guard_witness :
  nth_error (vals (calc_max_ir_weights sqrt_approx failing_solver collinear_ic 2 false)) 3
    = Some (nan_row 2) /\
  (forall bar_ic sigma w d,
      ir_denominator sqrt_approx sigma w = Fin d -> d == 0 ->
      neg_ic_ir sqrt_approx bar_ic sigma w
        = fl_div (fl_opp (ir_numerator bar_ic w)) (Fin large_constant)) /\
  (forall sigma w d, ir_divisor sqrt_approx sigma w = Fin d -> ~ d == 0).
Proof.
  apply (max_ir_failure_row_and_guard sqrt_approx failing_solver collinear_ic 2 false 3).
  - lia.
  - unfold collinear_ic; simpl; lia.
  - reflexivity.
Defined.

(** The objective at a weight vector with zero volatility: on a window of
    two identical rows the covariance is zero, and the value is
    [-(w . mean_ic) / 1e6]. *)
Example neg_ic_ir_zero_volatility :
  let window_df := [[1 # 10; 2 # 10]; [1 # 10; 2 # 10]] in
  fl_red (neg_ic_ir sqrt_approx (col_means 2 window_df) (cov_matrix 2 window_df)
                    [1 # 2; 1 # 2])
  = Fin (-3 # 20000000).
Proof. vm_compute. reflexivity. Qed.

(** C2, counterexample.  The weight table of ['IC'] holds the trailing mean
    of the information coefficients as it is: the row used at date 2 is
    [(0.1, 0.2)], without NaN, and its sum 0.3 is not within 1e-6 of 1. *)
Lemma ic_weight_row_sum_not_one :
  exists w row,
    ic_weights pinv_exact sqrt_approx failing_solver "IC" (mkParams 1 false) collinear_ic
      = Some w /\
    In (2%Z, row) w /\
    map fl_red row = [Fin (1 # 10); Fin (1 # 5)] /\
    row_defined row = true /\
    ~ sums_to_one_within (1 # 1000000) row.
Proof.
  eexists. eexists. split; [vm_compute; reflexivity|].
  split; [right; left; reflexivity|].
  split; [reflexivity|]. split; [reflexivity|].
  intros [s [Hs Habs]]. vm_compute in Hs. injection Hs as <-.
  vm_compute in Habs. apply Habs. reflexivity.
Qed.

Lemma max_weight_rows_sum_to_one_witness :
  let tol := 1 # 1000000 in
  let solver := feasible_start_solver tol in
  let w_ic := shift1 (calc_max_ic_weights pinv_exact collinear_ic 2 false) in
  let w_ir := shift1 (calc_max_ir_weights sqrt_approx solver collinear_ic 2 false) in
  let row_ic := nth 3 (vals w_ic) [] in
  let row_ir := nth 3 (vals w_ir) [] in
  meets_constraints tol solver /\
  (In (4%Z, row_ic) w_ic /\ row_ic <> [] /\ row_defined row_ic = true /\
   sums_to_one_within tol row_ic) /\
  (In (4%Z, row_ir) w_ir /\ row_ir <> [] /\ row_defined row_ir = true /\
   sums_to_one_within tol row_ir).
Proof.
  intros tol solver w_ic w_ir row_ic row_ir.
  assert (Htol : 0 <= tol) by (vm_compute; discriminate).
  pose proof (feasible_start_solver_meets_constraints tol) as Hsolver.
  assert (Hin : In (4%Z, row_ic) w_ic) by (vm_compute; do 3 right; left; reflexivity).
  assert (Hne : row_ic <> []) by (vm_compute; discriminate).
  assert (Hdef : row_defined row_ic = true) by (vm_compute; reflexivity).
  assert (Hin' : In (4%Z, row_ir) w_ir) by (vm_compute; do 3 right; left; reflexivity).
  assert (Hne' : row_ir <> []) by (vm_compute; discriminate).
  assert (Hdef' : row_defined row_ir = true) by (vm_compute; reflexivity).
  split; [exact Hsolver|]. split.
  - split; [exact Hin|]. split; [exact Hne|]. split; [exact Hdef|].
    exact (max_weight_rows_sum_to_one pinv_exact sqrt_approx solver tol
             "MAX_IC" (mkParams 2 false) collinear_ic w_ic 4%Z row_ic
             Htol Hsolver (or_introl (conj eq_refl eq_refl)) eq_refl Hin Hne Hdef).
  - split; [exact Hin'|]. split; [exact Hne'|]. split; [exact Hdef'|].
    exact (max_weight_rows_sum_to_one pinv_exact sqrt_approx solver tol
             "MAX_IR" (mkParams 2 false) collinear_ic w_ir 4%Z row_ir
             Htol Hsolver (or_intror eq_refl) eq_refl Hin' Hne' Hdef').
Defined.

(** Why the amended C2 stops at [neg_weight = False]: with raw weights of
    both signs that nearly cancel, the quotients [raw_w / raw_w.sum()] are
    of the order of [2^51] and their rounding is of the order of 1.  For
    the two binary64 numbers of [cancelling_raw_weights] the exact row sums
    to 1 and the row of rounded quotients to 1.25. *)
Example max_ic_row_sum_cancellation :
  map round_binary64 cancelling_raw_weights = map Qred cancelling_raw_weights /\
  Qsum (max_ic_norm_w true cancelling_raw_weights) == 1 /\
  Qred (Qsum (max_ic_norm_w_binary64 true cancelling_raw_weights)) = 5 # 4 /\
  round_binary64 (Qsum (max_ic_norm_w_binary64 true cancelling_raw_weights)) = 5 # 4.
Proof. repeat split; vm_compute; reflexivity. Qed.

(** C4, counterexample.  With [neg_weight = False] the weight table of
    ['IC'] still holds the negative trailing mean of a factor whose
    information coefficient is negative: the row used at date 2 is
    [(-0.1, 0.05)]. *)
Lemma ic_weight_negative_entry :
  exists w row,
    ic_weights pinv_exact sqrt_approx failing_solver "IC" (mkParams 1 false) mixed_sign_ic
      = Some w /\
    In (2%Z, row) w /\
    map fl_red row = [Fin (-1 # 10); Fin (1 # 20)] /\
    ~ Forall nonneg_cell row.
Proof.
  eexists. eexists. split; [vm_compute; reflexivity|].
  split; [right; left; reflexivity|].
  split; [reflexivity|].
  intros H. inversion H as [|c r Hc _]; subst.
  vm_compute in Hc. apply Hc. reflexivity.
Qed.

Lemma max_weights_nonneg_witness :
  let params := mkParams 2 false in
  let w := shift1 (calc_max_ir_weights sqrt_approx start_point_solver collinear_ic 2 false) in
  let row := nth 3 (vals w) [] in
  let c := nth 0 row NaN in
  respects_bounds start_point_solver /\
  In (4%Z, row) w /\ In c row /\
  (c = NaN \/ exists q, c = Fin q /\ 0 <= q).
Proof.
  intros params w row c.
  assert (Hin : In (4%Z, row) w) by (vm_compute; do 3 right; left; reflexivity).
  assert (Hc : In c row) by (vm_compute; left; reflexivity).
  split; [exact start_point_solver_respects_bounds|].
  split; [exact Hin|]. split; [exact Hc|].
  exact (max_weights_nonneg pinv_exact sqrt_approx start_point_solver
           "MAX_IR" params collinear_ic w 4%Z row c
           start_point_solver_respects_bounds eq_refl (or_intror eq_refl) eq_refl Hin Hc).
Defined.

(** C5, counterexample.  On the four rows before date 5 of [collinear_ic]
    the covariance [V] is singular ([V (2, -1) = 0]); the pseudo-inverse
    exists, nothing is raised, and the raw weights are [pinv V . mean_ic =
    (3, 6)], not the all-ones vector: the row is [(1/3, 2/3)] where the
    all-ones fallback would give [(1/2, 1/2)]. *)
Lemma collinear_window_uses_pinv :
  let window_df := iloc_window (vals collinear_ic) 4 4 in
  let V := [[1 # 60; 1 # 30]; [1 # 30; 1 # 15]] in
  let V_inv := [[12 # 5; 24 # 5]; [24 # 5; 48 # 5]] in
  option_map (map (map Qred)) (cov_matrix 2 window_df) = Some V /\
  map Qred (matvec V [2; -1]) = [0; 0] /\
  pinv_exact V = Some V_inv /\
  is_pinv_of V V_inv = true /\
  map Qred (max_ic_raw_w pinv_exact 2 window_df) = [3; 6] /\
  ~ Forall2 Qeq (max_ic_raw_w pinv_exact 2 window_df) (repeat 1 2%nat) /\
  option_map (map fl_red)
    (nth_error (vals (calc_max_ic_weights pinv_exact collinear_ic 4 false)) 4)
    = Some [Fin (1 # 3); Fin (2 # 3)].
Proof.
  intros window_df V V_inv.
  split; [vm_compute; reflexivity|].
  split; [vm_compute; reflexivity|].
  split; [vm_compute; reflexivity|].
  split; [vm_compute; reflexivity|].
  split; [vm_compute; reflexivity|].
  split; [|vm_compute; reflexivity].
  intros H. vm_compute in H. inversion H as [|a b la lb Hab _]; subst.
  vm_compute in Hab. discriminate Hab.
Qed.

(** ** The weighted average of [calc_weighted_factors] *)

Lemma fold_left_fl_add_NaN (l : list fl) : fold_left fl_add l NaN = NaN.
Proof. induction l as [|c l IH]; simpl; [reflexivity|exact IH]. Qed.

Lemma fl_add_NaN_r (a : fl) : fl_add a NaN = NaN.
Proof. destruct a; reflexivity. Qed.

Lemma fold_left_fl_add_in_NaN (l : list fl) (a : fl) :
  In NaN l -> fold_left fl_add l a = NaN.
Proof.
  revert a. induction l as [|c l IH]; intros a H; simpl in *; [destruct H|].
  destruct H as [->|H].
  - rewrite fl_add_NaN_r. apply fold_left_fl_add_NaN.
  - apply IH. exact H.
Qed.

Lemma fl_div_NaN_r (a : fl) : fl_div a NaN = NaN.
Proof. destruct a; reflexivity. Qed.

Lemma products_Fin (fs qs : list Q) :
  map (fun p => fl_mul (Fin (fst p)) (snd p)) (combine fs (map Fin qs))
  = map Fin (map (fun p => fst p * snd p) (combine fs qs)).
Proof.
  revert qs. induction fs as [|f fs IH]; intros [|q qs]; simpl; try reflexivity.
  f_equal. apply IH.
Qed.

Lemma in_calc_weighted_factors (factors_df : stacked) (weights : frame fl) key fs ws :
  In (key, fs) factors_df ->
  lookup_row (fst key) weights = Some ws ->
  In (key, weighted_cell fs ws) (calc_weighted_factors factors_df weights).
Proof.
  intros Hin Hl. induction factors_df as [|[k f] rest IH]; simpl in *; [destruct Hin|].
  destruct Hin as [Heq|Hin].
  - injection Heq as -> ->. rewrite Hl. left. reflexivity.
  - destruct (lookup_row (fst k) weights); [right|]; apply IH; exact Hin.
Qed.

(** C6, as amended.  A stacked row whose date has a weight row gets the cell
    [sum(f_i * w_i) / sum(w_i)] over all factors: the quotient of the two
    sums when every weight is a number and they do not sum to zero, and NaN
    as soon as one weight of the row is NaN. *)
Theorem weighted_cell_divides_by_row_sum
    (factors_df : stacked) (weights : frame fl)
    (key : Z * string) (fs : list Q) (ws : list fl) :
  In (key, fs) factors_df ->
  lookup_row (fst key) weights = Some ws ->
  In (key, weighted_cell fs ws) (calc_weighted_factors factors_df weights) /\
  (In NaN ws -> weighted_cell fs ws = NaN) /\
  (forall qs, ws = map Fin qs -> length fs = length qs -> ~ Qsum qs == 0 ->
     fl_eq (weighted_cell fs ws) (Fin (dot fs qs / Qsum qs))).
Proof.
  intros Hin Hl. split; [|split].
  - apply in_calc_weighted_factors; assumption.
  - intros Hnan. unfold weighted_cell, fl_sum at 2.
    rewrite (fold_left_fl_add_in_NaN ws (Fin 0) Hnan). apply fl_div_NaN_r.
  - intros qs -> _ Hsum. unfold weighted_cell.
    rewrite products_Fin. unfold fl_sum. rewrite !fold_left_fl_add_Fin.
    assert (Hden : fold_left Qplus qs 0 == Qsum qs)
      by (rewrite fold_left_Qplus; ring).
    assert (Hnum : fold_left Qplus (map (fun p => fst p * snd p) (combine fs qs)) 0
                   == dot fs qs)
      by (rewrite fold_left_Qplus; unfold dot; ring).
    unfold fl_div.
    destruct (Qeq_bool (fold_left Qplus qs 0) 0) eqn:E.
    + apply Qeq_bool_iff in E. exfalso. apply Hsum. rewrite <- Hden. exact E.
    + simpl. rewrite Hden, Hnum. reflexivity.
Qed.

Lemma weighted_cell_divides_by_row_sum_witness :
  let weights := [(2%Z, [Fin (1 # 4); Fin (3 # 4)]); (3%Z, [Fin (1 # 2); NaN])] in
  (In ((2%Z, "2330"%string), weighted_cell [12; 18] [Fin (1 # 4); Fin (3 # 4)])
      (calc_weighted_factors stacked_example weights) /\
   fl_eq (weighted_cell [12; 18] [Fin (1 # 4); Fin (3 # 4)])
         (Fin (dot [12; 18] [1 # 4; 3 # 4] / Qsum [1 # 4; 3 # 4]))) /\
  weighted_cell [14; 16] [Fin (1 # 2); NaN] = NaN.
Proof.
  intros weights. split.
  - destruct (weighted_cell_divides_by_row_sum stacked_example weights
                (2%Z, "2330"%string) [12; 18] [Fin (1 # 4); Fin (3 # 4)])
      as [Hcell [_ Hquot]].
    + right. left. reflexivity.
    + reflexivity.
    + split; [exact Hcell|].
      apply (Hquot [1 # 4; 3 # 4]); [reflexivity|reflexivity|].
      intros H. vm_compute in H. discriminate H.
  - destruct (weighted_cell_divides_by_row_sum stacked_example weights
                (3%Z, "2330"%string) [14; 16] [Fin (1 # 2); NaN])
      as [_ [Hnan _]].
    + right. right. left. reflexivity.
    + reflexivity.
    + apply Hnan. right. left. reflexivity.
Defined.

(** C6, counterexample.  At a date where the second factor has no weight the
    composite cell is NaN; leaving that factor out, as the specification
    words it, would give [10]. *)
Lemma nan_weight_makes_cell_nan :
  calc_weighted_factors [((2%Z, "2330"%string), [10; 20])] [(2%Z, [Fin (1 # 2); NaN])]
    = [((2%Z, "2330"%string), NaN)] /\
  fl_red (weighted_cell_excluding_undefined [10; 20] [Fin (1 # 2); NaN]) = Fin 10 /\
  weighted_cell [10; 20] [Fin (1 # 2); NaN]
    <> weighted_cell_excluding_undefined [10; 20] [Fin (1 # 2); NaN].
Proof.
  split; [reflexivity|]. split; [reflexivity|].
  vm_compute. discriminate.
Qed.

(** ** The dispatcher *)

Section CombineFacts.

Variable pinv : list (list Q) -> option (list (list Q)).
Variable np_sqrt : Q -> fl.
Variable minimize :
  (list Q -> fl) -> list Q -> list bound -> list (list Q -> Q) -> OptimizeResult.
Variable halflife_alpha : Q -> Q.
Variable stack_factors : list (frame fl) -> string -> stacked.
Variable calc_reg_returns : stacked -> string -> frame Q.
Variable info_coef_table : list (frame fl) -> string -> frame Q.
Variables (Universe FactorOut : Type).
Variable get_factor : combined -> Universe -> FactorOut.

(** C3.  A method string outside the seven is reported only when it ends
    in ["IC"] or ["IR"].  ["equal"] falls through every branch and the
    call hands back [None]; ["HR_decay"] is run as ["HR"]; ["HR-exp"] is
    run with the regression coefficients as they are. *)
Theorem combine_factors_unknown_method
    (factors : list (frame fl)) (rebalance : string) (params : Params)
    (universe : Universe) :
  combine_factors pinv np_sqrt minimize halflife_alpha stack_factors
    calc_reg_returns info_coef_table Universe FactorOut get_factor
    factors "equal" rebalance params universe = ReturnedNone /\
  combine_factors pinv np_sqrt minimize halflife_alpha stack_factors
    calc_reg_returns info_coef_table Universe FactorOut get_factor
    factors "HR_decay" rebalance params universe
  = combine_factors pinv np_sqrt minimize halflife_alpha stack_factors
      calc_reg_returns info_coef_table Universe FactorOut get_factor
      factors "HR" rebalance params universe /\
  combine_factors pinv np_sqrt minimize halflife_alpha stack_factors
    calc_reg_returns info_coef_table Universe FactorOut get_factor
    factors "HR-exp" rebalance params universe
  = Returned (get_factor
                (Weighted (calc_weighted_factors
                             (stack_factors factors rebalance)
                             (frame_map Fin
                                (calc_reg_returns (stack_factors factors rebalance)
                                                  rebalance))))
                universe) /\
  combine_factors pinv np_sqrt minimize halflife_alpha stack_factors
    calc_reg_returns info_coef_table Universe FactorOut get_factor
    factors "MAX-IC" rebalance params universe
  = Raised (ValueError "Invalid method: MAX-IC").
Proof. repeat split. Qed.

(** The seven methods all return. *)
Lemma combine_factors_known_methods_return
    (factors : list (frame fl)) (method rebalance : string) (params : Params)
    (universe : Universe) :
  factors <> [] ->
  In method ["EW"; "HR"; "HR-decay"; "IC"; "IR"; "MAX_IC"; "MAX_IR"]%string ->
  exists v,
    combine_factors pinv np_sqrt minimize halflife_alpha stack_factors
      calc_reg_returns info_coef_table Universe FactorOut get_factor
      factors method rebalance params universe = Returned v.
Proof.
  intros Hne Hm. simpl in Hm.
  destruct Hm as [<-|[<-|[<-|[<-|[<-|[<-|[<-|[]]]]]]]];
    try (eexists; reflexivity).
  destruct factors; [contradiction Hne; reflexivity|]. eexists. reflexivity.
Qed.

(** C1.  With regression coefficients [reg_example] and a window of one
    period, ['HR'] uses at each date the coefficients of the date before
    and leaves the first date without weights and without composite, while
    ['HR-decay'] uses at each date the coefficients estimated at that same
    date and builds a composite already at the first date. *)
Theorem hr_decay_weights_not_shifted
    (factors : list (frame fl)) (rebalance : string) (universe : Universe) :
  let params := mkParams 1 false in
  let weights_hr := hr_weights halflife_alpha "HR" params reg_example in
  let weights_decay := hr_weights halflife_alpha "HR-decay" params reg_example in
  frame_map fl_red weights_hr
    = [ (1%Z, [NaN; NaN]);
        (2%Z, [Fin (1 # 100); Fin (1 # 50)]);
        (3%Z, [Fin (3 # 100); Fin (-1 # 100)]) ] /\
  frame_map fl_red weights_decay
    = [ (1%Z, [Fin (1 # 100); Fin (1 # 50)]);
        (2%Z, [Fin (3 # 100); Fin (-1 # 100)]);
        (3%Z, [Fin (1 # 50); Fin (1 # 50)]) ] /\
  weights_decay <> shift1 weights_decay /\
  map (fun r => (fst r, fl_red (snd r)))
      (calc_weighted_factors stacked_example weights_hr)
    = [ ((1%Z, "2330"%string), NaN);
        ((2%Z, "2330"%string), Fin 16);
        ((3%Z, "2330"%string), Fin 13) ] /\
  map (fun r => (fst r, fl_red (snd r)))
      (calc_weighted_factors stacked_example weights_decay)
    = [ ((1%Z, "2330"%string), Fin (50 # 3));
        ((2%Z, "2330"%string), Fin 9);
        ((3%Z, "2330"%string), Fin 15) ] /\
  combine_factors pinv np_sqrt minimize halflife_alpha
    (fun _ _ => stacked_example) (fun _ _ => reg_example)
    info_coef_table Universe FactorOut get_factor
    factors "HR-decay" rebalance params universe
  = Returned (get_factor
                (Weighted (calc_weighted_factors stacked_example weights_decay))
                universe).
Proof.
  intros params weights_hr weights_decay.
  split; [vm_compute; reflexivity|]. split; [vm_compute; reflexivity|].
  split; [vm_compute; discriminate|].
  split; [vm_compute; reflexivity|]. split; [vm_compute; reflexivity|].
  reflexivity.
Qed.

End CombineFacts.

(** At half-life 1, where pandas' smoothing factor is exactly 1/2, and a
    window of two periods, the ['HR-decay'] row of date 2 is the row ['HR']
    uses one date later. *)
Example hr_decay_window_two :
  let alpha := fun _ : Q => 1 # 2 in
  frame_map fl_red (hr_weights alpha "HR-decay" (mkParams 2 false) reg_example)
    = [ (1%Z, [NaN; NaN]);
        (2%Z, [Fin (1 # 50); Fin (1 # 200)]);
        (3%Z, [Fin (1 # 40); Fin (1 # 200)]) ] /\
  frame_map fl_red (hr_weights alpha "HR" (mkParams 2 false) reg_example)
    = [ (1%Z, [NaN; NaN]);
        (2%Z, [NaN; NaN]);
        (3%Z, [Fin (1 # 50); Fin (1 # 200)]) ].
Proof. split; vm_compute; reflexivity. Qed.

(** ** The resampler *)




Lemma in_combine_nth {A B} (l1 : list A) (l2 : list B) a b :
  In (a, b) (combine l1 l2) ->
  exists i, nth_error l1 i = Some a /\ nth_error l2 i = Some b.
Proof.
  revert l2. induction l1 as [|x l1 IH]; intros [|y l2] H; simpl in H;
    try contradiction.
  destruct H as [H|H].
  - injection H as -> ->. exists O. split; reflexivity.
  - destruct (IH l2 H) as [i [H1 H2]]. exists (S i). split; assumption.
Qed.

Lemma nth_error_shift_rows_up (N : nat) (rows : list (list (option Q))) i row :
  nth_error (shift_rows_up N rows) i = Some row ->
  nth_error rows (S i) = Some row \/ row = repeat None N.
Proof.
  destruct rows as [|r rows]; simpl; [destruct i; discriminate|].
  intros H. destruct (Nat.lt_ge_cases i (length rows)) as [Hlt|Hge].
  - rewrite nth_error_app1 in H by exact Hlt. left. exact H.
  - rewrite nth_error_app2 in H by exact Hge.
    destruct (i - length rows)%nat as [|[|n]]; simpl in H; try discriminate.
    right. injection H as <-. reflexivity.
Qed.

(** A row that survives [shift(-1).dropna(how='all')] carries, under the
    label of one row of the table, the cells of the next row. *)
Lemma in_dropna_shift_m1 (N : nat) (df : frame (option Q)) d row :
  In (d, row) (dropna_all (shift_m1 N df)) ->
  exists i, nth_error (map fst df) i = Some d /\
            nth_error (vals df) (S i) = Some row.
Proof.
  unfold dropna_all, shift_m1, with_rows. intros H.
  apply filter_In in H. destruct H as [Hin Hkeep].
  apply in_combine_nth in Hin.
  destruct Hin as [i [Hd Hrow]]. exists i. split; [exact Hd|].
  apply nth_error_shift_rows_up in Hrow. destruct Hrow as [Hrow| ->]; [exact Hrow|].
  simpl in Hkeep. exfalso.
  assert (Hall : forallb isna (repeat None N) = true).
  { apply forallb_forall. intros c Hc. apply repeat_spec in Hc. subst c. reflexivity. }
  rewrite Hall in Hkeep. discriminate.
Qed.

Section ResampleFacts.

Variable get_rebalance_date : string -> list Z.

Lemma period_returns_index (returns : frame (option Q)) (t : string) (n : nat) :
  nth_error (map fst (period_returns get_rebalance_date returns t)) n
  = option_map fst (nth_error (interval_groups get_rebalance_date returns t) n).
Proof.
  unfold period_returns. rewrite map_map. simpl. apply nth_error_map.
Qed.

Lemma period_returns_rows (returns : frame (option Q)) (t : string) (n : nat) :
  nth_error (vals (period_returns get_rebalance_date returns t)) n
  = option_map (fun g => cum_rtns (ncols returns) (snd g))
               (nth_error (interval_groups get_rebalance_date returns t) n).
Proof.
  unfold period_returns, vals. rewrite map_map. simpl. apply nth_error_map.
Qed.

End ResampleFacts.

(** The scenario of the missing day: four daily returns [0.01, 0.02, NaN,
    0.01] in one interval compound to [(1.01)(1.02)(1.00)(1.01) - 1]. *)
Example resample_returns_missing_day :
  frame_eq (resample_returns three_dates daily_with_gap "MR")
           [ (10%Z, [Some ((101 # 100) * (102 # 100) * (100 # 100) * (101 # 100) - 1)]) ].
Proof.
  vm_compute. repeat constructor.
Qed.

(** *** Re-resampling a table already on schedule dates *)

Lemma interval_key_on_schedule (sched rest : list Z) (d : Z) :
  StronglySorted Z.le sched -> In d sched ->
  nth (searchsorted (sched ++ rest) d) (sched ++ rest) d = d.
Proof.
  induction 1 as [|a l Hl IH Ha]; intros Hd; [destruct Hd|].
  simpl. destruct (a <? d)%Z eqn:E.
  - apply IH. destruct Hd as [->|Hd]; [|exact Hd].
    apply Z.ltb_lt in E. lia.
  - simpl. apply Z.ltb_ge in E. destruct Hd as [->|Hd]; [reflexivity|].
    rewrite Forall_forall in Ha. specialize (Ha d Hd). lia.
Qed.

Lemma sorted_keys_increasing (ks : list Z) :
  StronglySorted Z.lt ks -> sorted_keys ks = ks.
Proof.
  induction 1 as [|k l Hl IH Hk]; [reflexivity|].
  unfold sorted_keys in *. simpl. rewrite IH.
  destruct l as [|k' l']; [reflexivity|]. simpl.
  apply Forall_inv in Hk. apply Z.ltb_lt in Hk. rewrite Hk. reflexivity.
Qed.

Lemma rows_with_key_absent {A} (k : Z) (l : list (Z * A)) :
  Forall (fun k' => (k < k')%Z) (map fst l) -> rows_with_key k l = [].
Proof.
  unfold rows_with_key. induction l as [|r l IH]; intros H; [reflexivity|].
  simpl in *. inversion H as [|? ? Hr Hl]; subst.
  assert (E : (fst r =? k)%Z = false) by (apply Z.eqb_neq; lia).
  rewrite E. apply IH. exact Hl.
Qed.

Lemma rows_with_key_unique {A} (l : list (Z * A)) (r : Z * A) :
  StronglySorted Z.lt (map fst l) -> In r l -> rows_with_key (fst r) l = [snd r].
Proof.
  unfold rows_with_key. induction l as [|a l IH]; intros Hs Hin; [destruct Hin|].
  simpl in Hs. inversion Hs as [|? ? Hl Ha]; subst. simpl.
  destruct Hin as [->|Hin].
  - rewrite Z.eqb_refl. simpl. f_equal.
    apply (rows_with_key_absent (fst r) l Ha).
  - assert (Hlt : (fst a < fst r)%Z).
    { rewrite Forall_forall in Ha. apply Ha. apply in_map. exact Hin. }
    assert (E : (fst a =? fst r)%Z = false) by (apply Z.eqb_neq; lia).
    rewrite E. apply IH; assumption.
Qed.

Lemma groupby_increasing {A} (l : list (Z * A)) :
  StronglySorted Z.lt (map fst l) ->
  groupby l = map (fun r => (fst r, [snd r])) l.
Proof.
  intros Hs. unfold groupby. rewrite (sorted_keys_increasing _ Hs).
  rewrite map_map. apply map_ext_in. intros r Hr.
  rewrite (rows_with_key_unique l r Hs Hr). reflexivity.
Qed.

Lemma map_nth_seq {A} (l : list A) (d : A) :
  map (fun j => nth j l d) (seq 0 (length l)) = l.
Proof.
  induction l as [|a l IH]; [reflexivity|].
  simpl. f_equal. rewrite <- seq_shift, map_map. exact IH.
Qed.

Lemma one_day_eq (c : option Q) : cell_eq (one_day c) c.
Proof.
  destruct c as [v|]; unfold one_day, cum_rtns_col; simpl; [ring|exact I].
Qed.

Lemma one_day_isna (c : option Q) : isna (one_day c) = isna c.
Proof. destruct c; reflexivity. Qed.

Lemma cum_rtns_one_row (row : list (option Q)) :
  cum_rtns (length row) [row] = map one_day row.
Proof.
  unfold cum_rtns.
  rewrite <- (map_nth_seq row None) at 2. rewrite map_map. reflexivity.
Qed.

Lemma combine_map_r {A B C} (f : B -> C) (l1 : list A) (l2 : list B) :
  combine l1 (map f l2) = map (fun p => (fst p, f (snd p))) (combine l1 l2).
Proof.
  revert l2. induction l1 as [|a l1 IH]; intros [|b l2]; simpl; try reflexivity.
  f_equal. apply IH.
Qed.

Lemma index_one_day (df : frame (option Q)) :
  map fst (one_day_frame df) = map fst df.
Proof. unfold one_day_frame. rewrite map_map. reflexivity. Qed.

Lemma vals_one_day (df : frame (option Q)) :
  vals (one_day_frame df) = map (map one_day) (vals df).
Proof. unfold one_day_frame, vals. rewrite !map_map. reflexivity. Qed.

Lemma nan_one_day (N : nat) : map one_day (repeat None N) = repeat None N.
Proof. induction N as [|N IH]; simpl; [reflexivity|]. f_equal. exact IH. Qed.

Lemma shift_rows_up_one_day (N : nat) (rows : list (list (option Q))) :
  shift_rows_up N (map (map one_day) rows) = map (map one_day) (shift_rows_up N rows).
Proof.
  destruct rows as [|r rows]; [reflexivity|].
  simpl. rewrite map_app. simpl. rewrite nan_one_day. reflexivity.
Qed.

Lemma shift_m1_one_day (N : nat) (df : frame (option Q)) :
  shift_m1 N (one_day_frame df) = one_day_frame (shift_m1 N df).
Proof.
  unfold shift_m1, with_rows.
  rewrite index_one_day, vals_one_day, shift_rows_up_one_day.
  apply combine_map_r.
Qed.

Lemma dropna_all_one_day (df : frame (option Q)) :
  dropna_all (one_day_frame df) = one_day_frame (dropna_all df).
Proof.
  unfold dropna_all, one_day_frame.
  induction df as [|r df IH]; [reflexivity|]. simpl.
  assert (E : forallb isna (map one_day (snd r)) = forallb isna (snd r)).
  { induction (snd r) as [|c l IHl]; [reflexivity|].
    simpl. rewrite one_day_isna, IHl. reflexivity. }
  rewrite E. destruct (forallb isna (snd r)); simpl; rewrite IH; reflexivity.
Qed.

Lemma one_day_frame_eq (df : frame (option Q)) : frame_eq (one_day_frame df) df.
Proof.
  unfold frame_eq, one_day_frame. induction df as [|r df IH]; constructor.
  - split; [reflexivity|]. simpl.
    induction (snd r) as [|c l IHl]; constructor; [apply one_day_eq|exact IHl].
  - exact IH.
Qed.

Section ResampleAligned.

Variable get_rebalance_date : string -> list Z.

Lemma interval_groups_on_schedule (returns : frame (option Q)) (t : string) :
  StronglySorted Z.le (get_rebalance_date t) ->
  StronglySorted Z.lt (map fst returns) ->
  (forall r, In r returns -> In (fst r) (get_rebalance_date t)) ->
  interval_groups get_rebalance_date returns t
  = map (fun r => (fst r, [snd r])) returns.
Proof.
  intros Hsched Hidx Hon. unfold interval_groups.
  assert (E : map (fun r => (interval_key (resample_dates get_rebalance_date returns t)
                                          (fst r), snd r)) returns = returns).
  { rewrite <- (map_id returns) at 2. apply map_ext_in. intros [d row] Hr.
    unfold interval_key, resample_dates. simpl.
    rewrite (interval_key_on_schedule _ _ d Hsched (Hon _ Hr)). reflexivity. }
  rewrite E. apply groupby_increasing. exact Hidx.
Qed.

(** C10, as amended.  On a table whose dates are increasing schedule
    dates, [resample_returns] with that schedule returns the table shifted
    up by one row: each date gets the values of the following date, and
    the last date, left without values, is dropped with every other
    all-NaN row. *)
Theorem resample_returns_on_schedule_dates
    (returns : frame (option Q)) (t : string) :
  StronglySorted Z.le (get_rebalance_date t) ->
  StronglySorted Z.lt (map fst returns) ->
  (forall r, In r returns -> In (fst r) (get_rebalance_date t)) ->
  Forall (fun r => length (snd r) = ncols returns) returns ->
  frame_eq (resample_returns get_rebalance_date returns t)
           (dropna_all (shift_m1 (ncols returns) returns)).
Proof.
  intros Hsched Hidx Hon Hrect.
  assert (E : period_returns get_rebalance_date returns t = one_day_frame returns).
  { unfold period_returns.
    rewrite (interval_groups_on_schedule returns t Hsched Hidx Hon).
    rewrite map_map. unfold one_day_frame. apply map_ext_in. intros r Hr. simpl.
    rewrite Forall_forall in Hrect. rewrite <- (Hrect r Hr).
    rewrite cum_rtns_one_row. reflexivity. }
  unfold resample_returns. rewrite E, shift_m1_one_day, dropna_all_one_day.
  apply one_day_frame_eq.
Qed.

End ResampleAligned.

Lemma resample_returns_on_schedule_dates_witness :
  StronglySorted Z.le (three_dates "MR") /\
  StronglySorted Z.lt (map fst period_example) /\
  (forall r, In r period_example -> In (fst r) (three_dates "MR")) /\
  Forall (fun r => length (snd r) = ncols period_example) period_example /\
  frame_eq (resample_returns three_dates period_example "MR")
           (dropna_all (shift_m1 (ncols period_example) period_example)).
Proof.
  assert (H1 : StronglySorted Z.le (three_dates "MR"))
    by (unfold three_dates; repeat constructor; lia).
  assert (H2 : StronglySorted Z.lt (map fst period_example))
    by (unfold period_example; simpl; repeat constructor; lia).
  assert (H3 : forall r, In r period_example -> In (fst r) (three_dates "MR")).
  { unfold period_example, three_dates. intros r [<-|[<-|[]]]; simpl; auto. }
  assert (H4 : Forall (fun r => length (snd r) = ncols period_example) period_example)
    by (unfold period_example; repeat constructor).
  split; [exact H1|]. split; [exact H2|]. split; [exact H3|]. split; [exact H4|].
  exact (resample_returns_on_schedule_dates three_dates period_example "MR" H1 H2 H3 H4).
Defined.

(** C10, counterexample.  [period_example] is what [resample_returns] makes
    of [daily_example]; its dates are schedule dates.  Resampling it again
    on the same schedule gives one row, the value of date 20 under date 10,
    not the table itself. *)
Lemma resample_returns_not_idempotent :
  frame_eq (resample_returns three_dates daily_example "MR") period_example /\
  frame_eq (resample_returns three_dates period_example "MR")
           [ (10%Z, [Some (8 # 25)]) ] /\
  ~ frame_eq (resample_returns three_dates period_example "MR") period_example /\
  ~ frame_eq (resample_returns three_dates
                (resample_returns three_dates daily_example "MR") "MR")
             (resample_returns three_dates daily_example "MR").
Proof.
  split; [vm_compute; repeat constructor|].
  split; [vm_compute; repeat constructor|].
  split.
  - intros H. vm_compute in H.
    inversion H as [|r s l l' _ Hrest]; subst. inversion Hrest.
  - intros H. vm_compute in H.
    inversion H as [|r s l l' _ Hrest]; subst. inversion Hrest.
Qed.

(** * Further properties of the weight tables *)

Lemma index_with_rows {A B} (df : frame A) (rows : list (list B)) :
  length rows = length df -> map fst (with_rows df rows) = map fst df.
Proof.
  unfold with_rows. revert rows.
  induction df as [|r df IH]; intros [|row rows] Hlen; simpl in *;
    try reflexivity; try discriminate.
  f_equal. apply IH. lia.
Qed.

Lemma length_removelast {A} (l : list A) :
  length (removelast l) = (length l - 1)%nat.
Proof.
  induction l as [|a l IH]; [reflexivity|].
  destruct l as [|b l]; [reflexivity|].
  change (removelast (a :: b :: l)) with (a :: removelast (b :: l)).
  simpl length in *. rewrite IH. lia.
Qed.

Lemma nth_error_removelast {A} (l : list A) (i : nat) :
  (S i < length l)%nat -> nth_error (removelast l) i = nth_error l i.
Proof.
  revert i. induction l as [|a l IH]; intros i Hi; [simpl in Hi; lia|].
  destruct l as [|b l]; [simpl in Hi; lia|].
  change (removelast (a :: b :: l)) with (a :: removelast (b :: l)).
  destruct i as [|i]; [reflexivity|].
  simpl nth_error. apply IH. simpl in *. lia.
Qed.

Lemma shift1_rows (df : frame fl) :
  df <> [] -> vals (shift1 df) = nan_row (ncols df) :: removelast (vals df).
Proof.
  intros Hne. unfold shift1. destruct df as [|r df]; [contradiction Hne; reflexivity|].
  apply vals_with_rows. cbn [length]. rewrite length_removelast, length_vals.
  cbn [length]. lia.
Qed.

Lemma shift1_index (df : frame fl) : map fst (shift1 df) = map fst df.
Proof.
  unfold shift1. destruct df as [|r df]; [reflexivity|].
  apply index_with_rows. cbn [length]. rewrite length_removelast, length_vals.
  cbn [length]. lia.
Qed.

(** After [shift(1)] the first row is all-NaN and every later row is the
    row that stood one position before. *)
Lemma nth_error_shift1 (df : frame fl) (i : nat) :
  (i < length df)%nat ->
  nth_error (vals (shift1 df)) i =
  match i with
  | O => Some (nan_row (ncols df))
  | S i' => nth_error (vals df) i'
  end.
Proof.
  intros Hi. rewrite shift1_rows by (destruct df; [simpl in Hi; lia|discriminate]).
  destruct i as [|i']; [reflexivity|].
  simpl nth_error. apply nth_error_removelast. rewrite length_vals. exact Hi.
Qed.

Lemma rolling_apply_rows (f : list Q -> fl) (window : nat) (df : frame Q) :
  vals (rolling_apply f window df) =
  map (fun i =>
         if (S i <? window)%nat then nan_row (ncols df)
         else map (fun j => f (column j (iloc_window (vals df) (S i) window)))
                  (seq 0 (ncols df)))
      (seq 0 (length df)).
Proof.
  unfold rolling_apply. rewrite vals_with_rows.
  - rewrite length_vals. reflexivity.
  - rewrite length_map, length_seq. apply length_vals.
Qed.

Lemma rolling_apply_index (f : list Q -> fl) (window : nat) (df : frame Q) :
  map fst (rolling_apply f window df) = map fst df.
Proof.
  unfold rolling_apply. apply index_with_rows.
  rewrite length_map, length_seq. apply length_vals.
Qed.

Lemma length_frame {A} (df : frame A) : length (map fst df) = length df.
Proof. apply length_map. Qed.

Lemma rolling_apply_length (f : list Q -> fl) (window : nat) (df : frame Q) :
  length (rolling_apply f window df) = length df.
Proof. rewrite <- (length_frame (rolling_apply _ _ _)), rolling_apply_index. apply length_map. Qed.

Lemma length_nan_row (N : nat) : length (nan_row N) = N.
Proof. apply repeat_length. Qed.

Lemma rolling_apply_ncols (f : list Q -> fl) (window : nat) (df : frame Q) :
  ncols (rolling_apply f window df) = ncols df.
Proof.
  destruct df as [|r df]; [reflexivity|].
  unfold rolling_apply, with_rows. simpl.
  destruct window as [|[|w]]; simpl; rewrite ?length_map, ?length_seq, ?length_nan_row;
    reflexivity.
Qed.

Lemma frame_zip_index (op : fl -> fl -> fl) (a b : frame fl) :
  length a = length b -> map fst (frame_zip op a b) = map fst a.
Proof.
  unfold frame_zip. revert b. induction a as [|r a IH]; intros [|s b] H; simpl in *;
    try reflexivity; try discriminate.
  f_equal. apply IH. lia.
Qed.

Lemma max_ic_index pinv (ic_df : frame Q) window neg_weight :
  map fst (calc_max_ic_weights pinv ic_df window neg_weight) = map fst ic_df.
Proof.
  unfold calc_max_ic_weights. apply index_with_rows.
  rewrite length_map, length_seq. apply length_vals.
Qed.

Lemma max_ir_index np_sqrt minimize (ic_df : frame Q) window neg_weight :
  map fst (calc_max_ir_weights np_sqrt minimize ic_df window neg_weight) = map fst ic_df.
Proof.
  unfold calc_max_ir_weights. apply index_with_rows.
  rewrite length_map, length_seq. apply length_vals.
Qed.

(** The rows taken by [iloc[i - window:i]] are those at the positions
    [i - window], ..., [i - 1]. *)
Lemma firstn_skipn_positions {A} (l : list A) (d : A) (s n : nat) :
  (s + n <= length l)%nat ->
  firstn n (skipn s l) = map (fun k => nth k l d) (seq s n).
Proof.
  revert s n. induction l as [|a l IH]; intros s n H.
  - simpl in H. assert (n = O) by lia. subst n.
    destruct s; reflexivity.
  - destruct s as [|s].
    + destruct n as [|n]; [reflexivity|].
      simpl. f_equal. specialize (IH O n). simpl in IH.
      rewrite IH by (simpl in H; lia).
      rewrite <- seq_shift, map_map. reflexivity.
    + simpl skipn. rewrite (IH s n) by (simpl in H; lia).
      rewrite <- seq_shift, map_map. reflexivity.
Qed.

Lemma column_iloc_window (rows : list (list Q)) (j i window : nat) :
  (window <= i)%nat -> (i <= length rows)%nat ->
  column j (iloc_window rows i window)
  = map (fun k => nth j (nth k rows []) 0) (seq (i - window) window).
Proof.
  intros Hw Hi. unfold column, iloc_window.
  rewrite (firstn_skipn_positions rows [] (i - window) window) by lia.
  rewrite map_map. reflexivity.
Qed.

Section WeightTableFacts.

Variable pinv : list (list Q) -> option (list (list Q)).
Variable np_sqrt : Q -> fl.
Variable minimize :
  (list Q -> fl) -> list Q -> list bound -> list (list Q -> Q) -> OptimizeResult.
Variable halflife_alpha : Q -> Q.

(** X1.  Whatever the method, the weight table carries the dates of the
    table it is estimated from, one row per date, in the same order: the
    regression coefficients for the ['HR...'] branch, the information
    coefficients for the ['...IC'] / ['...IR'] branch. *)
Theorem weight_tables_keep_their_dates
    (method : string) (params : Params) (src : frame Q) (w : frame fl) :
  hr_weights halflife_alpha method params src = w \/
  ic_weights pinv np_sqrt minimize method params src = Some w ->
  map fst w = map fst src /\ length w = length src.
Proof.
  intros H.
  assert (Hidx : map fst w = map fst src).
  { destruct H as [<-|H].
    - unfold hr_weights.
      destruct (length (split_dash method) =? 1)%nat.
      + rewrite shift1_index. apply rolling_apply_index.
      + destruct ((length (split_dash method) =? 2)%nat &&
                  String.eqb (nth 1 (split_dash method) EmptyString) "decay").
        * apply rolling_apply_index.
        * unfold frame_map. rewrite map_map. reflexivity.
    - unfold ic_weights in H.
      destruct (String.eqb method "IC");
        [injection H as <-; rewrite shift1_index; apply rolling_apply_index|].
      destruct (String.eqb method "IR").
      { injection H as <-. rewrite shift1_index, frame_zip_index.
        - apply rolling_apply_index.
        - unfold rolling_mean, rolling_std. rewrite !rolling_apply_length. reflexivity. }
      destruct (String.eqb method "MAX_IC");
        [injection H as <-; rewrite shift1_index; apply max_ic_index|].
      destruct (String.eqb method "MAX_IR");
        [injection H as <-; rewrite shift1_index; apply max_ir_index|].
      discriminate. }
  split; [exact Hidx|].
  rewrite <- (length_frame w), Hidx. apply length_map.
Qed.

(** X2.  The trailing-mean weights of ['IC'] and ['HR'] look strictly
    backwards: the row at position [i] is all-NaN while [i < window] and at
    the first date, and from then on its entry for column [j] is the mean of
    the cells of column [j] at the [window] positions [i - window], ...,
    [i - 1]; the row of the date itself is not used. *)
Theorem trailing_mean_weights_rows
    (params : Params) (src : frame Q) (w : frame fl) (i : nat) :
  ic_weights pinv np_sqrt minimize "IC" params src = Some w \/
  hr_weights halflife_alpha "HR" params src = w ->
  (i < length src)%nat ->
  ((i < param_window params)%nat \/ i = O ->
     nth_error (vals w) i = Some (nan_row (ncols src))) /\
  ((1 <= i)%nat -> (param_window params <= i)%nat ->
     nth_error (vals w) i =
     Some (map (fun j =>
                  of_mean (mean (map (fun k => nth j (nth k (vals src) []) 0)
                                     (seq (i - param_window params)
                                          (param_window params)))))
               (seq 0 (ncols src)))).
Proof.
  intros H Hi.
  assert (Hw : w = shift1 (rolling_mean (param_window params) src)).
  { destruct H as [H|H]; [|symmetry; exact H].
    unfold ic_weights in H. simpl in H. injection H as <-. reflexivity. }
  subst w. unfold rolling_mean.
  rewrite nth_error_shift1 by (rewrite rolling_apply_length; exact Hi).
  rewrite rolling_apply_ncols, rolling_apply_rows.
  split.
  - intros [Hlt| ->]; [|reflexivity].
    destruct i as [|i']; [reflexivity|].
    rewrite nth_error_map_seq by lia.
    apply Nat.ltb_lt in Hlt. rewrite Hlt. reflexivity.
  - intros H1 Hge. destruct i as [|i']; [lia|].
    rewrite nth_error_map_seq by lia.
    assert (E : (S i' <? param_window params)%nat = false) by (apply Nat.ltb_ge; exact Hge).
    rewrite E. f_equal. apply map_ext. intros j.
    rewrite column_iloc_window by (rewrite ?length_vals; lia).
    reflexivity.
Qed.

(** X3.  [calc_max_ir_weights] does not hand its [neg_weight] to
    [optimize_window]: the table is the same for [True] and [False], and
    when a successful solver result lies within its bounds every entry is
    NaN or a non-negative number even with [neg_weight = True]. *)
Theorem max_ir_ignores_neg_weight
    (ic_df : frame Q) (window : nat) (neg_weight : bool)
    (d : Z) (row : list fl) (c : fl) :
  respects_bounds minimize ->
  In (d, row) (calc_max_ir_weights np_sqrt minimize ic_df window neg_weight) ->
  In c row ->
  calc_max_ir_weights np_sqrt minimize ic_df window neg_weight
    = calc_max_ir_weights np_sqrt minimize ic_df window (negb neg_weight) /\
  (c = NaN \/ exists q, c = Fin q /\ 0 <= q).
Proof.
  intros Hsolver Hin Hc. split; [reflexivity|].
  apply in_with_rows in Hin. apply in_map_iff in Hin.
  destruct Hin as [i [<- _]]. destruct (i <? window)%nat.
  - left. apply repeat_spec in Hc. exact Hc.
  - unfold optimize_window in Hc.
    match type of Hc with
    | context [success ?r] => destruct (success r) eqn:Hs
    end.
    + right. apply Hsolver in Hs. eapply ir_bounds_nonneg; eassumption.
    + left. apply repeat_spec in Hc. exact Hc.
Qed.

End WeightTableFacts.

Lemma weight_tables_keep_their_dates_witness :
  exists w,
    ic_weights pinv_exact sqrt_approx start_point_solver "MAX_IR" (mkParams 2 false)
               collinear_ic = Some w /\
    map fst w = map fst collinear_ic /\ length w = length collinear_ic.
Proof.
  eexists. split; [reflexivity|].
  apply (weight_tables_keep_their_dates pinv_exact sqrt_approx start_point_solver
           (fun _ => 1 # 2) "MAX_IR" (mkParams 2 false) collinear_ic).
  right. reflexivity.
Defined.

Lemma trailing_mean_weights_rows_witness :
  let w := hr_weights (fun _ => 1 # 2) "HR" (mkParams 2 false) reg_example in
  nth_error (vals w) 1 = Some (nan_row 2) /\
  nth_error (vals w) 2 =
    Some (map (fun j =>
                 of_mean (mean (map (fun k => nth j (nth k (vals reg_example) []) 0)
                                    (seq 0 2))))
              (seq 0 2)) /\
  option_map (map fl_red) (nth_error (vals w) 2)
    = Some [Fin (1 # 50); Fin (1 # 200)].
Proof.
  intros w.
  assert (H2 : (2 < length reg_example)%nat) by (unfold reg_example; simpl; lia).
  assert (H1 : (1 < length reg_example)%nat) by (unfold reg_example; simpl; lia).
  split; [|split].
  - apply (proj1 (trailing_mean_weights_rows pinv_exact sqrt_approx start_point_solver
                    (fun _ => 1 # 2) (mkParams 2 false) reg_example w 1
                    (or_intror eq_refl) H1)).
    left. simpl. lia.
  - apply (proj2 (trailing_mean_weights_rows pinv_exact sqrt_approx start_point_solver
                    (fun _ => 1 # 2) (mkParams 2 false) reg_example w 2
                    (or_intror eq_refl) H2)).
    + lia.
    + simpl. lia.
  - vm_compute. reflexivity.
Defined.

Lemma max_ir_ignores_neg_weight_witness :
  let w := calc_max_ir_weights sqrt_approx start_point_solver collinear_ic 2 true in
  let row := nth 3 (vals w) [] in
  let c := nth 0 row NaN in
  In (4%Z, row) w /\ In c row /\
  w = calc_max_ir_weights sqrt_approx start_point_solver collinear_ic 2 false /\
  (c = NaN \/ exists q, c = Fin q /\ 0 <= q).
Proof.
  intros w row c.
  assert (Hin : In (4%Z, row) w) by (vm_compute; do 3 right; left; reflexivity).
  assert (Hc : In c row) by (vm_compute; left; reflexivity).
  split; [exact Hin|]. split; [exact Hc|].
  exact (max_ir_ignores_neg_weight sqrt_approx start_point_solver collinear_ic 2 true
           4%Z row c start_point_solver_respects_bounds Hin Hc).
Defined.

(** ** Fallbacks of the analytical estimator *)

Lemma map_const_repeat {A B} (c : B) (l : list A) :
  map (fun _ => c) l = repeat c (length l).
Proof. induction l as [|a l IH]; simpl; [reflexivity|]. f_equal. exact IH. Qed.

Lemma map_repeat_Fin (c : Q) (n : nat) : map Fin (repeat c n) = repeat (Fin c) n.
Proof. induction n as [|n IH]; simpl; [reflexivity|]. f_equal. exact IH. Qed.

Lemma Qsum_clip_nonpositive (raw : list Q) :
  Forall (fun q => q <= 0) raw -> Qsum (map Qclip0 raw) == 0.
Proof.
  induction 1 as [|q l Hq _ IH]; simpl; [reflexivity|].
  rewrite IH. unfold Qclip0. rewrite (Q.max_r q 0 Hq). ring.
Qed.

Lemma max_ic_norm_w_equal_split (neg_weight : bool) (raw : list Q) :
  Qsum (if negb neg_weight then map Qclip0 raw else raw) <= 0 ->
  max_ic_norm_w neg_weight raw = repeat (1 / Qlen raw) (length raw).
Proof.
  intros Hs. unfold max_ic_norm_w.
  destruct (Qlt_le_dec 0 (Qsum (if negb neg_weight then map Qclip0 raw else raw)))
    as [Hpos|_]; [exfalso; lra|].
  rewrite map_const_repeat.
  destruct (negb neg_weight); [|reflexivity].
  unfold Qlen. rewrite length_map. reflexivity.
Qed.

Lemma cov_pair_short (xs ys : list Q) :
  (length xs <= 1)%nat -> cov_pair xs ys = None.
Proof.
  intros H. destruct xs as [|a [|b xs]]; [reflexivity| |simpl in H; lia].
  unfold cov_pair. destruct (mean ys); reflexivity.
Qed.

Lemma cov_matrix_short (N : nat) (window_df : list (list Q)) :
  (0 < N)%nat -> (length window_df <= 1)%nat -> cov_matrix N window_df = None.
Proof.
  intros HN Hlen. destruct N as [|N]; [lia|].
  unfold cov_matrix. cbn [seq map].
  rewrite cov_pair_short by (unfold column; rewrite length_map; exact Hlen).
  reflexivity.
Qed.

Lemma ones_row_uniform (neg_weight : bool) (N : nat) :
  length (map Fin (max_ic_norm_w neg_weight (repeat 1 N))) = N /\
  Forall (fun c => fl_eq c (Fin (1 / inject_Z (Z.of_nat N))))
         (map Fin (max_ic_norm_w neg_weight (repeat 1 N))).
Proof.
  unfold max_ic_norm_w.
  assert (Hclip : (if negb neg_weight then map Qclip0 (repeat 1 N) else repeat 1 N)
                  = repeat 1 N).
  { destruct (negb neg_weight); [apply clip_ones|reflexivity]. }
  rewrite Hclip.
  destruct (Qlt_le_dec 0 (Qsum (repeat 1 N))) as [Hpos|Hnpos].
  - split; [rewrite !length_map; apply repeat_length|].
    apply Forall_forall. intros c Hc. apply in_map_iff in Hc.
    destruct Hc as [q [<- Hq]]. apply in_map_iff in Hq.
    destruct Hq as [w [<- Hw]]. apply repeat_spec in Hw. subst w.
    simpl. rewrite Qsum_repeat1. reflexivity.
  - split; [rewrite !length_map; apply repeat_length|].
    apply Forall_forall. intros c Hc. apply in_map_iff in Hc.
    destruct Hc as [q [<- Hq]]. apply in_map_iff in Hq.
    destruct Hq as [w [<- Hw]].
    simpl. unfold Qlen. rewrite repeat_length. reflexivity.
Qed.

Section MaxIcFallbacks.

Variable pinv : list (list Q) -> option (list (list Q)).

(** X4.  When clipping leaves nothing positive, the analytical estimator
    splits equally: with [neg_weight = False] and no positive raw weight,
    and with [neg_weight = True] and raw weights whose sum is not positive,
    every entry of the row is [1 / len(raw_w)]. *)
Theorem max_ic_equal_split_fallback
    (N : nat) (neg_weight : bool) (window_df : list (list Q)) :
  let raw_w := max_ic_raw_w pinv N window_df in
  (neg_weight = false /\ Forall (fun q => q <= 0) raw_w) \/
  (neg_weight = true /\ Qsum raw_w <= 0) ->
  max_ic_row pinv N neg_weight window_df
    = repeat (Fin (1 / Qlen raw_w)) (length raw_w).
Proof.
  intros raw_w H. unfold max_ic_row. fold raw_w.
  rewrite max_ic_norm_w_equal_split.
  - apply map_repeat_Fin.
  - destruct H as [[-> Hall]|[-> Hsum]]; simpl.
    + rewrite (Qsum_clip_nonpositive _ Hall). lra.
    + exact Hsum.
Qed.

(** X5.  With [window] 0 or 1 the covariance of the window is undefined,
    and every row from [window] on is the equal split [1/N], whatever the
    information coefficients are. *)
Theorem max_ic_short_window_is_uniform
    (ic_df : frame Q) (window : nat) (neg_weight : bool) (i : nat) :
  (window < 2)%nat -> (window <= i)%nat -> (i < length ic_df)%nat ->
  (0 < ncols ic_df)%nat ->
  exists row,
    nth_error (vals (calc_max_ic_weights pinv ic_df window neg_weight)) i = Some row /\
    length row = ncols ic_df /\
    Forall (fun c => fl_eq c (Fin (1 / inject_Z (Z.of_nat (ncols ic_df))))) row.
Proof.
  intros Hw Hge Hi HN.
  rewrite max_ic_rows, nth_error_map_seq by exact Hi.
  assert (E : (i <? window)%nat = false) by (apply Nat.ltb_ge; exact Hge).
  rewrite E. eexists. split; [reflexivity|].
  unfold max_ic_row, max_ic_raw_w.
  rewrite cov_matrix_short.
  - destruct (col_means (ncols ic_df) (iloc_window (vals ic_df) i window));
      apply ones_row_uniform.
  - exact HN.
  - unfold iloc_window. rewrite length_firstn. lia.
Qed.

End MaxIcFallbacks.

Lemma max_ic_equal_split_fallback_witness :
  Forall (fun q => q <= 0) (max_ic_raw_w pinv_exact 2 negative_ic_window) /\
  max_ic_row pinv_exact 2 false negative_ic_window
    = repeat (Fin (1 / Qlen (max_ic_raw_w pinv_exact 2 negative_ic_window)))
             (length (max_ic_raw_w pinv_exact 2 negative_ic_window)) /\
  Qsum (max_ic_raw_w pinv_exact 2 falling_ic_window) <= 0 /\
  max_ic_row pinv_exact 2 true falling_ic_window
    = repeat (Fin (1 / Qlen (max_ic_raw_w pinv_exact 2 falling_ic_window)))
             (length (max_ic_raw_w pinv_exact 2 falling_ic_window)).
Proof.
  assert (H1 : Forall (fun q => q <= 0) (max_ic_raw_w pinv_exact 2 negative_ic_window))
    by (vm_compute; repeat constructor; discriminate).
  assert (H2 : Qsum (max_ic_raw_w pinv_exact 2 falling_ic_window) <= 0)
    by (vm_compute; discriminate).
  split; [exact H1|]. split.
  - exact (max_ic_equal_split_fallback pinv_exact 2 false negative_ic_window
             (or_introl (conj eq_refl H1))).
  - split; [exact H2|].
    exact (max_ic_equal_split_fallback pinv_exact 2 true falling_ic_window
             (or_intror (conj eq_refl H2))).
Defined.

Lemma max_ic_short_window_is_uniform_witness :
  exists row,
    nth_error (vals (calc_max_ic_weights pinv_exact collinear_ic 1 false)) 2 = Some row /\
    length row = ncols collinear_ic /\
    Forall (fun c => fl_eq c (Fin (1 / inject_Z (Z.of_nat (ncols collinear_ic))))) row.
Proof.
  apply (max_ic_short_window_is_uniform pinv_exact collinear_ic 1 false 2).
  - lia.
  - lia.
  - unfold collinear_ic. simpl. lia.
  - unfold collinear_ic. simpl. lia.
Defined.

(** * Further properties of the combiner *)

Ltac outcome_cases :=
  repeat split; intros;
  repeat match goal with
         | H : exists _, _ |- _ => destruct H
         end;
  unfold endswith, startswith in *; simpl in *;
  intuition (first [congruence | (eexists; reflexivity) | idtac]).

Section CombineOutcome.

Variable pinv : list (list Q) -> option (list (list Q)).
Variable np_sqrt : Q -> fl.
Variable minimize :
  (list Q -> fl) -> list Q -> list bound -> list (list Q -> Q) -> OptimizeResult.
Variable halflife_alpha : Q -> Q.
Variable stack_factors : list (frame fl) -> string -> stacked.
Variable calc_reg_returns : stacked -> string -> frame Q.
Variable info_coef_table : list (frame fl) -> string -> frame Q.
Variables (Universe FactorOut : Type).
Variable get_factor : combined -> Universe -> FactorOut.

(** X6.  How a call of [combine_factors] ends, for a list of factors that
    is not empty or for method ['EW'], is decided by the method string: it
    falls off the end and hands back [None] exactly when the string is not
    ['EW'], does not start with ['HR'] and ends neither in ['IC'] nor in
    ['IR']; it raises [ValueError("Invalid method: ...")] exactly when such
    a string does end in ['IC'] or ['IR'] without being one of the four
    names; it raises [ZeroDivisionError] exactly for ['EW'] with no factor;
    in every other case it returns a factor, so every string that starts
    with ['HR'] is accepted.  (With an empty list the ['HR'] and ['IC'] /
    ['IR'] branches stop earlier, in [pd.concat]; those calls are outside
    this statement.) *)
Theorem combine_factors_outcome
    (factors : list (frame fl)) (method rebalance : string) (params : Params)
    (universe : Universe) :
  factors <> [] \/ method = "EW"%string ->
  let out := combine_factors pinv np_sqrt minimize halflife_alpha stack_factors
               calc_reg_returns info_coef_table Universe FactorOut get_factor
               factors method rebalance params universe in
  let known := In method ["IC"; "IR"; "MAX_IC"; "MAX_IR"]%string in
  (out = ReturnedNone <->
     method <> "EW"%string /\ startswith method "HR" = false /\
     endswith method "IC" = false /\ endswith method "IR" = false) /\
  (out = Raised (ValueError ("Invalid method: " ++ method)) <->
     method <> "EW"%string /\ startswith method "HR" = false /\
     (endswith method "IC" = true \/ endswith method "IR" = true) /\ ~ known) /\
  (out = Raised ZeroDivisionError <-> method = "EW"%string /\ factors = []) /\
  ((exists v, out = Returned v) <->
     (method = "EW"%string /\ factors <> []) \/
     (method <> "EW"%string /\ startswith method "HR" = true) \/ known).
Proof.
  intros _ out known. subst out known. unfold combine_factors, ic_weights.
  destruct (String.eqb_spec method "EW") as [->|HEW];
    [destruct factors as [|f fs]; outcome_cases|].
  destruct (startswith method "HR") eqn:EHR; [outcome_cases|].
  destruct (String.eqb_spec method "IC") as [->|HIC]; [outcome_cases|].
  destruct (String.eqb_spec method "IR") as [->|HIR]; [outcome_cases|].
  destruct (String.eqb_spec method "MAX_IC") as [->|HMIC]; [outcome_cases|].
  destruct (String.eqb_spec method "MAX_IR") as [->|HMIR]; [outcome_cases|].
  destruct (endswith method "IC") eqn:EIC; [outcome_cases|].
  destruct (endswith method "IR") eqn:EIR; outcome_cases.
Qed.

End CombineOutcome.

Lemma combine_factors_outcome_witness :
  let run := combine_factors pinv_exact sqrt_approx start_point_solver
               (fun _ => 1 # 2) (fun _ _ => stacked_example) (fun _ _ => reg_example)
               (fun _ _ => collinear_ic) unit combined (fun c _ => c) in
  run [] "EW"%string "MR"%string (mkParams 2 false) tt = Raised ZeroDivisionError /\
  run [factor_a; factor_b] "momentum"%string "MR"%string (mkParams 2 false) tt
    = ReturnedNone /\
  run [factor_a; factor_b] "RANK_IC"%string "MR"%string (mkParams 2 false) tt
    = Raised (ValueError "Invalid method: RANK_IC") /\
  exists v,
    run [factor_a; factor_b] "HR-exp"%string "MR"%string (mkParams 2 false) tt
      = Returned v.
Proof.
  intros run.
  assert (Hne : [factor_a; factor_b] <> [] \/ "momentum"%string = "EW"%string)
    by (left; discriminate).
  assert (Hne2 : [factor_a; factor_b] <> [] \/ "RANK_IC"%string = "EW"%string)
    by (left; discriminate).
  assert (Hne3 : [factor_a; factor_b] <> [] \/ "HR-exp"%string = "EW"%string)
    by (left; discriminate).
  split; [|split; [|split]].
  - apply (proj1 (proj2 (proj2
      (combine_factors_outcome pinv_exact sqrt_approx start_point_solver
         (fun _ => 1 # 2) (fun _ _ => stacked_example) (fun _ _ => reg_example)
         (fun _ _ => collinear_ic) unit combined (fun c _ => c)
         [] "EW"%string "MR"%string (mkParams 2 false) tt (or_intror eq_refl))))).
    split; reflexivity.
  - apply (proj1
      (combine_factors_outcome pinv_exact sqrt_approx start_point_solver
         (fun _ => 1 # 2) (fun _ _ => stacked_example) (fun _ _ => reg_example)
         (fun _ _ => collinear_ic) unit combined (fun c _ => c)
         [factor_a; factor_b] "momentum"%string "MR"%string (mkParams 2 false) tt Hne)).
    repeat split; try reflexivity. discriminate.
  - apply (proj1 (proj2
      (combine_factors_outcome pinv_exact sqrt_approx start_point_solver
         (fun _ => 1 # 2) (fun _ _ => stacked_example) (fun _ _ => reg_example)
         (fun _ _ => collinear_ic) unit combined (fun c _ => c)
         [factor_a; factor_b] "RANK_IC"%string "MR"%string (mkParams 2 false) tt Hne2))).
    split; [discriminate|]. split; [reflexivity|]. split; [left; reflexivity|].
    simpl. intros [H|[H|[H|[H|[]]]]]; discriminate.
  - apply (proj2 (proj2 (proj2
      (combine_factors_outcome pinv_exact sqrt_approx start_point_solver
         (fun _ => 1 # 2) (fun _ _ => stacked_example) (fun _ _ => reg_example)
         (fun _ _ => collinear_ic) unit combined (fun c _ => c)
         [factor_a; factor_b] "HR-exp"%string "MR"%string (mkParams 2 false) tt Hne3)))).
    right. left. split; [discriminate|reflexivity].
Defined.

(** ** The equal-weight average *)

Lemma nth_error_combine {A B} (a : list A) (b : list B) (i : nat) :
  nth_error (combine a b) i =
  match nth_error a i, nth_error b i with
  | Some u, Some v => Some (u, v)
  | _, _ => None
  end.
Proof.
  revert b i. induction a as [|u a IH]; intros [|v b] [|i]; simpl; try reflexivity.
  - destruct (nth_error a i); reflexivity.
  - apply IH.
Qed.

Lemma cell_at_frame_map {A B} (f : A -> B) (df : frame A) (i j : nat) :
  cell_at i j (frame_map f df) = option_map f (cell_at i j df).
Proof.
  unfold cell_at, frame_map. rewrite nth_error_map.
  destruct (nth_error df i) as [r|]; simpl; [|reflexivity].
  apply nth_error_map.
Qed.

Lemma cell_at_frame_zip (op : fl -> fl -> fl) (a b : frame fl) (i j : nat) :
  cell_at i j (frame_zip op a b) =
  match cell_at i j a, cell_at i j b with
  | Some u, Some v => Some (op u v)
  | _, _ => None
  end.
Proof.
  unfold cell_at, frame_zip. rewrite nth_error_map, nth_error_combine.
  destruct (nth_error a i) as [r|]; simpl; [|reflexivity].
  destruct (nth_error b i) as [s|]; simpl.
  - rewrite nth_error_map, nth_error_combine.
    destruct (nth_error (snd r) j), (nth_error (snd s) j); reflexivity.
  - destruct (nth_error (snd r) j); reflexivity.
Qed.

Lemma cell_at_fold_zip (rest : list (frame fl)) (cs : list fl) (acc : frame fl)
      (i j : nat) (a : fl) :
  Forall2 (fun f c => cell_at i j f = Some c) rest cs ->
  cell_at i j acc = Some a ->
  cell_at i j (fold_left (frame_zip fl_add) rest acc) = Some (fold_left fl_add cs a).
Proof.
  intros H. revert acc a. induction H as [|f c rest cs Hf _ IH]; intros acc a Ha.
  - exact Ha.
  - simpl. apply IH. rewrite cell_at_frame_zip, Ha, Hf. reflexivity.
Qed.

(** X7.  For factor tables that share their dates and columns, the table
    that ['EW'] hands to [get_factor] holds in every cell Python's
    [0 + c1 + ... + cn] divided by the number of factors: the arithmetic
    mean when the cells are numbers, and NaN as soon as one factor is NaN
    there (the average does not skip missing scores). *)
Theorem equal_weight_cell
    (factors : list (frame fl)) (idx : list Z) (cs : list fl) (i j : nat) :
  factors <> [] ->
  Forall (fun f => map fst f = idx) factors ->
  Forall2 (fun f c => cell_at i j f = Some c) factors cs ->
  cell_at i j (equal_weight factors)
    = Some (fl_div (fl_sum cs) (Fin (Qlen factors))) /\
  (In NaN cs -> cell_at i j (equal_weight factors) = Some NaN) /\
  (forall qs, cs = map Fin qs ->
     exists c, cell_at i j (equal_weight factors) = Some c /\
               fl_eq c (Fin (Qsum qs / Qlen qs))).
Proof.
  intros Hne _ HF.
  assert (Hcell : cell_at i j (equal_weight factors)
                  = Some (fl_div (fl_sum cs) (Fin (Qlen factors)))).
  { destruct HF as [|f0 c0 rest cs' Hf0 Hrest]; [contradiction Hne; reflexivity|].
    unfold equal_weight. rewrite cell_at_frame_map.
    rewrite (cell_at_fold_zip rest cs' _ i j (fl_add (Fin 0) c0) Hrest).
    - reflexivity.
    - rewrite cell_at_frame_map, Hf0. reflexivity. }
  split; [exact Hcell|]. split.
  - intros Hnan. rewrite Hcell. unfold fl_sum.
    rewrite (fold_left_fl_add_in_NaN cs (Fin 0) Hnan). reflexivity.
  - intros qs ->. rewrite Hcell. eexists. split; [reflexivity|].
    assert (Hlen : Qlen factors = Qlen qs).
    { unfold Qlen. apply Forall2_length in HF. rewrite length_map in HF.
      rewrite HF. reflexivity. }
    rewrite Hlen. unfold fl_sum. rewrite fold_left_fl_add_Fin.
    assert (Hpos : 0 < Qlen qs).
    { apply Qlen_pos. intros ->. apply Forall2_length in HF. simpl in HF.
      destruct factors; [contradiction Hne; reflexivity|discriminate]. }
    unfold fl_div. destruct (Qeq_bool (Qlen qs) 0) eqn:E.
    + apply Qeq_bool_iff in E. lra.
    + simpl. rewrite fold_left_Qplus. field. lra.
Qed.

Lemma equal_weight_cell_witness :
  (cell_at 0 1 (equal_weight [factor_a; factor_b])
     = Some (fl_div (fl_sum [Fin 2; Fin 6]) (Fin (Qlen [factor_a; factor_b]))) /\
   exists c, cell_at 0 1 (equal_weight [factor_a; factor_b]) = Some c /\
             fl_eq c (Fin (Qsum [2; 6] / Qlen [2; 6]))) /\
  cell_at 1 1 (equal_weight [factor_a; factor_b]) = Some NaN.
Proof.
  assert (Hne : [factor_a; factor_b] <> []) by discriminate.
  assert (Hidx : Forall (fun f : frame fl => map fst f = [1%Z; 2%Z])
                        [factor_a; factor_b]) by (repeat constructor).
  split.
  - destruct (equal_weight_cell [factor_a; factor_b] [1%Z; 2%Z] [Fin 2; Fin 6]
                0 1 Hne Hidx) as [H1 [_ H3]].
    + repeat constructor.
    + split; [exact H1|]. apply (H3 [2; 6]). reflexivity.
  - destruct (equal_weight_cell [factor_a; factor_b] [1%Z; 2%Z] [NaN; Fin 8]
                1 1 Hne Hidx) as [_ [H2 _]].
    + repeat constructor.
    + apply H2. left. reflexivity.
Defined.

(** ** The weighted average, continued *)

(** X8.  [calc_weighted_factors] is an inner join on the date: its rows
    are, in the order of the stacked factors, those (date, asset) keys whose
    date has a row in the weight table; the others are dropped. *)
Theorem calc_weighted_factors_keys (factors_df : stacked) (weights : frame fl) :
  map fst (calc_weighted_factors factors_df weights)
    = filter (has_weight_row weights) (map fst factors_df).
Proof.
  induction factors_df as [|[key fs] rest IH]; [reflexivity|].
  simpl. unfold has_weight_row at 1.
  destruct (lookup_row (fst key) weights); simpl; rewrite IH; reflexivity.
Qed.

Lemma weighted_cell_value (fs qs : list Q) :
  ~ Qsum qs == 0 ->
  exists v, weighted_cell fs (map Fin qs) = Fin v /\ v == dot fs qs / Qsum qs.
Proof.
  intros Hsum. unfold weighted_cell.
  rewrite products_Fin. unfold fl_sum. rewrite !fold_left_fl_add_Fin.
  assert (Hden : fold_left Qplus qs 0 == Qsum qs)
    by (rewrite fold_left_Qplus; ring).
  assert (Hnum : fold_left Qplus (map (fun p => fst p * snd p) (combine fs qs)) 0
                 == dot fs qs)
    by (rewrite fold_left_Qplus; unfold dot; ring).
  unfold fl_div.
  destruct (Qeq_bool (fold_left Qplus qs 0) 0) eqn:E.
  - apply Qeq_bool_iff in E. exfalso. apply Hsum. rewrite <- Hden. exact E.
  - eexists. split; [reflexivity|]. rewrite Hden, Hnum. reflexivity.
Qed.

Lemma dot_scale_r (c : Q) (fs qs : list Q) :
  dot fs (map (Qmult c) qs) == c * dot fs qs.
Proof.
  unfold dot. revert qs. induction fs as [|f fs IH]; intros [|q qs]; simpl;
    try ring.
  rewrite IH. ring.
Qed.

Lemma Qsum_scale (c : Q) (qs : list Q) : Qsum (map (Qmult c) qs) == c * Qsum qs.
Proof. induction qs as [|q qs IH]; simpl; [ring|]. rewrite IH. ring. Qed.

(** X9.  Only the proportions of a weight row matter: scaling every weight
    of a date by the same non-zero number leaves the composite unchanged, as
    long as the weights do not sum to zero. *)
Theorem weighted_cell_scale_invariant (fs qs : list Q) (c : Q) :
  ~ c == 0 -> ~ Qsum qs == 0 ->
  fl_eq (weighted_cell fs (map Fin (map (Qmult c) qs)))
        (weighted_cell fs (map Fin qs)).
Proof.
  intros Hc Hs.
  assert (Hs' : ~ Qsum (map (Qmult c) qs) == 0).
  { rewrite Qsum_scale. intros H. apply Qmult_integral in H. tauto. }
  destruct (weighted_cell_value fs qs Hs) as [v [-> Hv]].
  destruct (weighted_cell_value fs (map (Qmult c) qs) Hs') as [v' [-> Hv']].
  simpl. rewrite Hv, Hv', dot_scale_r, Qsum_scale. field. split; assumption.
Qed.

Lemma weighted_cell_scale_invariant_witness :
  fl_eq (weighted_cell [12; 18] (map Fin (map (Qmult (-4)) [1 # 4; 3 # 4])))
        (weighted_cell [12; 18] (map Fin [1 # 4; 3 # 4])).
Proof.
  apply (weighted_cell_scale_invariant [12; 18] [1 # 4; 3 # 4] (-4)).
  - intros H. vm_compute in H. discriminate H.
  - intros H. vm_compute in H. discriminate H.
Defined.

Lemma dot_bounds (lo hi : Q) (fs qs : list Q) :
  length fs = length qs ->
  Forall (fun f => lo <= f /\ f <= hi) fs ->
  Forall (fun q => 0 <= q) qs ->
  lo * Qsum qs <= dot fs qs /\ dot fs qs <= hi * Qsum qs.
Proof.
  unfold dot. revert qs. induction fs as [|f fs IH]; intros [|q qs] Hlen Hf Hq;
    simpl in *; try discriminate.
  - split; lra.
  - inversion Hf as [|? ? [Hlo Hhi] Hf']; subst.
    inversion Hq as [|? ? Hq0 Hq']; subst.
    destruct (IH qs (f_equal pred Hlen) Hf' Hq') as [IH1 IH2].
    split; nra.
Qed.

(** X10.  With non-negative weights of positive sum the composite of a
    (date, asset) is a number between the smallest and the largest of its
    factor values. *)
Theorem weighted_cell_between_factors (lo hi : Q) (fs qs : list Q) :
  length fs = length qs ->
  Forall (fun f => lo <= f /\ f <= hi) fs ->
  Forall (fun q => 0 <= q) qs ->
  0 < Qsum qs ->
  exists v, weighted_cell fs (map Fin qs) = Fin v /\ lo <= v /\ v <= hi.
Proof.
  intros Hlen Hf Hq Hpos.
  destruct (weighted_cell_value fs qs) as [v [Hv Hval]]; [lra|].
  exists v. split; [exact Hv|].
  destruct (dot_bounds lo hi fs qs Hlen Hf Hq) as [H1 H2].
  rewrite Hval. split.
  - apply Qle_shift_div_l; assumption.
  - apply Qle_shift_div_r; assumption.
Qed.

Lemma weighted_cell_between_factors_witness :
  exists v, weighted_cell [12; 18] (map Fin [1 # 4; 3 # 4]) = Fin v /\
            12 <= v /\ v <= 18.
Proof.
  apply (weighted_cell_between_factors 12 18 [12; 18] [1 # 4; 3 # 4]).
  - reflexivity.
  - repeat constructor; vm_compute; discriminate.
  - repeat constructor; vm_compute; discriminate.
  - vm_compute. reflexivity.
Defined.

(** X11.  When the weights of a date are numbers that sum to zero, nothing
    is raised and the composite is not a number: it is [+inf], [-inf] or NaN
    by the sign of [sum(f_i * w_i)]. *)
Theorem weighted_cell_zero_sum (fs qs : list Q) :
  Qsum qs == 0 ->
  weighted_cell fs (map Fin qs) =
  match Qsgn (fold_left Qplus (map (fun p => fst p * snd p) (combine fs qs)) 0) with
  | Z0 => NaN
  | Zpos _ => PInf
  | Zneg _ => NInf
  end.
Proof.
  intros Hs. unfold weighted_cell.
  rewrite products_Fin. unfold fl_sum. rewrite !fold_left_fl_add_Fin.
  unfold fl_div.
  assert (E : Qeq_bool (fold_left Qplus qs 0) 0 = true).
  { apply Qeq_bool_iff. rewrite fold_left_Qplus, Hs. ring. }
  rewrite E. reflexivity.
Qed.

Lemma weighted_cell_zero_sum_witness :
  weighted_cell [12; 18] (map Fin [1 # 2; -1 # 2]) = NInf.
Proof.
  rewrite (weighted_cell_zero_sum [12; 18] [1 # 2; -1 # 2]).
  - reflexivity.
  - reflexivity.
Defined.

(** * The analytical estimator on a degenerate covariance *)

Lemma Qsum_ext (A : Type) (f g : A -> Q) (l : list A) :
  (forall a, In a l -> f a == g a) -> Qsum (map f l) == Qsum (map g l).
Proof.
  induction l as [|a l IH]; intros H; simpl; [reflexivity|].
  rewrite (H a (or_introl eq_refl)), IH; [reflexivity|].
  intros b Hb. apply H. right. exact Hb.
Qed.

Lemma combine_map_self {A B} (f : A -> B) (l : list A) :
  combine l (map f l) = map (fun a => (a, f a)) l.
Proof. induction l as [|a l IH]; simpl; [reflexivity|]. f_equal. exact IH. Qed.

Lemma combine_self_map {A B} (f : A -> B) (l : list A) :
  combine (map f l) l = map (fun a => (f a, a)) l.
Proof. induction l as [|a l IH]; simpl; [reflexivity|]. f_equal. exact IH. Qed.

Lemma combine_self {A} (l : list A) : combine l l = map (fun a => (a, a)) l.
Proof. induction l as [|a l IH]; simpl; [reflexivity|]. f_equal. exact IH. Qed.

Lemma combine_map_map {A B C} (f : A -> B) (g : A -> C) (l : list A) :
  combine (map f l) (map g l) = map (fun a => (f a, g a)) l.
Proof. induction l as [|a l IH]; simpl; [reflexivity|]. f_equal. exact IH. Qed.

(** Mean and covariance of a column and of its multiple. *)
Lemma mean_scale (k : Q) (xs : list Q) (m : Q) :
  mean xs = Some m ->
  exists m2, mean (map (Qmult k) xs) = Some m2 /\ m2 == k * m.
Proof.
  destruct xs as [|x xs]; [discriminate|]. intros H. injection H as <-.
  exists (Qsum (map (Qmult k) (x :: xs)) / Qlen (map (Qmult k) (x :: xs))).
  split; [reflexivity|].
  rewrite Qsum_scale.
  assert (HQ : Qlen (map (Qmult k) (x :: xs)) = Qlen (x :: xs)).
  { unfold Qlen. rewrite length_map. reflexivity. }
  rewrite HQ.
  pose proof (Qlen_pos (x :: xs) ltac:(discriminate)) as Hn.
  change (x + Qsum xs) with (Qsum (x :: xs)).
  field. lra.
Qed.

Lemma cov_pair_scale (k : Q) (xs : list Q) (s : Q) :
  cov_pair xs xs = Some s ->
  exists v12 v21 v22,
    cov_pair xs (map (Qmult k) xs) = Some v12 /\
    cov_pair (map (Qmult k) xs) xs = Some v21 /\
    cov_pair (map (Qmult k) xs) (map (Qmult k) xs) = Some v22 /\
    v12 == k * s /\ v21 == k * s /\ v22 == k * k * s.
Proof.
  unfold cov_pair. destruct (mean xs) as [m|] eqn:Hm; [|discriminate].
  destruct (mean_scale k xs m Hm) as [m2 [Hm2 E2]]. rewrite Hm2.
  rewrite length_map.
  destruct (length xs <=? 1)%nat eqn:El; [discriminate|].
  intros H. injection H as <-.
  apply Nat.leb_gt in El.
  assert (Hn : 1 < Qlen xs).
  { unfold Qlen. change 1 with (inject_Z 1). rewrite <- Zlt_Qlt. lia. }
  assert (HQ : Qlen (map (Qmult k) xs) = Qlen xs).
  { unfold Qlen. rewrite length_map. reflexivity. }
  rewrite HQ.
  do 3 eexists. split; [reflexivity|]. split; [reflexivity|]. split; [reflexivity|].
  rewrite combine_map_self, combine_self_map, combine_map_map.
  rewrite combine_self. rewrite !map_map. cbn [fst snd].
  assert (E12 : Qsum (map (fun x => (x - m) * (k * x - m2)) xs)
                == k * Qsum (map (fun x => (x - m) * (x - m)) xs)).
  { rewrite <- Qsum_scale, map_map. apply Qsum_ext. intros a _. rewrite E2. ring. }
  assert (E21 : Qsum (map (fun x => (k * x - m2) * (x - m)) xs)
                == k * Qsum (map (fun x => (x - m) * (x - m)) xs)).
  { rewrite <- Qsum_scale, map_map. apply Qsum_ext. intros a _. rewrite E2. ring. }
  assert (E22 : Qsum (map (fun x => (k * x - m2) * (k * x - m2)) xs)
                == k * k * Qsum (map (fun x => (x - m) * (x - m)) xs)).
  { rewrite <- Qsum_scale, map_map. apply Qsum_ext. intros a _. rewrite E2. ring. }
  rewrite E12, E21, E22.
  repeat split; field; lra.
Qed.

Lemma collinear_columns (k : Q) (xs : list Q) :
  column 0 (map (fun v => [v; k * v]) xs) = xs /\
  column 1 (map (fun v => [v; k * v]) xs) = map (Qmult k) xs.
Proof.
  unfold column. rewrite !map_map. cbn [nth]. split; [apply map_id|reflexivity].
Qed.

(** Means and covariance of a window whose second column is [k] times the
    first. *)
Lemma collinear_window_moments (k : Q) (xs bar_ic : list Q) (V : list (list Q)) (m s : Q) :
  col_means 2 (map (fun v => [v; k * v]) xs) = Some bar_ic ->
  cov_matrix 2 (map (fun v => [v; k * v]) xs) = Some V ->
  mean xs = Some m -> cov_pair xs xs = Some s ->
  exists m2 v12 v21 v22,
    bar_ic = [m; m2] /\ V = [[s; v12]; [v21; v22]] /\
    m2 == k * m /\ v12 == k * s /\ v21 == k * s /\ v22 == k * k * s.
Proof.
  intros Hb HV Hm Hs.
  destruct (collinear_columns k xs) as [C0 C1].
  destruct (mean_scale k xs m Hm) as [m2 [Hm2 E2]].
  destruct (cov_pair_scale k xs s Hs) as [v12 [v21 [v22 [H12 [H21 [H22 [E12 [E21 E22]]]]]]]].
  unfold col_means in Hb. unfold cov_matrix in HV.
  cbn [seq map] in Hb, HV. rewrite C0, C1 in Hb, HV.
  rewrite Hm, Hm2 in Hb. rewrite Hs, H12, H21, H22 in HV.
  cbn [sequence] in Hb, HV. injection Hb as <-. injection HV as <-.
  exists m2, v12, v21, v22. repeat split; assumption.
Qed.

(** What the first and fourth Penrose equations say about [P . (1, k)] when
    [V = s (1, k)^T (1, k)]. *)
Lemma pinv_on_collinear (k s v12 v21 v22 a b c d : Q) :
  0 < s -> v12 == k * s -> v21 == k * s -> v22 == k * k * s ->
  is_pinv_of [[s; v12]; [v21; v22]] [[a; b]; [c; d]] = true ->
  (a + k * b) * ((1 + k * k) * s) == 1 /\ c + k * d == k * (a + k * b).
Proof.
  intros Hs0 E12 E21 E22 H. unfold is_pinv_of in H.
  apply andb_true_iff in H. destruct H as [H H4].
  apply andb_true_iff in H. destruct H as [H _].
  apply andb_true_iff in H. destruct H as [H1 _].
  cbv [matmul mat_eqb transpose column dot Qsum map combine seq length nth
       fold_right forallb fst snd Nat.eqb andb] in H1, H4.
  assert (G1 : (s * a + (v12 * c + 0)) * s + ((s * b + (v12 * d + 0)) * v21 + 0) == s).
  { destruct (Qeq_bool ((s * a + (v12 * c + 0)) * s + ((s * b + (v12 * d + 0)) * v21 + 0)) s)
      eqn:E; [apply Qeq_bool_iff in E; exact E|discriminate H1]. }
  assert (G4 : c * s + (d * v21 + 0) == a * v12 + (b * v22 + 0)).
  { destruct (Qeq_bool (a * s + (b * v21 + 0)) (a * s + (b * v21 + 0)));
      [|discriminate H4].
    destruct (Qeq_bool (c * s + (d * v21 + 0)) (a * v12 + (b * v22 + 0))) eqn:E;
      [apply Qeq_bool_iff in E; exact E|discriminate H4]. }
  clear H1 H4.
  rewrite E12, E21 in G1. rewrite E12, E21, E22 in G4.
  assert (Hs : ~ s == 0) by lra.
  assert (W : c + k * d == k * (a + k * b)).
  { apply (Qmult_inj_r _ _ s Hs).
    transitivity (c * s + (d * (k * s) + 0)); [ring|].
    rewrite G4. ring. }
  split; [|exact W].
  apply (Qmult_inj_r _ _ s Hs).
  transitivity ((s * a + (k * s * c + 0)) * s + ((s * b + (k * s * d + 0)) * (k * s) + 0)
                + k * s * s * (k * (a + k * b) - (c + k * d))); [ring|].
  rewrite G1, W. ring.
Qed.

(** The normalised row of two raw weights in the proportion [1 : k]. *)
Lemma max_ic_norm_w_proportional (neg_weight : bool) (r1 r2 t k : Q) :
  r1 == t -> r2 == k * t -> 0 <= k ->
  (0 < t ->
     Forall2 Qeq (max_ic_norm_w neg_weight [r1; r2]) [1 / (1 + k); k / (1 + k)]) /\
  (t <= 0 -> Forall2 Qeq (max_ic_norm_w neg_weight [r1; r2]) [1 # 2; 1 # 2]).
Proof.
  intros E1 E2 Hk. unfold max_ic_norm_w.
  set (raw_w := if negb neg_weight then map Qclip0 [r1; r2] else [r1; r2]).
  assert (Hraw : exists c1 c2, raw_w = [c1; c2] /\
                   (0 < t -> c1 == t /\ c2 == k * t) /\
                   (t <= 0 -> c1 + (c2 + 0) <= 0)).
  { subst raw_w. destruct neg_weight; cbn [negb map].
    - exists r1, r2. split; [reflexivity|]. split.
      + intros _. split; assumption.
      + intros Ht. rewrite E1, E2. nra.
    - exists (Qclip0 r1), (Qclip0 r2). split; [reflexivity|]. split.
      + intros Ht. unfold Qclip0. split.
        * rewrite Q.max_l by (rewrite E1; lra). exact E1.
        * rewrite Q.max_l by (rewrite E2; nra). exact E2.
      + intros Ht. unfold Qclip0.
        rewrite (Q.max_r r1 0) by (rewrite E1; lra).
        rewrite (Q.max_r r2 0) by (rewrite E2; nra). lra. }
  destruct Hraw as [c1 [c2 [-> [Hpos Hnonpos]]]].
  cbn [Qsum fold_right map].
  split; intros Ht.
  - destruct (Hpos Ht) as [C1 C2].
    assert (Hsum : c1 + (c2 + 0) == t * (1 + k)) by (rewrite C1, C2; ring).
    destruct (Qlt_le_dec 0 (c1 + (c2 + 0))) as [Hp|Hn].
    + constructor; [|constructor; [|constructor]].
      * rewrite Hsum, C1. field. split; lra.
      * rewrite Hsum, C2. field. split; lra.
    + exfalso. rewrite Hsum in Hn. nra.
  - specialize (Hnonpos Ht).
    destruct (Qlt_le_dec 0 (c1 + (c2 + 0))) as [Hp|Hn]; [exfalso; lra|].
    constructor; [|constructor; [|constructor]]; reflexivity.
Qed.

Lemma Forall2_map_Fin (xs ys : list Q) :
  Forall2 Qeq xs ys -> Forall2 fl_eq (map Fin xs) (map Fin ys).
Proof. induction 1; constructor; assumption. Qed.

Lemma matvec_two (a b c d m m2 : Q) :
  matvec [[a; b]; [c; d]] [m; m2] = [a * m + (b * m2 + 0); c * m + (d * m2 + 0)].
Proof. reflexivity. Qed.

Section Degenerate.

Variable pinv : list (list Q) -> option (list (list Q)).

(** C5, as amended.  A degenerate covariance neither raises nor selects
    the all-ones raw vector.  That vector, and with it the uniform row
    [1/N], is what the [except] clause gives when [pinv] raises
    [LinAlgError]; whenever [pinv] returns, the raw weights are
    [pinv(V) . mean_ic].  On a window of two factors whose second column is
    [k >= 0] times the first, the covariance [V] is singular
    ([V (k, -1) = 0]); with a [pinv] result that satisfies the Penrose
    equations and a first column that is not constant, the row is
    [(1/(1+k), k/(1+k))] when the mean of the first column is positive, and
    the equal split [(1/2, 1/2)] of the normalisation when it is not. *)
Theorem max_ic_on_degenerate_covariance
    (N : nat) (neg_weight : bool) (window_df : list (list Q))
    (bar_ic : list Q) (V : list (list Q)) :
  col_means N window_df = Some bar_ic ->
  cov_matrix N window_df = Some V ->
  (pinv V = None ->
     max_ic_raw_w pinv N window_df = repeat 1 N /\
     length (max_ic_row pinv N neg_weight window_df) = N /\
     Forall (fun c => fl_eq c (Fin (1 / inject_Z (Z.of_nat N))))
            (max_ic_row pinv N neg_weight window_df)) /\
  (forall V_inv, pinv V = Some V_inv ->
     max_ic_raw_w pinv N window_df = matvec V_inv bar_ic) /\
  (forall xs k m s a b c d,
     N = 2%nat ->
     window_df = map (fun v => [v; k * v]) xs ->
     0 <= k ->
     mean xs = Some m ->
     cov_pair xs xs = Some s -> 0 < s ->
     pinv V = Some [[a; b]; [c; d]] ->
     is_pinv_of V [[a; b]; [c; d]] = true ->
     Forall2 Qeq (matvec V [k; -1]) [0; 0] /\
     (0 < m ->
        Forall2 fl_eq (max_ic_row pinv N neg_weight window_df)
                      [Fin (1 / (1 + k)); Fin (k / (1 + k))]) /\
     (m <= 0 ->
        Forall2 fl_eq (max_ic_row pinv N neg_weight window_df)
                      [Fin (1 # 2); Fin (1 # 2)])).
Proof.
  intros Hb HV. split; [|split].
  - intros HP.
    assert (Hraw : max_ic_raw_w pinv N window_df = repeat 1 N).
    { unfold max_ic_raw_w. rewrite Hb, HV, HP.
      rewrite (col_means_length _ _ _ Hb). reflexivity. }
    split; [exact Hraw|].
    unfold max_ic_row. rewrite Hraw. apply ones_row_uniform.
  - intros V_inv HP. unfold max_ic_raw_w. rewrite Hb, HV, HP. reflexivity.
  - intros xs k m s a b c d -> -> Hk Hm Hs Hs0 HP Hpen.
    destruct (collinear_window_moments k xs bar_ic V m s Hb HV Hm Hs)
      as [m2 [v12 [v21 [v22 [-> [-> [E2 [E12 [E21 E22]]]]]]]]].
    destruct (pinv_on_collinear k s v12 v21 v22 a b c d Hs0 E12 E21 E22 Hpen)
      as [Hu Hw].
    assert (Hden : 0 < (1 + k * k) * s) by nra.
    assert (Hupos : 0 < a + k * b).
    { destruct (Qlt_le_dec 0 (a + k * b)) as [H|H]; [exact H|].
      exfalso. assert ((a + k * b) * ((1 + k * k) * s) <= 0) by nra. lra. }
    split.
    { rewrite matvec_two. constructor; [|constructor; [|constructor]].
      - rewrite E12. ring.
      - rewrite E21, E22. ring. }
    assert (Hraw : max_ic_raw_w pinv 2 (map (fun v => [v; k * v]) xs)
                   = [a * m + (b * m2 + 0); c * m + (d * m2 + 0)]).
    { unfold max_ic_raw_w. rewrite Hb, HV, HP. apply matvec_two. }
    unfold max_ic_row. rewrite Hraw.
    assert (R1 : a * m + (b * m2 + 0) == m * (a + k * b)) by (rewrite E2; ring).
    assert (R2 : c * m + (d * m2 + 0) == k * (m * (a + k * b))).
    { rewrite E2. transitivity (m * (c + k * d)); [ring|]. rewrite Hw. ring. }
    destruct (max_ic_norm_w_proportional neg_weight _ _ _ k R1 R2 Hk) as [Hp Hn].
    split; intros Hm0.
    + apply (Forall2_map_Fin _ [1 / (1 + k); k / (1 + k)]). apply Hp. nra.
    + apply (Forall2_map_Fin _ [1 # 2; 1 # 2]). apply Hn. nra.
Qed.

End Degenerate.

Lemma max_ic_on_degenerate_covariance_witness :
  let window_df := iloc_window (vals collinear_ic) 4 4 in
  let raising := fun _ : list (list Q) => @None (list (list Q)) in
  Forall2 fl_eq (max_ic_row pinv_exact 2 false window_df)
                [Fin (1 / (1 + 2)); Fin (2 / (1 + 2))] /\
  Forall2 fl_eq (max_ic_row pinv_exact 2 false falling_collinear_window)
                [Fin (1 # 2); Fin (1 # 2)] /\
  max_ic_raw_w raising 2 window_df = repeat 1 2%nat /\
  Forall (fun c => fl_eq c (Fin (1 / inject_Z (Z.of_nat 2))))
         (max_ic_row raising 2 false window_df).
Proof.
  intros window_df raising.
  pose (xs := [1 # 10; 2 # 10; 4 # 10; 3 # 10]).
  pose (ys := [-1 # 10; -2 # 10; -4 # 10; -3 # 10]).
  pose (bar := ltac:(let v := eval vm_compute in
          (match col_means 2 (iloc_window (vals collinear_ic) 4 4) with
          | Some b => b | None => [] end) in exact v)).
  pose (V := ltac:(let v := eval vm_compute in
          (match cov_matrix 2 (iloc_window (vals collinear_ic) 4 4) with
          | Some v => v | None => [] end) in exact v)).
  pose (bar' := ltac:(let v := eval vm_compute in
          (match col_means 2 falling_collinear_window with
          | Some b => b | None => [] end) in exact v)).
  pose (V' := ltac:(let v := eval vm_compute in
          (match cov_matrix 2 falling_collinear_window with
          | Some v => v | None => [] end) in exact v)).
  assert (Hb : col_means 2 window_df = Some bar) by (vm_compute; reflexivity).
  assert (HV : cov_matrix 2 window_df = Some V) by (vm_compute; reflexivity).
  assert (Hb' : col_means 2 falling_collinear_window = Some bar')
    by (vm_compute; reflexivity).
  assert (HV' : cov_matrix 2 falling_collinear_window = Some V')
    by (vm_compute; reflexivity).
  pose (m := ltac:(let v := eval vm_compute in
          (match mean [1 # 10; 2 # 10; 4 # 10; 3 # 10] with
                                | Some q => q | None => 0 end) in exact v)).
  pose (s := ltac:(let v := eval vm_compute in
          (match cov_pair [1 # 10; 2 # 10; 4 # 10; 3 # 10]
                         [1 # 10; 2 # 10; 4 # 10; 3 # 10] with
          | Some q => q | None => 0 end) in exact v)).
  pose (m' := ltac:(let v := eval vm_compute in
          (match mean [-1 # 10; -2 # 10; -4 # 10; -3 # 10] with
                                 | Some q => q | None => 0 end) in exact v)).
  pose (s' := ltac:(let v := eval vm_compute in
          (match cov_pair [-1 # 10; -2 # 10; -4 # 10; -3 # 10]
                         [-1 # 10; -2 # 10; -4 # 10; -3 # 10] with
          | Some q => q | None => 0 end) in exact v)).
  assert (Hk : 0 <= 2) by (vm_compute; discriminate).
  split; [|split].
  - apply (proj1 (proj2
      (proj2 (proj2 (max_ic_on_degenerate_covariance pinv_exact 2 false window_df
                       bar V Hb HV))
         xs 2 m s (12 # 5) (24 # 5) (24 # 5) (48 # 5)
         eq_refl eq_refl Hk
         ltac:(vm_compute; reflexivity) ltac:(vm_compute; reflexivity)
         ltac:(vm_compute; reflexivity)
         ltac:(vm_compute; reflexivity) ltac:(vm_compute; reflexivity)))).
    vm_compute. reflexivity.
  - apply (proj2 (proj2
      (proj2 (proj2 (max_ic_on_degenerate_covariance pinv_exact 2 false
                       falling_collinear_window bar' V' Hb' HV'))
         ys 2 m' s' (12 # 5) (24 # 5) (24 # 5) (48 # 5)
         eq_refl eq_refl Hk
         ltac:(vm_compute; reflexivity) ltac:(vm_compute; reflexivity)
         ltac:(vm_compute; reflexivity)
         ltac:(vm_compute; reflexivity) ltac:(vm_compute; reflexivity)))).
    vm_compute. discriminate.
  - destruct (proj1 (max_ic_on_degenerate_covariance raising 2 false window_df
                       bar V Hb HV) eq_refl) as [H1 [_ H3]].
    split; [exact H1|exact H3].
Defined.

(** * Further properties of the resampler *)

Lemma fold_left_Zmax_ge (l : list Z) (a : Z) :
  (a <= fold_left Z.max l a)%Z /\ Forall (fun x => (x <= fold_left Z.max l a)%Z) l.
Proof.
  revert a. induction l as [|x l IH]; intros a; simpl.
  - split; [lia|constructor].
  - destruct (IH (Z.max a x)) as [H1 H2]. split; [lia|].
    constructor; [lia|exact H2].
Qed.

Lemma index_max_ge {A} (df : frame A) (r : Z * list A) :
  In r df -> (fst r <= index_max df)%Z.
Proof.
  destruct df as [|r0 rest]; [intros []|]. simpl.
  destruct (fold_left_Zmax_ge (map fst rest) (fst r0)) as [H1 H2].
  intros [<-|Hin]; [exact H1|].
  rewrite Forall_forall in H2. apply H2. apply in_map. exact Hin.
Qed.

Lemma searchsorted_in_range (l : list Z) (m d : Z) :
  (d <= m)%Z -> (searchsorted (l ++ [m]) d < length (l ++ [m]))%nat.
Proof.
  intros Hd. induction l as [|a l IH]; simpl.
  - assert (E : (m <? d)%Z = false) by (apply Z.ltb_ge; exact Hd).
    rewrite E. lia.
  - destruct (a <? d)%Z; lia.
Qed.

Lemma searchsorted_not_before (l : list Z) (d def : Z) :
  (searchsorted l d < length l)%nat -> (d <= nth (searchsorted l d) l def)%Z.
Proof.
  induction l as [|a l IH]; simpl; [lia|].
  destruct (a <? d)%Z eqn:E.
  - intros H. apply IH. lia.
  - intros _. apply Z.ltb_ge in E. exact E.
Qed.

Lemma interval_key_first (sched rest : list Z) (d s def : Z) :
  StronglySorted Z.le sched -> In s sched -> (d <= s)%Z ->
  (nth (searchsorted (sched ++ rest) d) (sched ++ rest) def <= s)%Z.
Proof.
  induction 1 as [|a l Hl IH Ha]; intros Hs Hd; [destruct Hs|].
  simpl. destruct (a <? d)%Z eqn:E.
  - apply IH; [|exact Hd]. destruct Hs as [->|Hs]; [|exact Hs].
    apply Z.ltb_lt in E. lia.
  - destruct Hs as [->|Hs]; [lia|].
    rewrite Forall_forall in Ha. apply Ha. exact Hs.
Qed.

Lemma insert_key_in (k x : Z) (ks : list Z) :
  In x (insert_key k ks) <-> x = k \/ In x ks.
Proof.
  induction ks as [|a ks IH]; simpl.
  - intuition.
  - destruct (k <? a)%Z eqn:E1; [simpl; intuition|].
    destruct (k =? a)%Z eqn:E2.
    + apply Z.eqb_eq in E2. subst a. simpl. intuition.
    + simpl. rewrite IH. intuition.
Qed.

Lemma in_sorted_keys (x : Z) (ks : list Z) : In x (sorted_keys ks) <-> In x ks.
Proof.
  unfold sorted_keys. induction ks as [|k ks IH]; simpl; [tauto|].
  rewrite insert_key_in, IH. intuition.
Qed.

Lemma insert_key_sorted (k : Z) (ks : list Z) :
  StronglySorted Z.lt ks -> StronglySorted Z.lt (insert_key k ks).
Proof.
  induction 1 as [|a l Hl IH Ha]; simpl.
  - repeat constructor.
  - destruct (k <? a)%Z eqn:E1.
    + apply Z.ltb_lt in E1. constructor; [constructor; assumption|].
      constructor; [exact E1|].
      eapply Forall_impl; [|exact Ha]. simpl. intros x Hx. lia.
    + destruct (k =? a)%Z eqn:E2; [constructor; assumption|].
      apply Z.ltb_ge in E1. apply Z.eqb_neq in E2.
      constructor; [exact IH|].
      apply Forall_forall. intros x Hx. apply insert_key_in in Hx.
      destruct Hx as [->|Hx]; [lia|].
      rewrite Forall_forall in Ha. apply Ha. exact Hx.
Qed.

Lemma sorted_keys_sorted (ks : list Z) : StronglySorted Z.lt (sorted_keys ks).
Proof.
  unfold sorted_keys. induction ks as [|k ks IH]; simpl; [constructor|].
  apply insert_key_sorted. exact IH.
Qed.

Lemma sorted_keys_const (k : Z) (ks : list Z) :
  Forall (eq k) ks -> sorted_keys ks = [] \/ sorted_keys ks = [k].
Proof.
  unfold sorted_keys. induction 1 as [|x l Hx _ IH]; [left; reflexivity|].
  subst x. right. simpl. destruct IH as [-> | ->]; simpl; [reflexivity|].
  rewrite Z.ltb_irrefl, Z.eqb_refl. reflexivity.
Qed.

Lemma sorted_consecutive (l : list Z) (i : nat) (a b : Z) :
  StronglySorted Z.lt l ->
  nth_error l i = Some a -> nth_error l (S i) = Some b -> (a < b)%Z.
Proof.
  intros Hs. revert i. induction Hs as [|x l Hl IH Hx]; intros i Ha Hb.
  - destruct i; discriminate.
  - destruct i as [|i]; simpl in *.
    + injection Ha as <-. rewrite Forall_forall in Hx. apply Hx.
      destruct l; [discriminate|]. simpl in Hb. injection Hb as <-. left. reflexivity.
    + eapply IH; eassumption.
Qed.

Lemma filter_index_sorted {A} (p : Z * A -> bool) (df : list (Z * A)) :
  StronglySorted Z.lt (map fst df) -> StronglySorted Z.lt (map fst (filter p df)).
Proof.
  induction df as [|r df IH]; intros Hs; [constructor|].
  simpl in Hs. inversion Hs as [|? ? Hl Hr]; subst. simpl.
  destruct (p r); [|apply IH; exact Hl].
  simpl. constructor; [apply IH; exact Hl|].
  apply Forall_forall. intros x Hx. apply in_map_iff in Hx.
  destruct Hx as [s [<- Hs']]. apply filter_In in Hs'. destruct Hs' as [Hs' _].
  rewrite Forall_forall in Hr. apply Hr. apply in_map. exact Hs'.
Qed.

Lemma shift_m1_index (N : nat) (df : frame (option Q)) :
  map fst (shift_m1 N df) = map fst df.
Proof.
  unfold shift_m1. apply index_with_rows.
  unfold shift_rows_up, vals. destruct df as [|r df]; [reflexivity|].
  simpl. rewrite length_app, length_map. simpl. lia.
Qed.

Lemma length_cum_rtns (N : nat) (group : list (list (option Q))) :
  length (cum_rtns N group) = N.
Proof. unfold cum_rtns. rewrite length_map. apply length_seq. Qed.

Section ResampleIndex.

Variable get_rebalance_date : string -> list Z.

Lemma interval_groups_keys (returns : frame (option Q)) (t : string) :
  map fst (interval_groups get_rebalance_date returns t)
  = sorted_keys (map (fun r => interval_key (resample_dates get_rebalance_date returns t)
                                            (fst r)) returns).
Proof.
  unfold interval_groups, groupby. rewrite !map_map. simpl. rewrite map_id.
  reflexivity.
Qed.

Lemma period_returns_keys (returns : frame (option Q)) (t : string) :
  map fst (period_returns get_rebalance_date returns t)
  = map fst (interval_groups get_rebalance_date returns t).
Proof. unfold period_returns. rewrite map_map. reflexivity. Qed.

(** X12.  The date a day is grouped under is looked up within range, is
    one of the schedule dates or the last day of the table, and is not
    before the day; on a sorted schedule it is the first schedule date that
    is not before the day. *)
Theorem interval_key_is_next_schedule_date
    (returns : frame (option Q)) (t : string) (r : Z * list (option Q)) :
  In r returns ->
  let dates := resample_dates get_rebalance_date returns t in
  (searchsorted dates (fst r) < length dates)%nat /\
  In (interval_key dates (fst r)) dates /\
  (fst r <= interval_key dates (fst r))%Z /\
  (StronglySorted Z.le (get_rebalance_date t) ->
   forall s, In s (get_rebalance_date t) -> (fst r <= s)%Z ->
             (interval_key dates (fst r) <= s)%Z).
Proof.
  intros Hr dates. subst dates. unfold resample_dates, interval_key.
  pose proof (searchsorted_in_range (get_rebalance_date t) (index_max returns) (fst r)
                (index_max_ge returns r Hr)) as Hrange.
  split; [exact Hrange|]. split; [apply nth_In; exact Hrange|].
  split; [apply searchsorted_not_before; exact Hrange|].
  intros Hsorted s Hs Hle. apply interval_key_first; assumption.
Qed.

(** X13.  The dates of the result are strictly increasing; every row has
    one cell per column of the input; and a date appears only if it closes
    the interval of some day and some other day lies in a later interval:
    the latest interval of the table never gets a row. *)
Theorem resample_returns_index (returns : frame (option Q)) (t : string) :
  let dates := resample_dates get_rebalance_date returns t in
  StronglySorted Z.lt (map fst (resample_returns get_rebalance_date returns t)) /\
  (forall d row,
      In (d, row) (resample_returns get_rebalance_date returns t) ->
      length row = ncols returns /\
      exists r1 r2,
        In r1 returns /\ In r2 returns /\
        interval_key dates (fst r1) = d /\
        (d < interval_key dates (fst r2))%Z).
Proof.
  intros dates.
  assert (Hkeys : StronglySorted Z.lt
                    (map fst (period_returns get_rebalance_date returns t))).
  { rewrite period_returns_keys, interval_groups_keys. apply sorted_keys_sorted. }
  split.
  - unfold resample_returns, dropna_all. apply filter_index_sorted.
    rewrite shift_m1_index. exact Hkeys.
  - intros d row Hin. unfold resample_returns in Hin.
    apply in_dropna_shift_m1 in Hin. destruct Hin as [i [Hd Hrow]].
    assert (Hk : exists k, nth_error (map fst (period_returns get_rebalance_date returns t))
                             (S i) = Some k).
    { rewrite nth_error_map. unfold vals in Hrow. rewrite nth_error_map in Hrow.
      destruct (nth_error (period_returns get_rebalance_date returns t) (S i)) as [g|];
        [|discriminate]. eexists. reflexivity. }
    destruct Hk as [k Hk].
    split.
    + unfold vals, period_returns in Hrow. rewrite map_map, nth_error_map in Hrow.
      destruct (nth_error _ (S i)); [|discriminate].
      simpl in Hrow. injection Hrow as <-. apply length_cum_rtns.
    + pose proof (sorted_consecutive _ i d k Hkeys Hd Hk) as Hlt.
      apply nth_error_In in Hd. apply nth_error_In in Hk.
      rewrite period_returns_keys, interval_groups_keys in Hd, Hk.
      apply (proj1 (in_sorted_keys _ _)) in Hd.
      apply (proj1 (in_sorted_keys _ _)) in Hk.
      apply in_map_iff in Hd. apply in_map_iff in Hk.
      destruct Hd as [r1 [E1 H1]]. destruct Hk as [r2 [E2 H2]].
      exists r1, r2. split; [exact H1|]. split; [exact H2|].
      split; [exact E1|]. fold dates in E2. rewrite E2. exact Hlt.
Qed.

(** X14.  A table whose days all fall into one interval gives an empty
    result: the only period is moved off the table by [shift(-1)]. *)
Theorem resample_returns_single_interval
    (returns : frame (option Q)) (t : string) (k : Z) :
  (forall r, In r returns ->
             interval_key (resample_dates get_rebalance_date returns t) (fst r) = k) ->
  resample_returns get_rebalance_date returns t = [].
Proof.
  intros Hall.
  assert (Hk : Forall (eq k)
                 (map (fun r => interval_key
                                  (resample_dates get_rebalance_date returns t) (fst r))
                      returns)).
  { apply Forall_forall. intros x Hx. apply in_map_iff in Hx.
    destruct Hx as [r [<- Hr]]. symmetry. apply Hall. exact Hr. }
  apply sorted_keys_const in Hk.
  assert (Hg : interval_groups get_rebalance_date returns t = [] \/
               exists rows, interval_groups get_rebalance_date returns t = [(k, rows)]).
  { pose proof (interval_groups_keys returns t) as Hkeys.
    destruct Hk as [Hk|Hk]; rewrite Hk in Hkeys.
    - left. destruct (interval_groups get_rebalance_date returns t);
        [reflexivity|discriminate].
    - right. destruct (interval_groups get_rebalance_date returns t) as [|[k' rows] [|g gs]];
        try discriminate.
      simpl in Hkeys. injection Hkeys as ->. exists rows. reflexivity. }
  unfold resample_returns, period_returns.
  destruct Hg as [-> | [rows ->]]; [reflexivity|].
  cbn [map]. unfold shift_m1, with_rows, vals, shift_rows_up, dropna_all.
  cbn [map fst snd combine app filter].
  assert (Hall' : forallb isna (repeat None (ncols returns)) = true).
  { apply forallb_forall. intros c Hc. apply repeat_spec in Hc. subst c. reflexivity. }
  rewrite Hall'. reflexivity.
Qed.

End ResampleIndex.

Lemma interval_key_is_next_schedule_date_witness :
  let dates := resample_dates three_dates daily_example "MR" in
  (searchsorted dates 15 < length dates)%nat /\
  In (interval_key dates 15) dates /\
  (15 <= interval_key dates 15)%Z /\
  (interval_key dates 15 <= 20)%Z.
Proof.
  intros dates.
  assert (Hin : In (15%Z, [Some (1 # 100)]) daily_example)
    by (right; left; reflexivity).
  destruct (interval_key_is_next_schedule_date three_dates daily_example "MR"
              (15%Z, [Some (1 # 100)]) Hin) as [H1 [H2 [H3 H4]]].
  split; [exact H1|]. split; [exact H2|]. split; [exact H3|].
  apply H4.
  - unfold three_dates. repeat constructor; lia.
  - right. left. reflexivity.
  - simpl. lia.
Defined.

Lemma resample_returns_single_interval_witness :
  resample_returns three_dates one_interval_only "MR" = [].
Proof.
  apply (resample_returns_single_interval three_dates one_interval_only "MR" 20%Z).
  unfold one_interval_only. intros r [<-|[<-|[<-|[<-|[]]]]]; reflexivity.
Defined.

(** ** The cells of a period *)




Section ResampleCells.

Variable get_rebalance_date : string -> list Z.



End ResampleCells.


(** ** Compounding over adjacent intervals *)

Lemma present_app (xs ys : list (option Q)) :
  present (xs ++ ys) = present xs ++ present ys.
Proof.
  induction xs as [|[v|] xs IH]; simpl; [reflexivity| |exact IH].
  f_equal. exact IH.
Qed.

Lemma Qprod_app (xs ys : list Q) : Qprod (xs ++ ys) == Qprod xs * Qprod ys.
Proof.
  induction xs as [|x xs IH]; simpl; [ring|]. rewrite IH. ring.
Qed.

(** X15.  Period returns chain: when a column has a value on each of two
    adjacent groups of days, the compounding over the joined days satisfies
    [1 + c = (1 + a)(1 + b)]; when it is missing on every day of one group,
    the joined days compound to the value of the other group. *)
Theorem cum_rtns_col_chains (xs ys : list (option Q)) :
  (forall a b, cum_rtns_col xs = Some a -> cum_rtns_col ys = Some b ->
     exists c, cum_rtns_col (xs ++ ys) = Some c /\ 1 + c == (1 + a) * (1 + b)) /\
  (cum_rtns_col xs = None -> cell_eq (cum_rtns_col (xs ++ ys)) (cum_rtns_col ys)) /\
  (cum_rtns_col ys = None -> cell_eq (cum_rtns_col (xs ++ ys)) (cum_rtns_col xs)).
Proof.
  unfold cum_rtns_col. rewrite forallb_app, present_app, map_app.
  destruct (forallb isna xs) eqn:Ex, (forallb isna ys) eqn:Ey; simpl;
    repeat split; intros; try discriminate; try exact I.
  - assert (Hp : present xs = []).
    { clear -Ex. induction xs as [|[v|] xs IH]; simpl in *;
        [reflexivity|discriminate|apply IH; exact Ex]. }
    rewrite Hp. simpl. reflexivity.
  - assert (Hp : present ys = []).
    { clear -Ey. induction ys as [|[v|] ys IH]; simpl in *;
        [reflexivity|discriminate|apply IH; exact Ey]. }
    rewrite Hp. simpl. rewrite Qprod_app. simpl. ring.
  - eexists. split; [reflexivity|].
    match goal with H : Some _ = Some a |- _ => injection H as <- end.
    match goal with H : Some _ = Some b |- _ => injection H as <- end.
    rewrite Qprod_app. ring.
Qed.

(** * Quantile and long-short portfolios *)

Lemma Qle_bool_false (a b : Q) : Qle_bool a b = false -> b < a.
Proof.
  intros H. apply Qnot_le_lt. intros Hle. apply Qle_bool_iff in Hle. congruence.
Qed.

Lemma Qle_bool_true (a b : Q) : Qle_bool a b = true -> a <= b.
Proof. apply Qle_bool_iff. Qed.

Ltac qbools :=
  repeat match goal with
         | |- context [Qle_bool ?a ?b] =>
             let E := fresh "E" in
             destruct (Qle_bool a b) eqn:E;
             [apply Qle_bool_true in E | apply Qle_bool_false in E]
         end.

Lemma quantile_step_bounds (g : Q) (n : nat) :
  0 < g ->
  0 <= inject_Z (Z.of_nat n) / g /\
  inject_Z (Z.of_nat n) / g <= inject_Z (Z.of_nat n + 1) / g.
Proof.
  intros Hg.
  assert (Hn : 0 <= inject_Z (Z.of_nat n)).
  { change 0 with (inject_Z 0). rewrite <- Zle_Qle. lia. }
  assert (Hs : inject_Z (Z.of_nat n + 1) == inject_Z (Z.of_nat n) + 1).
  { rewrite inject_Z_plus. reflexivity. }
  split.
  - apply Qle_shift_div_l; [exact Hg|]. lra.
  - apply Qle_shift_div_l; [exact Hg|].
    rewrite Hs. unfold Qdiv. rewrite <- Qmult_assoc, (Qmult_comm (/ g)).
    rewrite Qmult_inv_r by lra. lra.
Qed.

Lemma quantiles_upto (g : Q) (v : Q) (n : nat) :
  0 < g ->
  length (filter (fun b => in_range_cond (fst b) (snd b) (Some v))
                 (map (fun i => (inject_Z (Z.of_nat i) / g,
                                 inject_Z (Z.of_nat i + 1) / g))
                      (seq 0 n)))
  = if Qle_bool 0 v && negb (Qle_bool (inject_Z (Z.of_nat n) / g) v)
    then 1%nat else 0%nat.
Proof.
  intros Hg. induction n as [|n IH].
  - simpl. unfold Qdiv. rewrite Qmult_0_l.
    destruct (Qle_bool 0 v); reflexivity.
  - rewrite seq_S, map_app, filter_app, length_app, IH.
    change (0 + n)%nat with n. cbn [map filter fst snd in_range_cond].
    destruct (quantile_step_bounds g n Hg) as [H0 H1].
    assert (Hs : inject_Z (Z.of_nat (S n)) == inject_Z (Z.of_nat n + 1)).
    { rewrite Nat2Z.inj_succ. unfold Z.succ. reflexivity. }
    assert (Hb : Qle_bool (inject_Z (Z.of_nat (S n)) / g) v
                 = Qle_bool (inject_Z (Z.of_nat n + 1) / g) v).
    { destruct (Qle_bool (inject_Z (Z.of_nat n + 1) / g) v) eqn:E.
      - apply Qle_bool_iff. apply Qle_bool_iff in E. rewrite Hs. exact E.
      - apply Qle_bool_false in E.
        destruct (Qle_bool (inject_Z (Z.of_nat (S n)) / g) v) eqn:E'; [|reflexivity].
        apply Qle_bool_iff in E'. rewrite Hs in E'. lra. }
    rewrite Hb.
    set (a := inject_Z (Z.of_nat n) / g) in *.
    set (b := inject_Z (Z.of_nat n + 1) / g) in *.
    qbools; simpl; try reflexivity; exfalso; lra.
Qed.

(** X16.  The quantile conditions of [calc_factor_quantiles_return] split
    the ranks [0 <= v < 1] among the [group] portfolios: such a cell is
    selected by exactly one condition, and a cell that is NaN, negative, or
    at least 1 (the top rank 1.0 included) by none. *)
Theorem quantile_conditions_partition (group : Z) (c : option Q) :
  (0 < group)%Z ->
  quantiles_holding group c =
  match c with
  | Some v => if Qle_bool 0 v && negb (Qle_bool 1 v) then 1%nat else 0%nat
  | None => 0%nat
  end.
Proof.
  intros Hg. unfold quantiles_holding, quantile_bounds.
  assert (HgQ : 0 < inject_Z group).
  { change 0 with (inject_Z 0). rewrite <- Zlt_Qlt. exact Hg. }
  destruct c as [v|].
  - rewrite (quantiles_upto (inject_Z group) v (Z.to_nat group) HgQ).
    rewrite Z2Nat.id by lia.
    assert (H1 : inject_Z group / inject_Z group == 1) by (field; lra).
    assert (Hb : Qle_bool (inject_Z group / inject_Z group) v = Qle_bool 1 v).
    { destruct (Qle_bool 1 v) eqn:E.
      - apply Qle_bool_iff. apply Qle_bool_iff in E. rewrite H1. exact E.
      - apply Qle_bool_false in E.
        destruct (Qle_bool (inject_Z group / inject_Z group) v) eqn:E'; [|reflexivity].
        apply Qle_bool_iff in E'. rewrite H1 in E'. lra. }
    rewrite Hb. reflexivity.
  - induction (seq 0 (Z.to_nat group)) as [|i l IH]; [reflexivity|exact IH].
Qed.

Lemma quantile_conditions_partition_witness :
  quantiles_holding 10 (Some (37 # 100)) = 1%nat /\
  quantiles_holding 10 (Some 1) = 0%nat /\
  quantiles_holding 10 None = 0%nat.
Proof.
  assert (H : (0 < 10)%Z) by lia.
  split; [|split].
  - exact (quantile_conditions_partition 10 (Some (37 # 100)) H).
  - exact (quantile_conditions_partition 10 (Some 1) H).
  - exact (quantile_conditions_partition 10 None H).
Defined.

Lemma nth_quantile_bounds (group : Z) (i : nat) (d : Q * Q) :
  (i < Z.to_nat group)%nat ->
  nth i (quantile_bounds group) d
  = (inject_Z (Z.of_nat i) / inject_Z group,
     inject_Z (Z.of_nat i + 1) / inject_Z group).
Proof.
  intros Hi. unfold quantile_bounds. apply nth_error_nth.
  apply (nth_error_map_seq
           (fun i => (inject_Z (Z.of_nat i) / inject_Z group,
                      inject_Z (Z.of_nat i + 1) / inject_Z group))
           (Z.to_nat group) i Hi).
Qed.

(** ** Rounding to binary64 *)

Lemma round_binary64_wd (q q' : Q) : q == q' -> round_binary64 q = round_binary64 q'.
Proof. intros H. unfold round_binary64. rewrite (Qred_complete _ _ H). reflexivity. Qed.

Lemma pow2_pos (e : Z) : 0 < pow2 e.
Proof.
  unfold pow2. destruct (0 <=? e)%Z eqn:E.
  - apply Z.leb_le in E. change 0 with (inject_Z 0). rewrite <- Zlt_Qlt.
    apply Z.pow_pos_nonneg; lia.
  - reflexivity.
Qed.

Lemma scaled_signs (a d e : Z) :
  (0 < a)%Z -> (0 < d)%Z ->
  (0 < fst (scaled a d e))%Z /\ (0 < snd (scaled a d e))%Z.
Proof.
  intros Ha Hd. unfold scaled. destruct (0 <=? e)%Z eqn:E; simpl.
  - apply Z.leb_le in E. split; [exact Ha|].
    apply Z.mul_pos_pos; [exact Hd|]. apply Z.pow_pos_nonneg; lia.
  - apply Z.leb_gt in E. split; [|exact Hd].
    apply Z.mul_pos_pos; [exact Ha|]. apply Z.pow_pos_nonneg; lia.
Qed.

Lemma round_half_even_nonneg (n d : Z) :
  (0 <= n)%Z -> (0 < d)%Z -> (0 <= round_half_even n d)%Z.
Proof.
  intros Hn Hd. unfold round_half_even.
  assert (H : (0 <= n / d)%Z) by (apply Z.div_pos; lia).
  destruct (2 * (n mod d) ?= d)%Z; [destruct (Z.even (n / d))| |]; lia.
Qed.

Lemma round_half_even_upper (a d N : Z) :
  (0 < a)%Z -> (a <= d)%Z -> (0 < N)%Z -> (round_half_even (a * N) d <= N)%Z.
Proof.
  intros Ha Had HN. unfold round_half_even.
  assert (Hd : (0 < d)%Z) by lia.
  assert (Hq : (a * N / d <= N)%Z).
  { apply Z.div_le_upper_bound; [exact Hd|]. nia. }
  destruct (Z.eq_dec (a * N / d) N) as [E|E].
  - assert (Hge : (d * (a * N / d) <= a * N)%Z) by (apply Z.mul_div_le; exact Hd).
    rewrite E in Hge. assert (a = d) by nia. subst a.
    assert (Hmod : ((d * N) mod d = 0)%Z) by (rewrite Z.mul_comm; apply Z_mod_mult).
    rewrite Hmod, E.
    assert (C : (2 * 0 ?= d)%Z = Lt) by (apply Z.compare_lt_iff; lia).
    rewrite C. lia.
  - destruct (2 * ((a * N) mod d) ?= d)%Z; [destruct (Z.even (a * N / d))| |]; lia.
Qed.

Lemma round_binary64_nonneg (q : Q) : 0 <= q -> 0 <= round_binary64 q.
Proof.
  intros Hq. unfold round_binary64.
  assert (Hr : 0 <= Qred q) by (rewrite Qred_correct; exact Hq).
  set (n := Qnum (Qred q)) in *. set (d := Zpos (Qden (Qred q))) in *.
  assert (Hn : (0 <= n)%Z).
  { unfold Qle in Hr. simpl in Hr. fold n in Hr. lia. }
  destruct (n =? 0)%Z eqn:E; [lra|]. apply Z.eqb_neq in E.
  rewrite Qred_correct.
  assert (Hpos : (0 < Z.abs n)%Z) by lia.
  destruct (scaled_signs (Z.abs n) d (binary64_exponent (Z.abs n) d) Hpos eq_refl)
    as [H1 H2].
  pose proof (round_half_even_nonneg _ _ (Z.lt_le_incl _ _ H1) H2) as Hm.
  pose proof (pow2_pos (binary64_exponent (Z.abs n) d)) as Hp.
  assert (Hs : 0 <= inject_Z (Z.sgn n * round_half_even
                 (fst (scaled (Z.abs n) d (binary64_exponent (Z.abs n) d)))
                 (snd (scaled (Z.abs n) d (binary64_exponent (Z.abs n) d))))).
  { change 0 with (inject_Z 0). rewrite <- Zle_Qle.
    rewrite Z.sgn_pos by lia. lia. }
  nra.
Qed.

Lemma binary64_exponent_le (a d : Z) :
  (0 < a)%Z -> (a <= d)%Z -> (binary64_exponent a d <= - 52)%Z.
Proof.
  intros Ha Had. unfold binary64_exponent.
  pose proof (Z.log2_le_mono a d Had) as Hl.
  destruct (_ <? _)%Z; lia.
Qed.

Lemma round_binary64_le_1 (q : Q) : q <= 1 -> round_binary64 q <= 1.
Proof.
  intros Hq. unfold round_binary64.
  assert (Hr : Qred q <= 1) by (rewrite Qred_correct; exact Hq).
  set (n := Qnum (Qred q)) in *. set (d := Zpos (Qden (Qred q))) in *.
  assert (Hnd : (n <= d)%Z).
  { unfold Qle in Hr. simpl in Hr. fold n in Hr. fold d in Hr. lia. }
  destruct (n =? 0)%Z eqn:E; [lra|]. apply Z.eqb_neq in E.
  rewrite Qred_correct.
  assert (Hpos : (0 < Z.abs n)%Z) by lia.
  set (e := binary64_exponent (Z.abs n) d).
  destruct (scaled_signs (Z.abs n) d e Hpos eq_refl) as [H1 H2].
  pose proof (round_half_even_nonneg _ _ (Z.lt_le_incl _ _ H1) H2) as Hm.
  pose proof (pow2_pos e) as Hp.
  destruct (Z.lt_total n 0) as [Hneg|[H0|Hp0]]; [|lia|].
  - assert (Hs : inject_Z (Z.sgn n * round_half_even (fst (scaled (Z.abs n) d e))
                                                    (snd (scaled (Z.abs n) d e))) <= 0).
    { change 0 with (inject_Z 0). rewrite <- Zle_Qle.
      rewrite Z.sgn_neg by lia. lia. }
    nra.
  - rewrite Z.sgn_pos by lia. rewrite Z.mul_1_l.
    assert (He : (e <= -52)%Z).
    { subst e. apply binary64_exponent_le; lia. }
    rewrite Z.abs_eq in * by lia.
    unfold scaled, pow2 in *.
    assert (Eb : (0 <=? e)%Z = false) by (apply Z.leb_gt; lia).
    rewrite Eb in *. simpl fst in *. simpl snd in *.
    assert (HN : (0 < 2 ^ (- e))%Z) by (apply Z.pow_pos_nonneg; lia).
    pose proof (round_half_even_upper n d (2 ^ (- e)) Hp0 Hnd HN) as Hup.
    unfold Qle, Qmult, inject_Z. simpl.
    rewrite Z2Pos.id by exact HN. lia.
Qed.

Lemma round_binary64_0 : round_binary64 0 = 0.
Proof. reflexivity. Qed.

Lemma round_binary64_1 : round_binary64 1 = 1.
Proof. vm_compute. reflexivity. Qed.

Lemma float_div_le_1 (a g : Q) : 0 < g -> a <= g -> float_div a g <= 1.
Proof.
  intros Hg Ha. unfold float_div. apply round_binary64_le_1.
  apply Qle_shift_div_r; [exact Hg|]. lra.
Qed.

Lemma float_div_nonneg (a g : Q) : 0 < g -> 0 <= a -> 0 <= float_div a g.
Proof.
  intros Hg Ha. unfold float_div. apply round_binary64_nonneg.
  apply Qle_shift_div_l; [exact Hg|]. lra.
Qed.

Lemma long_threshold_le_1 (group : Z) : (0 < group)%Z -> long_threshold group <= 1.
Proof.
  intros Hg. unfold long_threshold, float_sub. apply round_binary64_le_1.
  assert (HgQ : 0 < inject_Z group).
  { change 0 with (inject_Z 0). rewrite <- Zlt_Qlt. exact Hg. }
  pose proof (float_div_nonneg 1 (inject_Z group) HgQ ltac:(lra)). lra.
Qed.

Lemma nth_quantile_bounds_binary64 (group : Z) (i : nat) (d : Q * Q) :
  (i < Z.to_nat group)%nat ->
  nth i (quantile_bounds_binary64 group) d
  = (float_div (inject_Z (Z.of_nat i)) (inject_Z group),
     float_div (inject_Z (Z.of_nat i + 1)) (inject_Z group)).
Proof.
  intros Hi. unfold quantile_bounds_binary64. apply nth_error_nth.
  apply (nth_error_map_seq
           (fun i => (float_div (inject_Z (Z.of_nat i)) (inject_Z group),
                      float_div (inject_Z (Z.of_nat i + 1)) (inject_Z group)))
           (Z.to_nat group) i Hi).
Qed.

Lemma quantile_bounds_binary64_range (group : Z) (b : Q * Q) :
  (0 < group)%Z -> In b (quantile_bounds_binary64 group) ->
  0 <= fst b /\ snd b <= 1.
Proof.
  intros Hg Hb. unfold quantile_bounds_binary64 in Hb.
  apply in_map_iff in Hb. destruct Hb as [i [<- Hi]]. apply in_seq in Hi.
  assert (HgQ : 0 < inject_Z group).
  { change 0 with (inject_Z 0). rewrite <- Zlt_Qlt. exact Hg. }
  cbn [fst snd]. split.
  - apply float_div_nonneg; [exact HgQ|].
    change 0 with (inject_Z 0). rewrite <- Zle_Qle. lia.
  - apply float_div_le_1; [exact HgQ|]. rewrite <- Zle_Qle. lia.
Qed.

(** X17.  The legs of [calc_factor_longshort_return] against the extreme
    quantiles of [calc_factor_quantiles_return], every threshold being the
    binary64 number the code computes.  The short condition agrees with the
    first quantile on every rank [v >= 0], and it also holds the negative
    ranks, which no quantile selects.  The top rank 1 is held long although
    no quantile selects it.  Below 1 the long condition agrees with the
    last quantile when [1 - 1/group] and [(group - 1)/group] round to the
    same number; when [1 - 1/group] rounds higher, the rank
    [(group - 1)/group] is in the last quantile but not in the long leg. *)
Theorem longshort_legs_are_extreme_quantiles (group : Z) (v : Q) :
  (0 < group)%Z ->
  let bounds := quantile_bounds_binary64 group in
  let first := nth 0 bounds (0, 0) in
  let last := nth (Z.to_nat group - 1) bounds (0, 0) in
  (0 <= v ->
     short_cond group (Some v) = in_range_cond (fst first) (snd first) (Some v)) /\
  (v < 0 ->
     short_cond group (Some v) = true /\
     Forall (fun b => in_range_cond (fst b) (snd b) (Some v) = false) bounds) /\
  (long_cond group (Some 1) = true /\
   Forall (fun b => in_range_cond (fst b) (snd b) (Some 1) = false) bounds) /\
  (long_threshold group == fst last -> v < 1 ->
     long_cond group (Some v) = in_range_cond (fst last) (snd last) (Some v)) /\
  (fst last < long_threshold group ->
     long_cond group (Some (fst last)) = false /\
     in_range_cond (fst last) (snd last) (Some (fst last)) = true).
Proof.
  intros Hg bounds first last.
  assert (HgQ : 0 < inject_Z group).
  { change 0 with (inject_Z 0). rewrite <- Zlt_Qlt. exact Hg. }
  pose proof (long_threshold_le_1 group Hg) as HL.
  assert (Hshort : 0 <= short_threshold group).
  { unfold short_threshold. apply float_div_nonneg; [exact HgQ|lra]. }
  assert (Efirst : first = (0, short_threshold group)).
  { subst first bounds. rewrite nth_quantile_bounds_binary64 by lia.
    assert (E0 : float_div (inject_Z (Z.of_nat 0)) (inject_Z group) = 0).
    { unfold float_div. transitivity (round_binary64 0); [|reflexivity].
      apply round_binary64_wd. change (inject_Z (Z.of_nat 0)) with 0.
      field. lra. }
    rewrite E0. reflexivity. }
  assert (Elast : snd last = 1).
  { subst last bounds. rewrite nth_quantile_bounds_binary64 by lia.
    cbn [snd]. unfold float_div.
    transitivity (round_binary64 1); [|apply round_binary64_1].
    apply round_binary64_wd.
    rewrite Nat2Z.inj_sub by lia. rewrite Z2Nat.id by lia.
    change (Z.of_nat 1) with 1%Z. replace (group - 1 + 1)%Z with group by lia.
    field. lra. }
  split; [|split; [|split; [|split]]].
  - intros Hv. rewrite Efirst. cbn [fst snd]. unfold short_cond, in_range_cond.
    qbools; simpl; try reflexivity; exfalso; lra.
  - intros Hv. split.
    + unfold short_cond. qbools; [exfalso; lra|reflexivity].
    + apply Forall_forall. intros b Hb.
      destruct (quantile_bounds_binary64_range group b Hg Hb) as [H0 _].
      unfold in_range_cond. qbools; simpl; try reflexivity; exfalso; lra.
  - split.
    + unfold long_cond. apply Qle_bool_iff. exact HL.
    + apply Forall_forall. intros b Hb.
      destruct (quantile_bounds_binary64_range group b Hg Hb) as [_ H1].
      unfold in_range_cond. qbools; simpl; try reflexivity; exfalso; lra.
  - intros E Hv. rewrite Elast. unfold long_cond, in_range_cond.
    set (L := long_threshold group) in *. set (a := fst last) in *.
    qbools; simpl; try reflexivity; exfalso; lra.
  - intros Hlt. rewrite Elast. unfold long_cond, in_range_cond.
    set (L := long_threshold group) in *. set (a := fst last) in *.
    split; qbools; simpl; try reflexivity; exfalso; lra.
Qed.

Lemma longshort_legs_are_extreme_quantiles_witness :
  (short_cond 10 (Some (5 # 100))
     = in_range_cond (fst (nth 0 (quantile_bounds_binary64 10) (0, 0)))
                     (snd (nth 0 (quantile_bounds_binary64 10) (0, 0)))
                     (Some (5 # 100)) /\
   long_cond 10 (Some 1) = true /\
   long_cond 10 (Some (95 # 100))
     = in_range_cond (fst (nth (Z.to_nat 10 - 1) (quantile_bounds_binary64 10) (0, 0)))
                     (snd (nth (Z.to_nat 10 - 1) (quantile_bounds_binary64 10) (0, 0)))
                     (Some (95 # 100))) /\
  (let rank := fst (nth (Z.to_nat 3 - 1) (quantile_bounds_binary64 3) (0, 0)) in
   rank = float_div 2 3 /\ rank < long_threshold 3 /\
   long_cond 3 (Some rank) = false /\
   in_range_cond rank (snd (nth (Z.to_nat 3 - 1) (quantile_bounds_binary64 3) (0, 0)))
                 (Some rank) = true).
Proof.
  assert (H10 : (0 < 10)%Z) by lia.
  assert (H3 : (0 < 3)%Z) by lia.
  split.
  - destruct (longshort_legs_are_extreme_quantiles 10 (5 # 100) H10)
      as [Ha [_ [[Hc _] _]]].
    destruct (longshort_legs_are_extreme_quantiles 10 (95 # 100) H10)
      as [_ [_ [_ [Hd _]]]].
    split; [apply Ha; vm_compute; discriminate|]. split; [exact Hc|].
    apply Hd; vm_compute; reflexivity.
  - intros rank.
    assert (Hlt : rank < long_threshold 3) by (vm_compute; reflexivity).
    split; [reflexivity|]. split; [exact Hlt|].
    exact (proj2 (proj2 (proj2 (proj2
             (longshort_legs_are_extreme_quantiles 3 0 H3)))) Hlt).
Defined.

(** * Excursions, drawdown and win rate *)

Lemma present_map (f : Q -> Q) (xs : list (option Q)) :
  present (map (option_map f) xs) = map f (present xs).
Proof.
  induction xs as [|[v|] xs IH]; simpl; [reflexivity| |exact IH].
  f_equal. exact IH.
Qed.

Lemma length_present_cumprod (acc : Q) (xs : list (option Q)) :
  length (present (cumprod_from acc xs)) = length (present xs).
Proof.
  revert acc. induction xs as [|[v|] xs IH]; intros acc; simpl;
    [reflexivity| |apply IH].
  f_equal. apply IH.
Qed.

Lemma Qmin_cases (a b : Q) : Qmin a b = a \/ Qmin a b = b.
Proof.
  unfold Qmin, GenericMinMax.gmin. destruct (a ?= b); auto.
Qed.

Lemma fold_left_Qmin_in (l : list Q) (a : Q) : In (fold_left Qmin l a) (a :: l).
Proof.
  revert a. induction l as [|x l IH]; intros a; simpl; [left; reflexivity|].
  destruct (IH (Qmin a x)) as [H|H].
  - simpl. rewrite <- H.
    destruct (Qmin_cases a x) as [E|E]; rewrite E; auto.
  - right. right. exact H.
Qed.

Lemma fold_left_Qmin_le (l : list Q) (a : Q) :
  fold_left Qmin l a <= a /\ Forall (fun x => fold_left Qmin l a <= x) l.
Proof.
  revert a. induction l as [|x l IH]; intros a; simpl.
  - split; [lra|constructor].
  - destruct (IH (Qmin a x)) as [H1 H2].
    pose proof (Q.le_min_l a x). pose proof (Q.le_min_r a x).
    split; [lra|]. constructor; [lra|exact H2].
Qed.

Lemma fold_left_Qmax_ge (l : list Q) (a : Q) :
  a <= fold_left Qmax l a /\ Forall (fun x => x <= fold_left Qmax l a) l.
Proof.
  revert a. induction l as [|x l IH]; intros a; simpl.
  - split; [lra|constructor].
  - destruct (IH (Qmax a x)) as [H1 H2].
    pose proof (Q.le_max_l a x). pose proof (Q.le_max_r a x).
    split; [lra|]. constructor; [lra|exact H2].
Qed.

Lemma fold_left_Qmax_le (l : list Q) (a g : Q) :
  a <= g -> Forall (fun x => x <= g) l -> fold_left Qmax l a <= g.
Proof.
  revert a. induction l as [|x l IH]; intros a Ha Hl; simpl; [exact Ha|].
  inversion Hl as [|? ? Hx Hl']; subst.
  apply IH; [apply Q.max_lub; assumption|exact Hl'].
Qed.

Lemma max_skipna_upper (xs : list (option Q)) (g : Q) :
  max_skipna xs = Some g -> Forall (fun x => x <= g) (present xs).
Proof.
  unfold max_skipna. destruct (present xs) as [|v r]; [discriminate|].
  intros H. injection H as <-.
  destruct (fold_left_Qmax_ge r v) as [H1 H2]. constructor; assumption.
Qed.

Lemma max_skipna_bounded (xs : list (option Q)) (b g : Q) :
  max_skipna xs = Some b -> Forall (fun x => x <= g) (present xs) -> b <= g.
Proof.
  unfold max_skipna. destruct (present xs) as [|v r]; [discriminate|].
  intros H HF. injection H as <-. inversion HF; subst.
  apply fold_left_Qmax_le; assumption.
Qed.

Lemma min_skipna_lower (xs : list (option Q)) (m : Q) :
  min_skipna xs = Some m ->
  In m (present xs) /\ Forall (fun x => m <= x) (present xs).
Proof.
  unfold min_skipna. destruct (present xs) as [|v r]; [discriminate|].
  intros H. injection H as <-. split; [apply fold_left_Qmin_in|].
  destruct (fold_left_Qmin_le r v) as [H1 H2]. constructor; assumption.
Qed.

Lemma last_in {A} (r : list A) (a : A) : In (last r a) (a :: r).
Proof.
  revert a. induction r as [|b r IH]; intros a; [left; reflexivity|].
  right. destruct r as [|c r]; [left; reflexivity|].
  change (last (b :: c :: r) a) with (last (c :: r) a).
  destruct (IH a) as [H|H]; [|right; exact H].
  specialize (IH b).
  assert (E : last (c :: r) a = last (c :: r) b).
  { clear. revert c. induction r as [|d r IHr]; intros c; [reflexivity|].
    change (last (c :: d :: r) a) with (last (d :: r) a).
    change (last (c :: d :: r) b) with (last (d :: r) b). apply IHr. }
  rewrite E. exact IH.
Qed.

Lemma last_value_in (xs : list (option Q)) (v : Q) :
  last_value xs = Some v -> In v (present xs).
Proof.
  unfold last_value. destruct (present xs) as [|a r]; [discriminate|].
  intros H. injection H as <-. apply last_in.
Qed.

Lemma position_of_found (m : Q) (xs : list (option Q)) :
  In m (present xs) ->
  exists k v, position_of m xs = Some k /\
              nth_error xs k = Some (Some v) /\ v == m.
Proof.
  induction xs as [|[v|] xs IH]; simpl; [intros []| |].
  - intros Hin. destruct (Qeq_bool v m) eqn:E.
    + exists O, v. split; [reflexivity|]. split; [reflexivity|].
      apply Qeq_bool_iff. exact E.
    + destruct Hin as [->|Hin].
      * rewrite Qeq_bool_refl in E. discriminate.
      * destruct (IH Hin) as [k [w [Hk [Hn Hw]]]].
        exists (S k), w. rewrite Hk. split; [reflexivity|]. split; assumption.
  - intros Hin. destruct (IH Hin) as [k [w [Hk [Hn Hw]]]].
    exists (S k), w. rewrite Hk. split; [reflexivity|]. split; assumption.
Qed.

Lemma present_firstn_incl (n : nat) (xs : list (option Q)) (v : Q) :
  In v (present (firstn n xs)) -> In v (present xs).
Proof.
  revert n. induction xs as [|[w|] xs IH]; intros [|n]; simpl; try tauto.
  - intros [H|H]; [left; exact H|right; eapply IH; exact H].
  - apply IH.
Qed.

Lemma present_firstn_nth (k : nat) (xs : list (option Q)) (v : Q) :
  nth_error xs k = Some (Some v) -> In v (present (firstn (S k) xs)).
Proof.
  revert xs. induction k as [|k IH]; intros [|[w|] xs] H; simpl in *;
    try discriminate.
  - injection H as ->. left. reflexivity.
  - right. apply IH. exact H.
  - apply IH. exact H.
Qed.

Lemma present_in_nonempty (xs : list (option Q)) (v : Q) :
  In v (present xs) -> exists g, max_skipna xs = Some g.
Proof.
  unfold max_skipna. destruct (present xs); [intros []|]. eexists. reflexivity.
Qed.

(** X18.  For a trade with at least one day, the columns of
    [calc_maemfe] are numbers in a fixed order: [mae <= 0],
    [mae <= bmfe <= gmfe] and [mae <= return <= gmfe]. *)
Theorem trade_excursions_ordered (trade : list (option Q)) :
  present trade <> [] ->
  exists ret g b,
    trade_return trade = Some ret /\ gmfe trade = Some g /\ bmfe trade = Some b /\
    mae trade <= 0 /\
    mae trade <= b /\ b <= g /\
    mae trade <= ret /\ ret <= g.
Proof.
  intros Hne. unfold trade_return, gmfe, bmfe, mae.
  set (C := c_returns trade).
  assert (HC : present C <> []).
  { subst C. unfold c_returns, cumprod. rewrite present_map.
    intros H. apply Hne. apply length_zero_iff_nil.
    apply (f_equal (@length Q)) in H.
    rewrite length_map, length_present_cumprod, present_map, length_map in H.
    exact H. }
  destruct (min_skipna C) as [m|] eqn:Em;
    [|unfold min_skipna in Em; destruct (present C); [contradiction HC; reflexivity|discriminate]].
  destruct (max_skipna C) as [g|] eqn:Eg;
    [|unfold max_skipna in Eg; destruct (present C); [contradiction HC; reflexivity|discriminate]].
  destruct (last_value C) as [ret|] eqn:Er;
    [|unfold last_value in Er; destruct (present C); [contradiction HC; reflexivity|discriminate]].
  destruct (min_skipna_lower C m Em) as [Hmin Hlow].
  pose proof (max_skipna_upper C g Eg) as Hup.
  pose proof (last_value_in C ret Er) as Hret.
  unfold idxmin. rewrite Em.
  destruct (position_of_found m C Hmin) as [k [v [Hk [Hnth Hv]]]].
  rewrite Hk.
  pose proof (present_firstn_nth k C v Hnth) as Hvin.
  destruct (present_in_nonempty _ _ Hvin) as [b Eb]. rewrite Eb.
  assert (Hmae : (if Qle_bool m 0 then m else 0) <= 0 /\
                 (if Qle_bool m 0 then m else 0) <= m).
  { destruct (Qle_bool m 0) eqn:E.
    - apply Qle_bool_iff in E. split; lra.
    - apply Qle_bool_false in E. split; lra. }
  destruct Hmae as [Hmae0 Hmaem].
  rewrite Forall_forall in Hlow, Hup.
  assert (Hvb : v <= b).
  { pose proof (max_skipna_upper _ _ Eb) as Hb. rewrite Forall_forall in Hb.
    apply Hb. exact Hvin. }
  assert (Hbg : b <= g).
  { apply (max_skipna_bounded _ b g Eb). apply Forall_forall. intros x Hx.
    apply Hup. eapply present_firstn_incl. exact Hx. }
  exists ret, g, b. repeat split; try reflexivity.
  - exact Hmae0.
  - rewrite Hv in Hvb. lra.
  - exact Hbg.
  - pose proof (Hlow ret Hret). lra.
  - apply Hup. exact Hret.
Qed.

Lemma trade_excursions_ordered_witness :
  exists ret g b,
    trade_return trade_example = Some ret /\ gmfe trade_example = Some g /\
    bmfe trade_example = Some b /\
    mae trade_example <= 0 /\
    mae trade_example <= b /\ b <= g /\
    mae trade_example <= ret /\ ret <= g.
Proof.
  apply (trade_excursions_ordered trade_example).
  unfold trade_example. simpl. discriminate.
Defined.

Lemma drawdown_cells (xs : list (option Q)) (acc : option Q) :
  match acc with Some a => 0 < a | None => present xs = [] \/ starts_positive xs end ->
  Forall (fun w => 0 <= w) (present xs) ->
  Forall drawdown_like
    (map (fun p => fl_add (fl_div (fl_of (fst p)) (fl_of (snd p))) (Fin (-1)))
         (combine xs (cummax_from acc xs))) /\
  (present xs <> [] ->
   Exists (fun c => c <> NaN)
     (map (fun p => fl_add (fl_div (fl_of (fst p)) (fl_of (snd p))) (Fin (-1)))
          (combine xs (cummax_from acc xs)))).
Proof.
  revert acc. induction xs as [|[v|] xs IH]; intros acc Hacc Hpos.
  - split; [constructor|]. intros H. contradiction H. reflexivity.
  - simpl in Hpos. inversion Hpos as [|? ? Hv Hpos']; subst.
    set (m := match acc with Some a => Qmax a v | None => v end).
    assert (Hm : v <= m /\ 0 < m).
    { subst m. destruct acc as [a|].
      - pose proof (Q.le_max_r a v). pose proof (Q.le_max_l a v). split; lra.
      - destruct Hacc as [Hacc|Hacc]; [discriminate Hacc|].
        unfold starts_positive in Hacc. simpl in Hacc. split; lra. }
    destruct Hm as [Hvm Hm].
    destruct (IH (Some m) Hm Hpos') as [IH1 IH2].
    assert (Hcell : fl_add (fl_div (Fin v) (Fin m)) (Fin (-1)) = Fin (v / m + -1)).
    { unfold fl_div. destruct (Qeq_bool m 0) eqn:E; [|reflexivity].
      apply Qeq_bool_iff in E. lra. }
    cbn [map combine cummax_from fst snd fl_of present]. fold m. rewrite Hcell. split.
    + constructor; [|exact IH1]. right. exists (v / m + -1).
      split; [reflexivity|].
      assert (H0 : 0 <= v / m) by (apply Qle_shift_div_l; lra).
      assert (H1 : v / m <= 1) by (apply Qle_shift_div_r; lra).
      split; lra.
    + intros _. apply Exists_cons_hd. discriminate.
  - simpl in Hpos. destruct (IH acc Hacc Hpos) as [IH1 IH2].
    cbn [map combine cummax_from fst snd fl_of present]. split.
    + constructor; [left; reflexivity|exact IH1].
    + intros H. apply Exists_cons_tl. apply IH2. exact H.
Qed.

Lemma fl_min2_drawdown (a b : fl) :
  drawdown_like a -> drawdown_like b ->
  drawdown_like (fl_min2 a b) /\ (a <> NaN \/ b <> NaN -> fl_min2 a b <> NaN).
Proof.
  intros [->|[u [-> [Hu1 Hu2]]]] [->|[v [-> [Hv1 Hv2]]]]; simpl.
  - split; [left; reflexivity|]. intros [H|H]; contradiction H; reflexivity.
  - split; [right; exists v; auto|]. intros _. discriminate.
  - split; [right; exists u; auto|]. intros _. discriminate.
  - split; [|intros _; discriminate]. right. exists (Qmin u v).
    split; [reflexivity|]. destruct (Qmin_cases u v) as [E|E]; rewrite E; auto.
Qed.

Lemma fold_min_drawdown (cells : list fl) (a : fl) :
  drawdown_like a -> Forall drawdown_like cells ->
  drawdown_like (fold_left fl_min2 cells a) /\
  (a <> NaN \/ Exists (fun c => c <> NaN) cells -> fold_left fl_min2 cells a <> NaN).
Proof.
  revert a. induction cells as [|c cells IH]; intros a Ha Hc; simpl.
  - split; [exact Ha|]. intros [H|H]; [exact H|inversion H].
  - inversion Hc as [|? ? Hc0 Hc']; subst.
    destruct (fl_min2_drawdown a c Ha Hc0) as [H1 H2].
    destruct (IH (fl_min2 a c) H1 Hc') as [H3 H4].
    split; [exact H3|]. intros H. apply H4.
    destruct H as [H|H]; [left; apply H2; left; exact H|].
    inversion H; subst; [left; apply H2; right; assumption|right; assumption].
Qed.

Lemma starts_positive_nonempty (xs : list (option Q)) :
  starts_positive xs -> present xs <> [].
Proof. unfold starts_positive. destruct (present xs); [tauto|discriminate]. Qed.

Lemma mdd_range (wealth : list (option Q)) :
  Forall (fun w => 0 <= w) (present wealth) -> starts_positive wealth ->
  exists d, mdd wealth = Fin d /\ -1 <= d /\ d <= 0.
Proof.
  intros Hpos Hfirst. unfold mdd, fl_min_skipna, cummax.
  destruct (drawdown_cells wealth None (or_intror Hfirst) Hpos) as [H1 H2].
  destruct (fold_min_drawdown _ NaN (or_introl eq_refl) H1) as [H3 H4].
  destruct H3 as [H3|H3]; [|exact H3].
  exfalso. apply H4; [right; apply H2; apply starts_positive_nonempty; exact Hfirst
                     |exact H3].
Qed.

Lemma cumprod_from_nonneg (acc : Q) (xs : list (option Q)) :
  0 <= acc -> Forall (fun w => 0 <= w) (present xs) ->
  Forall (fun w => 0 <= w) (present (cumprod_from acc xs)).
Proof.
  revert acc. induction xs as [|[v|] xs IH]; intros acc Hacc Hpos; simpl in *.
  - constructor.
  - inversion Hpos as [|? ? Hv Hpos']; subst.
    assert (H : 0 <= acc * v) by nra.
    constructor; [exact H|]. apply IH; assumption.
  - apply IH; assumption.
Qed.

Lemma cumprod_from_starts_positive (acc : Q) (xs : list (option Q)) :
  0 < acc -> starts_positive xs -> starts_positive (cumprod_from acc xs).
Proof.
  unfold starts_positive. induction xs as [|[v|] xs IH]; intros Hacc H; simpl in *.
  - exact H.
  - nra.
  - apply IH; assumption.
Qed.

Lemma starts_positive_map (f : Q -> Q) (xs : list (option Q)) :
  (forall v, 0 < v -> 0 < f v) ->
  starts_positive xs -> starts_positive (map (option_map f) xs).
Proof.
  unfold starts_positive. intros Hf. rewrite present_map.
  destruct (present xs) as [|v r]; simpl; [tauto|apply Hf].
Qed.

(** X19.  When no daily return is below -100% and the first one is above
    it, the drawdown is a number in [[-1, 0]]: the ['MDD(%)'] entry of
    [calc_metrics], as computed in [value] before the final [round(2)], lies
    in [[-100, 0]], and the [mdd] of a trade in [calc_maemfe] in [[-1, 0]].
    The lower end is reached after a day of -100% (and, in floating point,
    as soon as the wealth is lost in the rounding of [w / peak - 1]). *)
Theorem drawdown_range (x : list (option Q)) :
  Forall (fun r => -1 <= r) (present x) ->
  starts_positive (map (option_map (fun r => 1 + r)) x) ->
  (exists d, mdd_pct x = Fin d /\ -100 <= d /\ d <= 0) /\
  (exists e, trade_mdd x = Fin e /\ -1 <= e /\ e <= 0).
Proof.
  intros Hr Hfirst.
  set (W := cumprod (map (option_map (fun r => 1 + r)) x)).
  assert (HW : Forall (fun w => 0 <= w) (present W)).
  { subst W. unfold cumprod. apply cumprod_from_nonneg; [lra|].
    rewrite present_map. apply Forall_forall. intros w Hw.
    apply in_map_iff in Hw. destruct Hw as [r [<- Hin]].
    rewrite Forall_forall in Hr. specialize (Hr r Hin). lra. }
  assert (HW1 : starts_positive W).
  { subst W. unfold cumprod. apply cumprod_from_starts_positive; [lra|exact Hfirst]. }
  split.
  - unfold mdd_pct. fold W. destruct (mdd_range W HW HW1) as [d [-> [Hd1 Hd2]]].
    exists (d * 100). split; [reflexivity|]. split; lra.
  - unfold trade_mdd, c_returns. fold W. apply mdd_range.
    + rewrite !present_map, map_map. apply Forall_forall. intros w Hw.
      apply in_map_iff in Hw. destruct Hw as [u [<- Hin]].
      rewrite Forall_forall in HW. specialize (HW u Hin). lra.
    + rewrite map_map.
      assert (E : map (fun c => option_map (fun c0 => 1 + c0)
                                           (option_map (fun w => w - 1) c)) W
                  = map (option_map (fun w => 1 + (w - 1))) W).
      { apply map_ext. intros [w|]; reflexivity. }
      rewrite E. apply starts_positive_map; [|exact HW1]. intros v Hv. lra.
Qed.

Lemma drawdown_range_witness :
  ((exists d, mdd_pct trade_example = Fin d /\ -100 <= d /\ d <= 0) /\
   (exists e, trade_mdd trade_example = Fin e /\ -1 <= e /\ e <= 0)) /\
  ((exists d, mdd_pct wipeout_example = Fin d /\ -100 <= d /\ d <= 0) /\
   (exists e, trade_mdd wipeout_example = Fin e /\ -1 <= e /\ e <= 0)).
Proof.
  split.
  - apply (drawdown_range trade_example).
    + unfold trade_example. simpl. repeat constructor; vm_compute; discriminate.
    + vm_compute. reflexivity.
  - apply (drawdown_range wipeout_example).
    + unfold wipeout_example. simpl. repeat constructor; vm_compute; discriminate.
    + vm_compute. reflexivity.
Defined.

(** The lower end is reached: after the day of -100% the wealth is zero and
    stays zero, and the drawdown is -1. *)
Example drawdown_reaches_minus_one :
  fl_red (mdd_pct wipeout_example) = Fin (-100) /\
  fl_red (trade_mdd wipeout_example) = Fin (-1).
Proof. split; vm_compute; reflexivity. Qed.

Lemma count_if_le (p : Q -> bool) (xs : list Q) :
  (count_if p xs <= length xs)%nat.
Proof.
  unfold count_if. induction xs as [|x xs IH]; simpl; [lia|].
  destruct (p x); simpl; lia.
Qed.

(** X20.  The ['Win Rate(%)'] of a column, as computed in [value] before
    the final [round(2)], is NaN when the column has no value, and otherwise
    the share of its values that are positive, a number between 0 and 100;
    missing days count neither as wins nor in the total. *)
Theorem win_rate_range (x : list (option Q)) :
  (present x = [] -> win_rate_pct x = NaN) /\
  (present x <> [] ->
   exists v, win_rate_pct x = Fin v /\ 0 <= v /\ v <= 100 /\
             v == inject_Z (Z.of_nat (count_if Qpositive (present x)))
                  / inject_Z (Z.of_nat (sample_size x)) * 100).
Proof.
  unfold win_rate_pct, sample_size. split.
  - intros ->. reflexivity.
  - intros Hne. pose proof (Qlen_pos (present x) Hne) as Hn.
    pose proof (count_if_le Qpositive (present x)) as Hle.
    set (w := count_if Qpositive (present x)) in *.
    unfold fl_div. destruct (Qeq_bool (Qlen (present x)) 0) eqn:E.
    { apply Qeq_bool_iff in E. lra. }
    simpl. eexists. split; [reflexivity|].
    assert (Hw0 : 0 <= inject_Z (Z.of_nat w)).
    { change 0 with (inject_Z 0). rewrite <- Zle_Qle. lia. }
    assert (Hwn : inject_Z (Z.of_nat w) <= Qlen (present x)).
    { unfold Qlen. rewrite <- Zle_Qle. lia. }
    assert (H0 : 0 <= inject_Z (Z.of_nat w) / Qlen (present x))
      by (apply Qle_shift_div_l; lra).
    assert (H1 : inject_Z (Z.of_nat w) / Qlen (present x) <= 1)
      by (apply Qle_shift_div_r; lra).
    split; [lra|]. split; [lra|]. reflexivity.
Qed.

Lemma win_rate_range_witness :
  win_rate_pct [None; None] = NaN /\
  exists v, win_rate_pct trade_example = Fin v /\ 0 <= v /\ v <= 100 /\
            v == inject_Z (Z.of_nat (count_if Qpositive (present trade_example)))
                 / inject_Z (Z.of_nat (sample_size trade_example)) * 100.
Proof.
  split.
  - apply (proj1 (win_rate_range [None; None])). reflexivity.
  - apply (proj2 (win_rate_range trade_example)).
    unfold trade_example. simpl. discriminate.
Defined.

(** * Buys and sells of a holding *)

Lemma buy_sell_events_dates (col : list (Z * option Q)) (last : Q) d a :
  In (d, a) (buy_sell_events last col) -> In d (map fst col).
Proof.
  revert last. induction col as [|[x cur] rest IH]; intros last H; simpl in *;
    [exact H|].
  apply in_app_or in H. destruct H as [H|H].
  - left. destruct (is_buy last cur); [|destruct (is_sell last cur)];
      simpl in H; try tauto; destruct H as [H|[]]; congruence.
  - right. eapply IH. exact H.
Qed.

Lemma in_pair_trades (events : list (Z * action)) (b s : Z) :
  In (b, s) (pair_trades events) ->
  exists pre a rest, events = pre ++ (b, Buy) :: (s, a) :: rest.
Proof.
  induction events as [|[d a] rest IH]; simpl; [intros []|].
  intros H.
  assert (Hrec : In (b, s) (pair_trades rest) ->
                 exists pre a0 rest0, (d, a) :: rest = pre ++ (b, Buy) :: (s, a0) :: rest0).
  { intros H'. destruct (IH H') as [pre [a0 [rest0 ->]]].
    exists ((d, a) :: pre), a0, rest0. reflexivity. }
  destruct a; [|apply Hrec; exact H].
  destruct rest as [|[d' a'] rest']; [apply Hrec; exact H|].
  destruct H as [H|H]; [|apply Hrec; exact H].
  injection H as -> ->. exists [], a', rest'. reflexivity.
Qed.

(** What the events of a column without NaN look like from a given state:
    a pair of neighbouring events [(b, Buy), (s, _)] encloses a stretch held
    throughout and ends on a zero weight, and when the column starts inside
    a holding the first event is the sell that closes it. *)
Lemma buy_sell_events_shape (col : list (Z * option Q)) :
  Forall (fun r => snd r <> None) col ->
  StronglySorted Z.lt (map fst col) ->
  forall last,
    (forall pre b s a rest,
        buy_sell_events last col = pre ++ (b, Buy) :: (s, a) :: rest ->
        (b < s)%Z /\
        (exists w, In (s, Some w) col /\ w == 0) /\
        (forall x v, In (x, Some v) col -> (b <= x)%Z -> (x < s)%Z -> ~ v == 0)) /\
    (~ last == 0 ->
     forall s a rest,
       buy_sell_events last col = (s, a) :: rest ->
       (exists w, In (s, Some w) col /\ w == 0) /\
       (forall x v, In (x, Some v) col -> (x < s)%Z -> ~ v == 0)).
Proof.
  intros Hnan Hsorted.
  induction col as [|[d cur] col IH]; intros last.
  { split.
    - intros pre b s a rest H. destruct pre; discriminate.
    - intros _ s a rest H. discriminate. }
  inversion Hnan as [|? ? Hcur Hnan']; subst.
  simpl in Hsorted. inversion Hsorted as [|? ? Hs' Hd]; subst.
  destruct cur as [w|]; [|contradiction Hcur; reflexivity]. clear Hcur.
  specialize (IH Hnan' Hs' w). destruct IH as [IH1 IH2].
  assert (Hlater : forall x a0, In (x, a0) (buy_sell_events w col) -> (d < x)%Z).
  { intros x a0 Hx. apply buy_sell_events_dates in Hx.
    rewrite Forall_forall in Hd. apply Hd. exact Hx. }
  assert (Hrow : forall x v, In (x, Some v) col -> (d < x)%Z).
  { intros x v Hx. rewrite Forall_forall in Hd. apply Hd.
    apply (in_map fst) in Hx. exact Hx. }
  assert (Hrest : forall pre b s a rest,
             buy_sell_events w col = pre ++ (b, Buy) :: (s, a) :: rest ->
             (b < s)%Z /\
             (exists w0, In (s, Some w0) ((d, Some w) :: col) /\ w0 == 0) /\
             (forall x v, In (x, Some v) ((d, Some w) :: col) ->
                          (b <= x)%Z -> (x < s)%Z -> ~ v == 0)).
  { intros pre b s a rest E. destruct (IH1 pre b s a rest E) as [H1 [[w0 [H2 H3]] H4]].
    split; [exact H1|]. split; [exists w0; split; [right; exact H2|exact H3]|].
    intros x v [Hx|Hx] Hbx Hxs; [|eapply H4; eassumption].
    injection Hx as -> ->.
    assert (Hb : (x < b)%Z).
    { apply (Hlater b Buy). rewrite E. apply in_or_app. right. left. reflexivity. }
    lia. }
  simpl. unfold is_buy, is_sell.
  destruct (Qeq_bool last 0) eqn:El; destruct (Qeq_bool w 0) eqn:Ew; simpl.
  - (* flat before, flat now: no event *)
    split; [exact Hrest|].
    intros Hl. apply Qeq_bool_iff in El. contradiction.
  - (* flat before, held now: a buy *)
    assert (Hw : ~ w == 0) by (apply Qeq_bool_neq; exact Ew).
    split.
    + intros pre b s a rest E. destruct pre as [|p pre].
      * simpl in E. injection E as <- E.
        destruct (IH2 Hw s a rest E) as [[w0 [H2 H3]] H4].
        split; [apply (Hlater s a); rewrite E; left; reflexivity|].
        split; [exists w0; split; [right; exact H2|exact H3]|].
        intros x v [Hx|Hx] Hbx Hxs.
        -- injection Hx as _ <-. exact Hw.
        -- eapply H4; eassumption.
      * simpl in E. injection E as _ E. eapply Hrest. exact E.
    + intros Hl. apply Qeq_bool_iff in El. contradiction.
  - (* held before, flat now: a sell *)
    split.
    + intros pre b s a rest E. destruct pre as [|p pre].
      * simpl in E. discriminate.
      * simpl in E. injection E as _ E. eapply Hrest. exact E.
    + intros _ s a rest E. injection E as <- _ _.
      split.
      * exists w. split; [left; reflexivity|]. apply Qeq_bool_iff. exact Ew.
      * intros x v [Hx|Hx] Hlt.
        -- injection Hx as -> _. lia.
        -- apply Hrow in Hx. lia.
  - (* held before, held now: no event *)
    assert (Hw : ~ w == 0) by (apply Qeq_bool_neq; exact Ew).
    split; [exact Hrest|].
    intros _ s a rest E.
    destruct (IH2 Hw s a rest E) as [[w0 [H2 H3]] H4].
    split; [exists w0; split; [right; exact H2|exact H3]|].
    intros x v [Hx|Hx] Hlt.
    + injection Hx as _ <-. exact Hw.
    + eapply H4; eassumption.
Qed.

(** X21.  In a column without NaN whose dates increase, every trade of
    [calc_liquidity_metrics] is a real round trip: the buy date is before
    the sell date, the weight is non-zero on every date from the buy up to
    the day before the sell, and it is zero on the sell date. *)
Theorem stock_trades_are_round_trips (col : list (Z * option Q)) (b s : Z) :
  Forall (fun r => snd r <> None) col ->
  StronglySorted Z.lt (map fst col) ->
  In (b, s) (stock_trades col) ->
  (b < s)%Z /\
  (exists w, In (s, Some w) col /\ w == 0) /\
  (forall x v, In (x, Some v) col -> (b <= x)%Z -> (x < s)%Z -> ~ v == 0).
Proof.
  intros Hnan Hsorted Hin. unfold stock_trades in Hin.
  apply in_pair_trades in Hin. destruct Hin as [pre [a [rest E]]].
  destruct (buy_sell_events_shape col Hnan Hsorted 0) as [H _].
  eapply H. exact E.
Qed.

Lemma stock_trades_are_round_trips_witness :
  In (2%Z, 4%Z) (stock_trades holding_example) /\
  (2 < 4)%Z /\
  (exists w, In (4%Z, Some w) holding_example /\ w == 0) /\
  (forall x v, In (x, Some v) holding_example -> (2 <= x)%Z -> (x < 4)%Z -> ~ v == 0).
Proof.
  assert (Hin : In (2%Z, 4%Z) (stock_trades holding_example))
    by (left; reflexivity).
  split; [exact Hin|].
  apply (stock_trades_are_round_trips holding_example 2 4).
  - unfold holding_example. repeat constructor; discriminate.
  - unfold holding_example. simpl. repeat constructor; lia.
  - exact Hin.
Defined.

(** With a missing weight inside a holding the sell is not seen, and the
    buy is paired with the date of the next buy. *)
Example stock_trades_with_gap :
  buy_sell_events 0 holding_with_gap = [(2%Z, Buy); (5%Z, Buy)] /\
  stock_trades holding_with_gap = [(2%Z, 5%Z)].
Proof. split; reflexivity. Qed.

(** * Relative return and its downtrends *)

Lemma length_group_ids (ds : list bool) (prev : option bool) (acc : nat) :
  length (group_ids prev acc ds) = length ds.
Proof.
  revert prev acc. induction ds as [|d r IH]; intros prev acc; simpl;
    [reflexivity|]. f_equal. apply IH.
Qed.

(** From one row to the next the group number grows by one exactly when
    the flag changes. *)
Lemma group_ids_step (ds : list bool) (prev : option bool) (acc k : nat) :
  (S k < length ds)%nat ->
  nth (S k) (group_ids prev acc ds) O
  = (nth k (group_ids prev acc ds) O
     + if Bool.eqb (nth k ds false) (nth (S k) ds false) then 0 else 1)%nat.
Proof.
  revert prev acc k. induction ds as [|d r IH]; intros prev acc k Hk;
    [simpl in Hk; lia|].
  destruct k as [|k].
  - destruct r as [|d2 r]; [simpl in Hk; lia|].
    simpl. destruct (Bool.eqb d d2); simpl; lia.
  - simpl in Hk.
    change (nth (S (S k)) (group_ids prev acc (d :: r)) O)
      with (nth (S k) (group_ids (Some d) (if changed prev d then S acc else acc) r) O).
    change (nth (S k) (group_ids prev acc (d :: r)) O)
      with (nth k (group_ids (Some d) (if changed prev d then S acc else acc) r) O).
    change (nth (S k) (d :: r) false) with (nth k r false).
    change (nth (S (S k)) (d :: r) false) with (nth (S k) r false).
    apply IH. lia.
Qed.

Lemma group_ids_monotone (ds : list bool) (prev : option bool) (acc j i : nat) :
  (j <= i)%nat -> (i < length ds)%nat ->
  (nth j (group_ids prev acc ds) O <= nth i (group_ids prev acc ds) O)%nat.
Proof.
  intros Hji Hi. induction i as [|i IH]; [replace j with O by lia; lia|].
  destruct (Nat.eq_dec j (S i)) as [->|Hne]; [lia|].
  rewrite group_ids_step by exact Hi.
  assert (H := IH ltac:(lia) ltac:(lia)). lia.
Qed.

Lemma group_ids_constant (ds : list bool) (prev : option bool) (acc j i : nat) :
  (j <= i)%nat -> (i < length ds)%nat ->
  nth j (group_ids prev acc ds) O = nth i (group_ids prev acc ds) O ->
  forall k, (j <= k)%nat -> (k <= i)%nat -> nth k ds false = nth j ds false.
Proof.
  intros Hji Hi Heq k Hjk Hki. induction k as [|k IH].
  - replace j with O by lia. reflexivity.
  - destruct (Nat.eq_dec j (S k)) as [->|Hne]; [reflexivity|].
    rewrite <- IH by lia.
    pose proof (group_ids_step ds prev acc k ltac:(lia)) as Hstep.
    pose proof (group_ids_monotone ds prev acc j k ltac:(lia) ltac:(lia)) as H1.
    pose proof (group_ids_monotone ds prev acc (S k) i ltac:(lia) Hi) as H2.
    destruct (Bool.eqb (nth k ds false) (nth (S k) ds false)) eqn:E.
    + symmetry. apply Bool.eqb_prop. exact E.
    + lia.
Qed.

Lemma combine_as_map {A B} (l1 : list A) (l2 : list B) (d1 : A) (d2 : B) :
  length l1 = length l2 ->
  combine l1 l2 = map (fun k => (nth k l1 d1, nth k l2 d2)) (seq 0 (length l1)).
Proof.
  revert l2. induction l1 as [|a l1 IH]; intros [|b l2] H; simpl in *;
    try reflexivity; try discriminate.
  f_equal. rewrite <- seq_shift, map_map. apply IH. lia.
Qed.

Lemma length_filter_map {A B} (p : B -> bool) (f : A -> B) (l : list A) :
  length (filter p (map f l)) = length (filter (fun x => p (f x)) l).
Proof.
  induction l as [|a l IH]; simpl; [reflexivity|].
  destruct (p (f a)); simpl; rewrite IH; reflexivity.
Qed.

Lemma nth_map_default {A B} (f : A -> B) (d : A) (d' : B) (l : list A) (k : nat) :
  f d = d' -> nth k (map f l) d' = f (nth k l d).
Proof. intros <-. apply map_nth. Qed.

Lemma seq_sorted (a n : nat) : StronglySorted lt (seq a n).
Proof.
  revert a. induction n as [|n IH]; intros a; simpl; constructor; [apply IH|].
  apply Forall_forall. intros x Hx. apply in_seq in Hx. lia.
Qed.

Lemma filter_sorted (q : nat -> bool) (l : list nat) :
  StronglySorted lt l -> StronglySorted lt (filter q l).
Proof.
  induction 1 as [|a l Hl IH Ha]; simpl; [constructor|].
  destruct (q a); [|exact IH]. constructor; [exact IH|].
  apply Forall_forall. intros x Hx. apply filter_In in Hx.
  rewrite Forall_forall in Ha. apply Ha. tauto.
Qed.

(** A non-empty increasing list of positions fits between its least and
    greatest member. *)
Lemma sorted_span (l : list nat) :
  StronglySorted lt l -> l <> [] ->
  exists lo hi, In lo l /\ In hi l /\
                Forall (fun x => lo <= x <= hi)%nat l /\
                (length l <= hi - lo + 1)%nat.
Proof.
  induction 1 as [|a l Hl IH Ha]; intros Hne; [contradiction Hne; reflexivity|].
  destruct l as [|b l'].
  - exists a, a. split; [left; reflexivity|]. split; [left; reflexivity|].
    split; [constructor; [lia|constructor]|simpl; lia].
  - destruct (IH ltac:(discriminate)) as [lo [hi [Hlo [Hhi [Hall Hlen]]]]].
    rewrite Forall_forall in Ha.
    pose proof (Ha lo Hlo) as Halo.
    exists a, hi. split; [left; reflexivity|]. split; [right; exact Hhi|].
    split.
    + constructor.
      * pose proof (Ha hi Hhi). lia.
      * eapply Forall_impl; [|exact Hall]. simpl. intros x Hx. lia.
    + assert (Hlohi : (lo <= hi)%nat).
      { rewrite Forall_forall in Hall. apply (Hall lo Hlo). }
      simpl length in *. lia.
Qed.

(** The day [i] passes the condition of [np.where] only inside a stretch of
    at least [window] falling days in a row. *)
Lemma downtrend_cond_run (window : Z) (ds : list bool) (i : nat) :
  nth i (downtrend_cond window ds) false = true ->
  exists lo hi,
    (lo <= i)%nat /\ (i <= hi)%nat /\ (hi < length ds)%nat /\
    (window <= Z.of_nat (hi - lo + 1))%Z /\
    forall k, (lo <= k)%nat -> (k <= hi)%nat -> nth k ds false = true.
Proof.
  unfold downtrend_cond. set (ids := group_ids None 0 ds).
  assert (Hlen : length ids = length ds) by apply length_group_ids.
  intros H.
  rewrite (nth_map_default _ (O, false)) in H by reflexivity.
  rewrite combine_nth in H by exact Hlen. cbn [fst snd] in H.
  apply andb_true_iff in H. destruct H as [Hd Hw].
  apply Z.leb_le in Hw.
  assert (Hi : (i < length ds)%nat).
  { destruct (Nat.lt_ge_cases i (length ds)) as [Hlt|Hge]; [exact Hlt|].
    rewrite nth_overflow in Hd by exact Hge. discriminate. }
  unfold group_sum in Hw.
  rewrite (combine_as_map ids ds O false Hlen), length_filter_map, Hlen in Hw.
  cbn [fst snd] in Hw.
  set (q := fun k => (nth k ids O =? nth i ids O)%nat && nth k ds false) in *.
  assert (Hin : In i (filter q (seq 0 (length ds)))).
  { apply filter_In. split; [apply in_seq; lia|].
    unfold q. rewrite Nat.eqb_refl, Hd. reflexivity. }
  destruct (sorted_span (filter q (seq 0 (length ds))))
    as [lo [hi [Hlo [Hhi [Hall Hspan]]]]].
  { apply filter_sorted. apply seq_sorted. }
  { intros E. rewrite E in Hin. destruct Hin. }
  rewrite Forall_forall in Hall. pose proof (Hall i Hin) as Hbetween.
  apply filter_In in Hlo. destruct Hlo as [Hlo1 Hlo2].
  apply filter_In in Hhi. destruct Hhi as [Hhi1 Hhi2].
  apply in_seq in Hlo1. apply in_seq in Hhi1.
  unfold q in Hlo2, Hhi2.
  apply andb_true_iff in Hlo2. destruct Hlo2 as [Hlo2 Hlo3].
  apply andb_true_iff in Hhi2. destruct Hhi2 as [Hhi2 _].
  apply Nat.eqb_eq in Hlo2. apply Nat.eqb_eq in Hhi2.
  exists lo, hi. split; [lia|]. split; [lia|]. split; [lia|]. split; [lia|].
  intros k Hk1 Hk2.
  rewrite (group_ids_constant ds None 0 lo hi ltac:(lia) ltac:(lia)
             ltac:(fold ids; congruence) k Hk1 Hk2).
  exact Hlo3.
Qed.

Lemma length_diff_from (prev : option Q) (xs : list (option Q)) :
  length (diff_from prev xs) = length xs.
Proof.
  revert prev. induction xs as [|x r IH]; intros prev; simpl; [reflexivity|].
  f_equal. apply IH.
Qed.

Lemma diff_from_nth (xs : list (option Q)) (prev : option Q) (k : nat) (d : Q) :
  nth_error (diff_from prev xs) k = Some (Some d) ->
  match k with
  | O => exists a p, nth_error xs 0 = Some (Some a) /\ prev = Some p /\ d = a - p
  | S k' => exists a p, nth_error xs (S k') = Some (Some a) /\
                        nth_error xs k' = Some (Some p) /\ d = a - p
  end.
Proof.
  revert prev k. induction xs as [|x r IH]; intros prev k H;
    [destruct k; discriminate|].
  destruct k as [|k].
  - simpl in H. destruct x as [a|]; [|discriminate].
    destruct prev as [p|]; [|discriminate].
    injection H as <-. exists a, p. auto.
  - simpl in H. specialize (IH x k H). destruct k as [|k].
    + destruct IH as [a [p [H1 [H2 H3]]]]. exists a, p. subst x. auto.
    + exact IH.
Qed.

Lemma downward_day (alpha : list (option Q)) (k : nat) :
  nth k (downward_mask alpha) false = true ->
  (1 <= k)%nat /\
  exists a p, nth_error alpha k = Some (Some a) /\
              nth_error alpha (k - 1) = Some (Some p) /\ a < p.
Proof.
  unfold downward_mask, diff. intros H.
  assert (Hk : (k < length (diff_from None alpha))%nat).
  { destruct (Nat.lt_ge_cases k (length (diff_from None alpha))) as [Hlt|Hge];
      [exact Hlt|].
    rewrite nth_overflow in H by (rewrite length_map; exact Hge). discriminate. }
  rewrite (nth_map_default _ None) in H by reflexivity.
  destruct (nth k (diff_from None alpha) None) as [d|] eqn:E; [|discriminate].
  apply negb_true_iff in H. apply Qle_bool_false in H.
  assert (Hn : nth_error (diff_from None alpha) k = Some (Some d)).
  { rewrite (nth_error_nth' _ None Hk). rewrite E. reflexivity. }
  apply diff_from_nth in Hn. destruct k as [|k].
  - destruct Hn as [a [p [_ [Hp _]]]]. discriminate.
  - destruct Hn as [a [p [H1 [H2 H3]]]]. split; [lia|].
    exists a, p. replace (S k - 1)%nat with k by lia.
    split; [exact H1|]. split; [exact H2|]. subst d. lra.
Qed.

Lemma length_downward_mask (alpha : list (option Q)) :
  length (downward_mask alpha) = length alpha.
Proof. unfold downward_mask, diff. rewrite length_map. apply length_diff_from. Qed.

Lemma length_downtrend_cond (window : Z) (ds : list bool) :
  length (downtrend_cond window ds) = length ds.
Proof.
  unfold downtrend_cond. rewrite length_map, length_combine, length_group_ids.
  apply Nat.min_id.
Qed.

(** X22.  [calc_relative_return] reports a day in [downtrend_return] only
    with the relative return of that day, and only if the day lies in a
    stretch of at least [downtrend_window] days in a row on each of which
    the relative return fell below the day before; the first day is never
    reported. *)
Theorem downtrend_days_lie_in_falls
    (rows : list (option Q * option Q)) (downtrend_window : Z) (i : nat) (v : Q) :
  nth_error (snd (calc_relative_return rows downtrend_window)) i = Some (Some v) ->
  nth_error (fst (calc_relative_return rows downtrend_window)) i = Some (Some v) /\
  exists lo hi,
    (1 <= lo)%nat /\ (lo <= i)%nat /\ (i <= hi)%nat /\ (hi < length rows)%nat /\
    (downtrend_window <= Z.of_nat (hi - lo + 1))%Z /\
    forall k, (lo <= k)%nat -> (k <= hi)%nat ->
      exists a p,
        nth_error (relative_return rows) k = Some (Some a) /\
        nth_error (relative_return rows) (k - 1) = Some (Some p) /\ a < p.
Proof.
  unfold calc_relative_return. cbn [fst snd]. set (alpha := relative_return rows).
  unfold downtrend_return. intros H.
  rewrite nth_error_map, nth_error_combine in H.
  destruct (nth_error (downtrend_cond downtrend_window (downward_mask alpha)) i)
    as [c|] eqn:Ec; [|discriminate].
  destruct (nth_error alpha i) as [x|] eqn:Ea; [|discriminate].
  cbn [option_map fst snd] in H. destruct c; [|discriminate].
  injection H as ->. split; [reflexivity|].
  assert (Hc : nth i (downtrend_cond downtrend_window (downward_mask alpha)) false = true).
  { apply nth_error_nth. exact Ec. }
  destruct (downtrend_cond_run _ _ _ Hc) as [lo [hi [H1 [H2 [H3 [H4 H5]]]]]].
  rewrite length_downward_mask in H3.
  assert (Hrows : length alpha = length rows).
  { subst alpha. unfold relative_return, cumprod.
    rewrite length_map.
    assert (L : forall acc xs, length (cumprod_from acc xs) = length xs).
    { intros acc xs. revert acc. induction xs as [|[w|] xs IHx]; intros acc; simpl;
        [reflexivity| |]; f_equal; apply IHx. }
    rewrite L. apply length_map. }
  exists lo, hi.
  split; [apply (downward_day alpha lo); apply H5; lia|].
  split; [exact H1|]. split; [exact H2|]. split; [lia|]. split; [exact H4|].
  intros k Hk1 Hk2. apply (downward_day alpha k). apply H5; assumption.
Qed.

Lemma downtrend_days_lie_in_falls_witness :
  let out := calc_relative_return relative_example 3 in
  let v := match nth 2 (snd out) None with Some q => q | None => 0 end in
  nth_error (snd out) 2 = Some (Some v) /\
  nth_error (fst out) 2 = Some (Some v) /\
  exists lo hi,
    (1 <= lo)%nat /\ (lo <= 2)%nat /\ (2 <= hi)%nat /\
    (hi < length relative_example)%nat /\
    (3 <= Z.of_nat (hi - lo + 1))%Z /\
    forall k, (lo <= k)%nat -> (k <= hi)%nat ->
      exists a p,
        nth_error (relative_return relative_example) k = Some (Some a) /\
        nth_error (relative_return relative_example) (k - 1) = Some (Some p) /\ a < p.
Proof.
  intros out v.
  assert (H : nth_error (snd out) 2 = Some (Some v)) by (vm_compute; reflexivity).
  split; [exact H|].
  exact (downtrend_days_lie_in_falls relative_example 3 2 v H).
Defined.

Lemma diff_from_nth_S (xs : list (option Q)) (prev : option Q) (k : nat) (a p : Q) :
  nth_error xs (S k) = Some (Some a) ->
  nth_error xs k = Some (Some p) ->
  nth_error (diff_from prev xs) (S k) = Some (Some (a - p)).
Proof.
  revert prev k. induction xs as [|x r IH]; intros prev k Ha Hp; [discriminate|].
  destruct k as [|k].
  - simpl in Ha, Hp. injection Hp as ->.
    destruct r as [|y r]; [discriminate|]. simpl in Ha. injection Ha as ->.
    reflexivity.
  - simpl in Ha, Hp. simpl. apply (IH x k); assumption.
Qed.

Lemma falling_day_is_downward (alpha : list (option Q)) (k : nat) (a p : Q) :
  (1 <= k)%nat ->
  nth_error alpha k = Some (Some a) ->
  nth_error alpha (k - 1) = Some (Some p) ->
  a < p ->
  nth k (downward_mask alpha) false = true.
Proof.
  intros Hk Ha Hp Hlt. destruct k as [|k]; [lia|].
  replace (S k - 1)%nat with k in Hp by lia.
  unfold downward_mask, diff.
  rewrite (nth_map_default _ None) by reflexivity.
  rewrite (nth_error_nth _ _ None (diff_from_nth_S alpha None k a p Ha Hp)).
  destruct (Qle_bool 0 (a - p)) eqn:E; [|reflexivity].
  apply Qle_bool_imp_le in E. lra.
Qed.

Lemma group_ids_same (ds : list bool) (prev : option bool) (acc lo hi : nat) :
  (hi < length ds)%nat ->
  (forall k, (lo <= k)%nat -> (k <= hi)%nat -> nth k ds false = true) ->
  forall k, (lo <= k)%nat -> (k <= hi)%nat ->
    nth k (group_ids prev acc ds) O = nth lo (group_ids prev acc ds) O.
Proof.
  intros Hhi Hall k. induction k as [|k IH]; intros H1 H2.
  - replace lo with O by lia. reflexivity.
  - destruct (Nat.eq_dec lo (S k)) as [->|Hne]; [reflexivity|].
    rewrite group_ids_step by lia.
    rewrite (Hall k), (Hall (S k)) by lia. simpl.
    rewrite IH by lia. lia.
Qed.

Lemma filter_all {A} (q : A -> bool) (l : list A) :
  (forall x, In x l -> q x = true) -> filter q l = l.
Proof.
  induction l as [|a l IH]; intros H; simpl; [reflexivity|].
  rewrite (H a (or_introl eq_refl)). f_equal. apply IH.
  intros x Hx. apply H. right. exact Hx.
Qed.

Lemma downtrend_cond_of_run (window : Z) (ds : list bool) (lo hi i : nat) :
  (lo <= i)%nat -> (i <= hi)%nat -> (hi < length ds)%nat ->
  (window <= Z.of_nat (hi - lo + 1))%Z ->
  (forall k, (lo <= k)%nat -> (k <= hi)%nat -> nth k ds false = true) ->
  nth i (downtrend_cond window ds) false = true.
Proof.
  intros H1 H2 H3 Hw Hall. unfold downtrend_cond.
  set (ids := group_ids None 0 ds).
  assert (Hlen : length ids = length ds) by apply length_group_ids.
  rewrite (nth_map_default _ (O, false)) by reflexivity.
  rewrite combine_nth by exact Hlen. cbn [fst snd].
  rewrite (Hall i H1 H2). simpl. apply Z.leb_le.
  unfold group_sum.
  rewrite (combine_as_map ids ds O false Hlen), length_filter_map, Hlen.
  cbn [fst snd].
  replace (length ds) with (lo + ((hi - lo + 1) + (length ds - hi - 1)))%nat by lia.
  rewrite seq_app, filter_app, length_app. simpl.
  rewrite seq_app, filter_app, length_app.
  rewrite (filter_all _ (seq lo (hi - lo + 1))).
  - rewrite length_seq. lia.
  - intros x Hx. apply in_seq in Hx.
    rewrite (Hall x) by lia. rewrite andb_true_r. apply Nat.eqb_eq.
    unfold ids.
    rewrite (group_ids_same ds None 0 lo hi H3 Hall x) by lia.
    rewrite (group_ids_same ds None 0 lo hi H3 Hall i) by lia.
    reflexivity.
Qed.

(** X23.  Conversely, [calc_relative_return] reports every day of a stretch
    of at least [downtrend_window] days in a row on each of which the
    relative return fell below the day before: on such a day
    [downtrend_return] holds the relative return itself. *)
Theorem falling_stretch_is_reported
    (rows : list (option Q * option Q)) (downtrend_window : Z) (lo hi i : nat) :
  (1 <= lo)%nat -> (lo <= i)%nat -> (i <= hi)%nat -> (hi < length rows)%nat ->
  (downtrend_window <= Z.of_nat (hi - lo + 1))%Z ->
  (forall k, (lo <= k)%nat -> (k <= hi)%nat ->
     exists a p,
       nth_error (relative_return rows) k = Some (Some a) /\
       nth_error (relative_return rows) (k - 1) = Some (Some p) /\ a < p) ->
  nth_error (snd (calc_relative_return rows downtrend_window)) i
  = nth_error (fst (calc_relative_return rows downtrend_window)) i /\
  exists a, nth_error (snd (calc_relative_return rows downtrend_window)) i
            = Some (Some a).
Proof.
  intros Hlo H1 H2 H3 Hw Hall.
  unfold calc_relative_return. cbn [fst snd]. set (alpha := relative_return rows) in *.
  assert (Hmask : forall k, (lo <= k)%nat -> (k <= hi)%nat ->
                            nth k (downward_mask alpha) false = true).
  { intros k Hk1 Hk2. destruct (Hall k Hk1 Hk2) as [a [p [Ha [Hp Hlt]]]].
    apply (falling_day_is_downward alpha k a p); try assumption. lia. }
  assert (Hhi : (hi < length (downward_mask alpha))%nat).
  { destruct (Nat.lt_ge_cases hi (length (downward_mask alpha))) as [Hl|Hg];
      [exact Hl|].
    pose proof (Hmask hi ltac:(lia) ltac:(lia)) as Hm.
    rewrite nth_overflow in Hm by exact Hg. discriminate. }
  pose proof (downtrend_cond_of_run downtrend_window (downward_mask alpha)
                lo hi i H1 H2 Hhi Hw Hmask) as Hc.
  assert (Hci : (i < length (downtrend_cond downtrend_window (downward_mask alpha)))%nat).
  { rewrite length_downtrend_cond. lia. }
  destruct (Hall i H1 H2) as [a [_ [Ha _]]].
  unfold downtrend_return.
  rewrite nth_error_map, nth_error_combine.
  rewrite (nth_error_nth' _ false Hci), Hc, Ha. cbn [option_map fst snd].
  split; [reflexivity|]. exists a. reflexivity.
Qed.

Lemma falling_stretch_is_reported_witness :
  nth_error (snd (calc_relative_return relative_example 3)) 2
  = nth_error (fst (calc_relative_return relative_example 3)) 2 /\
  exists a, nth_error (snd (calc_relative_return relative_example 3)) 2
            = Some (Some a).
Proof.
  apply (falling_stretch_is_reported relative_example 3 1 3 2);
    [lia | lia | lia | simpl; lia | simpl; lia |].
  intros k Hk1 Hk2.
  assert (Hk : k = 1%nat \/ k = 2%nat \/ k = 3%nat) by lia.
  destruct Hk as [Hk|[Hk|Hk]]; subst k;
    (eexists; eexists; split; [vm_compute; reflexivity|];
     split; [vm_compute; reflexivity|]; vm_compute; reflexivity).
Defined.
